(** * Elements confidential transaction codec and signature-hash engine

    A shallow embedding of [ts_src/transaction.ts] (class [Transaction] and
    its module-level helpers) and the properties of its wire format,
    size oracle, identifier derivation and legacy / taproot sighash entry
    points.

    Conventions of the embedding:
    - a Node [Buffer] is a [list byte]; a JavaScript [number] that the code
      uses as an integer is a [Z], with the 32-bit conversions of the
      bitwise operators written out ([ToInt32], [ToUint32]);
    - a thrown exception is the [Err] case of [result];
    - an optional boolean argument that is left out is [false], an optional
      object or number argument is an [option];
    - the byte cursor ([BufferReader], [BufferWriter], [varuint],
      [varSliceSize]) lives in [ts_src/bufferutils.ts]; it is embedded
      from the specification's description of it (sections 4.1 and 4.2);
    - the hash functions and the script (de)compiler are external
      collaborators and are section variables. *)

From Stdlib Require Import ZArith Lia Strings.Byte.
From stdpp Require Import base option list numbers strings gmap.

Local Open Scope Z_scope.

Abbreviation Buffer := (list byte).

(** ** Exceptions *)

(** The error kinds of the specification (section 7), plus the two
    run-time failures of the host language that the code can raise:
    a failed [typeforce] check and a property read on [undefined]. *)
Inductive Error : Type :=
  | Truncated
  | TrailingBytes
  | InvalidVarInt
  | MissingIssuance
  | MismatchedPrevouts
  | OutOfRange
  | TypeforceError
  | JsTypeError.

Inductive result (A : Type) : Type :=
  | Ok (a : A)
  | Err (e : Error).
Arguments Ok {A} a.
Arguments Err {A} e.

Global Instance result_ret : MRet result := fun A a => Ok a.
Global Instance result_bind : MBind result :=
  fun A B f m => match m with Ok a => f a | Err e => Err e end.
Global Instance result_fmap : FMap result :=
  fun A B f m => match m with Ok a => Ok (f a) | Err e => Err e end.

Definition is_Ok {A} (m : result A) : bool :=
  match m with Ok _ => true | Err _ => false end.

(** [typeforce(check, value)]: throws unless the check holds. *)
Definition typeforce (check : bool) : result unit :=
  if check then Ok tt else Err TypeforceError.

(** [for (let i = 0; i < n; ++i) body], started at index [i]. *)
Fixpoint for_range {St : Type} (n : nat) (i : nat)
    (body : nat -> St -> result St) (s : St) : result St :=
  match n with
  | O => Ok s
  | S n' => s' ← body i s; for_range n' (S i) body s'
  end.

(** [xs.forEach(body)] for a body that may throw. *)
Fixpoint forEach {A St : Type} (body : A -> St -> result St) (xs : list A)
    (s : St) : result St :=
  match xs with
  | [] => Ok s
  | x :: xs' => s' ← body x s; forEach body xs' s'
  end.

(** ** Integers of the host language *)

Definition ToUint32 (x : Z) : Z := x mod 2 ^ 32.
Definition ToInt32 (x : Z) : Z :=
  let u := x mod 2 ^ 32 in if u <? 2 ^ 31 then u else u - 2 ^ 32.

(** [a & b], [a | b] and [a >>> 0] on numbers. *)
Definition js_and (a b : Z) : Z := Z.land (ToInt32 a) (ToInt32 b).
Definition js_or (a b : Z) : Z := Z.lor (ToInt32 a) (ToInt32 b).
Definition js_ushr0 (a : Z) : Z := ToUint32 a.

(** A number is truthy when it is not zero. *)
Definition truthy (x : Z) : bool := negb (x =? 0).

Definition isUInt32 (x : Z) : bool := (0 <=? x) && (x <? 2 ^ 32).

(** ** Bytes and fixed-width little-endian integers *)

Definition byte_of_Z (z : Z) : byte :=
  default x00 (Byte.of_N (Z.to_N (z mod 256))).
Definition Z_of_byte (b : byte) : Z := Z.of_N (Byte.to_N b).

Fixpoint le_bytes (width : nat) (z : Z) : Buffer :=
  match width with
  | O => []
  | S w => byte_of_Z z :: le_bytes w (z / 256)
  end.

Fixpoint le_value (bs : Buffer) : Z :=
  match bs with
  | [] => 0
  | b :: bs' => Z_of_byte b + 256 * le_value bs'
  end.

Definition len (bs : Buffer) : Z := Z.of_nat (length bs).

Definition ZERO : Buffer := replicate 32 x00.
Definition ONE : Buffer := replicate 31 x00 ++ [x01].
Definition EMPTY_BUFFER : Buffer := [].
Definition EMPTY_WITNESS : list Buffer := [].
Definition VALUE_UINT64_MAX : Buffer := replicate 8 xff.

Definition WITNESS_SCALE_FACTOR : Z := 4.
Definition OUTPOINT_ISSUANCE_FLAG : Z := js_ushr0 (Z.shiftl 1 31).
Definition OUTPOINT_PEGIN_FLAG : Z := js_ushr0 (Z.shiftl 1 30).
Definition OUTPOINT_INDEX_MASK : Z := 0x3fffffff.
Definition MINUS_1 : Z := 4294967295.

Definition DEFAULT_SEQUENCE : Z := 0xffffffff.
Definition SIGHASH_DEFAULT : Z := 0x00.
Definition SIGHASH_ALL : Z := 0x01.
Definition SIGHASH_NONE : Z := 0x02.
Definition SIGHASH_SINGLE : Z := 0x03.
Definition SIGHASH_ANYONECANPAY : Z := 0x80.
Definition SIGHASH_OUTPUT_MASK : Z := 0x03.
Definition SIGHASH_INPUT_MASK : Z := 0x80.
Definition ADVANCED_TRANSACTION_FLAG : Z := 0x01.

(** ** Compact-size integers *)

Module varuint.

(** Modelled from the spec: [varuint.encodingLength] of
    [bufferutils.ts] is not among the sources; section 4.1 gives
    "Varint encoding length: 1 for n<0xFD, 3, 5, or 9". *)
Definition encodingLength (n : Z) : Z :=
  if n <? 0xfd then 1
  else if n <=? 0xffff then 3
  else if n <=? 0xffffffff then 5
  else 9.

(** Modelled from the spec: the minimal compact-size form that
    section 9 says is emitted on write, with the prefixes of
    section 4.1. *)
Definition encode (n : Z) : Buffer :=
  if n <? 0xfd then le_bytes 1 n
  else if n <=? 0xffff then xfd :: le_bytes 2 n
  else if n <=? 0xffffffff then xfe :: le_bytes 4 n
  else xff :: le_bytes 8 n.

End varuint.

(** Modelled from the spec: [varSliceSize] of [bufferutils.ts]; a varslice
    is "a byte string prefixed by its length as a varint". *)
Definition varSliceSize (bs : Buffer) : Z :=
  varuint.encodingLength (len bs) + len bs.

(** The wire form of a varslice and of a vector of varslices. *)
Definition varslice (bs : Buffer) : Buffer := varuint.encode (len bs) ++ bs.
Definition vector (v : list Buffer) : Buffer :=
  varuint.encode (Z.of_nat (length v)) ++ concat (varslice <$> v).

(** ** Data model *)

(** The [Issuance] interface of [ts_src/issuance.ts], with the four fields
    the transaction code reads. *)
Module Issuance.
Record t : Type := mk {
  assetBlindingNonce : Buffer;
  assetEntropy : Buffer;
  assetAmount : Buffer;
  tokenAmount : Buffer }.
End Issuance.

(** Interface [Input].  The optional members are always set by the class
    ([fromBuffer], [addInput] and [clone] write every one of them), so
    [isPegin] and the proofs are plain fields; [issuance] stays optional
    because the code branches on its presence. *)
Module Input.
Record t : Type := mk {
  hash : Buffer;
  index : Z;
  script : Buffer;
  sequence : Z;
  witness : list Buffer;
  isPegin : bool;
  issuance : option Issuance.t;
  peginWitness : list Buffer;
  issuanceRangeProof : Buffer;
  inflationRangeProof : Buffer }.

Definition set_script (s : Buffer) (i : t) : t :=
  mk (hash i) (index i) s (sequence i) (witness i) (isPegin i)
     (issuance i) (peginWitness i) (issuanceRangeProof i)
     (inflationRangeProof i).
Definition set_sequence (n : Z) (i : t) : t :=
  mk (hash i) (index i) (script i) n (witness i) (isPegin i)
     (issuance i) (peginWitness i) (issuanceRangeProof i)
     (inflationRangeProof i).
(** The four assignments that follow [readConfidentialInFields]. *)
Definition set_in_fields (w pw : list Buffer) (irp inf : Buffer) (i : t)
    : t :=
  mk (hash i) (index i) (script i) (sequence i) w (isPegin i)
     (issuance i) pw irp inf.
End Input.

(** Interface [Output]. *)
Module Output.
Record t : Type := mk {
  script : Buffer;
  value : Buffer;
  asset : Buffer;
  nonce : Buffer;
  rangeProof : Buffer;
  surjectionProof : Buffer }.

(** The two assignments that follow [readConfidentialOutFields]. *)
Definition set_out_fields (rp sp : Buffer) (o : t) : t :=
  mk (script o) (value o) (asset o) (nonce o) rp sp.
End Output.

(** The instance fields of class [Transaction]. *)
Record Transaction : Type := mkTransaction {
  version : Z;
  locktime : Z;
  flag : Z;
  ins : list Input.t;
  outs : list Output.t }.

(** [new Transaction()]. *)
Definition new_Transaction : Transaction := mkTransaction 1 0 0 [] [].

Definition set_version (v : Z) (tx : Transaction) : Transaction :=
  mkTransaction v (locktime tx) (flag tx) (ins tx) (outs tx).
Definition set_locktime (v : Z) (tx : Transaction) : Transaction :=
  mkTransaction (version tx) v (flag tx) (ins tx) (outs tx).
Definition set_flag (v : Z) (tx : Transaction) : Transaction :=
  mkTransaction (version tx) (locktime tx) v (ins tx) (outs tx).
Definition set_ins (v : list Input.t) (tx : Transaction) : Transaction :=
  mkTransaction (version tx) (locktime tx) (flag tx) v (outs tx).
Definition set_outs (v : list Output.t) (tx : Transaction) : Transaction :=
  mkTransaction (version tx) (locktime tx) (flag tx) (ins tx) v.

(** ** Byte cursor: reader *)

Module BufferReader.

(** Modelled from the spec: class [BufferReader] of [bufferutils.ts] is
    not among the sources.  Section 4.1: "a reader over a borrowed
    buffer with an advancing offset"; every operation fails with
    [Truncated] "if insufficient bytes remain". *)
Record t : Type := mk { buffer : Buffer; offset : nat }.

Definition new (b : Buffer) : t := mk b 0.

(** Modelled from the spec: "read_slice(n): returns the next n bytes". *)
Definition readSlice (n : Z) (r : t) : result (Buffer * t) :=
  let k := Z.to_nat n in
  if (offset r + k <=? length (buffer r))%nat
  then Ok (take k (drop (offset r) (buffer r)), mk (buffer r) (offset r + k))
  else Err Truncated.

(** Modelled from the spec: the fixed-width little-endian reads of
    section 4.1. *)
Definition readUInt8 (r : t) : result (Z * t) :=
  '(bs, r) ← readSlice 1 r; Ok (le_value bs, r).
Definition readUInt32 (r : t) : result (Z * t) :=
  '(bs, r) ← readSlice 4 r; Ok (le_value bs, r).
Definition readInt32 (r : t) : result (Z * t) :=
  '(bs, r) ← readSlice 4 r; Ok (ToInt32 (le_value bs), r).
Definition readUInt64 (r : t) : result (Z * t) :=
  '(bs, r) ← readSlice 8 r; Ok (le_value bs, r).

(** Modelled from the spec: "read_varint: Bitcoin-style compact-size;
    first byte b determines width (b<0xFD -> b; 0xFD -> 2 bytes LE;
    0xFE -> 4 bytes LE; 0xFF -> 8 bytes LE)"; any encoding is accepted
    (section 9, non-minimal varints). *)
Definition readVarInt (r : t) : result (Z * t) :=
  '(b, r) ← readUInt8 r;
  if b <? 0xfd then Ok (b, r)
  else if b =? 0xfd then '(bs, r) ← readSlice 2 r; Ok (le_value bs, r)
  else if b =? 0xfe then '(bs, r) ← readSlice 4 r; Ok (le_value bs, r)
  else '(bs, r) ← readSlice 8 r; Ok (le_value bs, r).

(** Modelled from the spec: "read_varslice: read_varint length, then
    that many bytes". *)
Definition readVarSlice (r : t) : result (Buffer * t) :=
  '(n, r) ← readVarInt r; readSlice n r.

(** Modelled from the spec: "varint count then count varslices". *)
Definition readVector (r : t) : result (list Buffer * t) :=
  '(count, r) ← readVarInt r;
  for_range (Z.to_nat count) 0
    (fun _ '(v, r) => '(s, r) ← readVarSlice r; Ok (v ++ [s], r))
    ([], r).

(** Modelled from the spec: the tag-prefixed fields of section 4.2; "the
    read returns the entire field including its prefix byte".  The asset
    is 33 bytes for every prefix; the value is 9 bytes for prefix 0x01
    and 33 bytes otherwise, except that an absent value "is a single
    0x00 byte"; the nonce is 1 byte for prefix 0x00 and 33 bytes
    otherwise. *)
Definition assetSize (prefix : Z) : Z := if prefix =? 1 then 33 else 33.
Definition valueSize (prefix : Z) : Z :=
  if prefix =? 0 then 1 else if prefix =? 1 then 9 else 33.
Definition nonceSize (prefix : Z) : Z := if prefix =? 0 then 1 else 33.

Definition readConfidentialAsset (r : t) : result (Buffer * t) :=
  '(prefix, _) ← readUInt8 r; readSlice (assetSize prefix) r.
Definition readConfidentialValue (r : t) : result (Buffer * t) :=
  '(prefix, _) ← readUInt8 r; readSlice (valueSize prefix) r.
Definition readConfidentialNonce (r : t) : result (Buffer * t) :=
  '(prefix, _) ← readUInt8 r; readSlice (nonceSize prefix) r.

(** Modelled from the spec: "Issuance record reads as: 32-byte
    asset_blinding_nonce, 32-byte asset_entropy, then two confidential
    values (asset_amount, token_amount)". *)
Definition readIssuance (r : t) : result (Issuance.t * t) :=
  '(assetBlindingNonce, r) ← readSlice 32 r;
  '(assetEntropy, r) ← readSlice 32 r;
  '(assetAmount, r) ← readConfidentialValue r;
  '(tokenAmount, r) ← readConfidentialValue r;
  Ok (Issuance.mk assetBlindingNonce assetEntropy assetAmount tokenAmount,
      r).

Record InFields : Type := mkInFields {
  witness : list Buffer;
  peginWitness : list Buffer;
  issuanceRangeProof : Buffer;
  inflationRangeProof : Buffer }.

(** Modelled from the spec: "read_confidential_in_fields: four
    consecutive varslices = issuance_range_proof, inflation_range_proof,
    witness[] (varint count then count varslices), pegin_witness[]
    (same)". *)
Definition readConfidentialInFields (r : t) : result (InFields * t) :=
  '(issuanceRangeProof, r) ← readVarSlice r;
  '(inflationRangeProof, r) ← readVarSlice r;
  '(witness, r) ← readVector r;
  '(peginWitness, r) ← readVector r;
  Ok (mkInFields witness peginWitness issuanceRangeProof
        inflationRangeProof, r).

Record OutFields : Type := mkOutFields {
  rangeProof : Buffer;
  surjectionProof : Buffer }.

(** Modelled from the spec: "read_confidential_out_fields: two
    varslices = surjection_proof, range_proof". *)
Definition readConfidentialOutFields (r : t) : result (OutFields * t) :=
  '(surjectionProof, r) ← readVarSlice r;
  '(rangeProof, r) ← readVarSlice r;
  Ok (mkOutFields rangeProof surjectionProof, r).

End BufferReader.

(** ** Byte cursor: writer *)

Module BufferWriter.

(** Modelled from the spec: class [BufferWriter] of [bufferutils.ts] is
    not among the sources.  Section 4.1: "a writer that either wraps a
    caller-supplied buffer at a given offset, or is pre-sized by
    capacity (with_capacity) and grown by appending".  [grows] tells the
    two kinds apart; a wrapping writer overwrites in place and, like the
    reader, fails with [Truncated] when the bytes do not fit. *)
Record t : Type := mk { buffer : Buffer; offset : nat; grows : bool }.

Definition new (b : Buffer) (initialOffset : nat) : t :=
  mk b initialOffset false.
Definition withCapacity (size : Z) : t := mk [] 0 true.
Definition end_ (w : t) : Buffer := buffer w.

(** Modelled from the spec: "Writer operations mirror the above". *)
Definition writeSlice (bs : Buffer) (w : t) : result t :=
  if grows w then Ok (mk (buffer w ++ bs) (offset w + length bs) true)
  else if (offset w + length bs <=? length (buffer w))%nat
  then Ok (mk (take (offset w) (buffer w) ++ bs ++
               drop (offset w + length bs) (buffer w))
              (offset w + length bs) false)
  else Err Truncated.

(** The integer operand has the width the specification declares for
    the field; the low-order bytes are written. *)
Definition writeUInt8 (v : Z) (w : t) : result t :=
  writeSlice (le_bytes 1 v) w.
Definition writeInt32 (v : Z) (w : t) : result t :=
  writeSlice (le_bytes 4 v) w.
Definition writeUInt32 (v : Z) (w : t) : result t :=
  writeSlice (le_bytes 4 v) w.
Definition writeUInt64 (v : Z) (w : t) : result t :=
  writeSlice (le_bytes 8 v) w.
Definition writeVarInt (n : Z) (w : t) : result t :=
  writeSlice (varuint.encode n) w.
Definition writeVarSlice (bs : Buffer) (w : t) : result t :=
  w ← writeVarInt (len bs) w; writeSlice bs w.
Definition writeVector (v : list Buffer) (w : t) : result t :=
  w ← writeVarInt (Z.of_nat (length v)) w; forEach writeVarSlice v w.

(** Modelled from the spec: the mirror of [readConfidentialInFields]. *)
Definition writeConfidentialInFields (input : Input.t) (w : t)
    : result t :=
  w ← writeVarSlice (Input.issuanceRangeProof input) w;
  w ← writeVarSlice (Input.inflationRangeProof input) w;
  w ← writeVector (Input.witness input) w;
  writeVector (Input.peginWitness input) w.

(** Modelled from the spec: the mirror of [readConfidentialOutFields]. *)
Definition writeConfidentialOutFields (output : Output.t) (w : t)
    : result t :=
  w ← writeVarSlice (Output.surjectionProof output) w;
  writeVarSlice (Output.rangeProof output) w.

End BufferWriter.

(** ** Class [Transaction] *)

(** [Buffer.allocUnsafe(n)]: [n] bytes whose content is whatever the
    allocator left there; [garbage] stands for that content. *)
Definition Buffer_allocUnsafe (garbage : nat -> byte) (n : Z) : Buffer :=
  garbage <$> seq 0 (Z.to_nat n).

(** [Buffer.alloc(n, fill)]. *)
Definition Buffer_alloc (n : Z) (fill : byte) : Buffer :=
  replicate (Z.to_nat n) fill.

(** Body of the input loop of [fromBuffer]. *)
Definition fromBuffer_vin (s : Transaction * BufferReader.t)
    : result (Transaction * BufferReader.t) :=
  let '(tx, bufferReader) := s in
  '(inHash, bufferReader) ← BufferReader.readSlice 32 bufferReader;
  '(inIndex, bufferReader) ← BufferReader.readUInt32 bufferReader;
  '(inScript, bufferReader) ← BufferReader.readVarSlice bufferReader;
  '(inSequence, bufferReader) ← BufferReader.readUInt32 bufferReader;
  let inIsPegin := false in
  '(inIssuance, inIsPegin, inIndex, bufferReader) ←
    (if negb (inIndex =? MINUS_1) then
       '(inIssuance, bufferReader) ←
         (if truthy (js_and inIndex OUTPOINT_ISSUANCE_FLAG)
          then '(i, r) ← BufferReader.readIssuance bufferReader;
               Ok (Some i, r)
          else Ok (None, bufferReader));
       let inIsPegin :=
         if truthy (js_and inIndex OUTPOINT_PEGIN_FLAG) then true
         else inIsPegin in
       let inIndex := js_and inIndex OUTPOINT_INDEX_MASK in
       Ok (inIssuance, inIsPegin, inIndex, bufferReader)
     else Ok (None, inIsPegin, inIndex, bufferReader));
  Ok (set_ins (ins tx ++ [Input.mk inHash inIndex inScript inSequence
                            EMPTY_WITNESS inIsPegin inIssuance EMPTY_WITNESS
                            EMPTY_BUFFER EMPTY_BUFFER]) tx,
      bufferReader).

(** Body of the output loop of [fromBuffer]. *)
Definition fromBuffer_vout (s : Transaction * BufferReader.t)
    : result (Transaction * BufferReader.t) :=
  let '(tx, bufferReader) := s in
  '(asset, bufferReader) ← BufferReader.readConfidentialAsset bufferReader;
  '(value, bufferReader) ← BufferReader.readConfidentialValue bufferReader;
  '(nonce, bufferReader) ← BufferReader.readConfidentialNonce bufferReader;
  '(script, bufferReader) ← BufferReader.readVarSlice bufferReader;
  Ok (set_outs (outs tx ++ [Output.mk script value asset nonce
                              EMPTY_BUFFER EMPTY_BUFFER]) tx,
      bufferReader).

(** Bodies of the two witness loops of [fromBuffer]; [tx.ins[i]] on a
    missing element is a property write on [undefined]. *)
Definition fromBuffer_inFields (i : nat) (s : Transaction * BufferReader.t)
    : result (Transaction * BufferReader.t) :=
  let '(tx, bufferReader) := s in
  '(f, bufferReader) ← BufferReader.readConfidentialInFields bufferReader;
  match ins tx !! i with
  | Some txIn =>
      Ok (set_ins (<[i := Input.set_in_fields
                            (BufferReader.witness f)
                            (BufferReader.peginWitness f)
                            (BufferReader.issuanceRangeProof f)
                            (BufferReader.inflationRangeProof f) txIn]>
                     (ins tx)) tx,
          bufferReader)
  | None => Err JsTypeError
  end.

Definition fromBuffer_outFields (i : nat) (s : Transaction * BufferReader.t)
    : result (Transaction * BufferReader.t) :=
  let '(tx, bufferReader) := s in
  '(f, bufferReader) ← BufferReader.readConfidentialOutFields bufferReader;
  match outs tx !! i with
  | Some txOut =>
      Ok (set_outs (<[i := Output.set_out_fields
                             (BufferReader.rangeProof f)
                             (BufferReader.surjectionProof f) txOut]>
                      (outs tx)) tx,
          bufferReader)
  | None => Err JsTypeError
  end.

(** [static fromBuffer(buffer, _NO_STRICT)]. *)
Definition fromBuffer (buffer : Buffer) (_NO_STRICT : bool)
    : result Transaction :=
  let bufferReader := BufferReader.new buffer in
  let tx := new_Transaction in
  '(v, bufferReader) ← BufferReader.readInt32 bufferReader;
  let tx := set_version v tx in
  '(f, bufferReader) ← BufferReader.readUInt8 bufferReader;
  let tx := set_flag f tx in
  let hasWitnesses :=
    if truthy (js_and (flag tx) ADVANCED_TRANSACTION_FLAG) then true
    else false in
  '(vinLen, bufferReader) ← BufferReader.readVarInt bufferReader;
  '(tx, bufferReader) ←
    for_range (Z.to_nat vinLen) 0 (fun _ => fromBuffer_vin)
      (tx, bufferReader);
  '(voutLen, bufferReader) ← BufferReader.readVarInt bufferReader;
  '(tx, bufferReader) ←
    for_range (Z.to_nat voutLen) 0 (fun _ => fromBuffer_vout)
      (tx, bufferReader);
  '(l, bufferReader) ← BufferReader.readUInt32 bufferReader;
  let tx := set_locktime l tx in
  '(tx, bufferReader) ←
    (if hasWitnesses then
       s ← for_range (Z.to_nat vinLen) 0 fromBuffer_inFields
             (tx, bufferReader);
       for_range (Z.to_nat voutLen) 0 fromBuffer_outFields s
     else Ok (tx, bufferReader));
  if _NO_STRICT then Ok tx
  else if negb (BufferReader.offset bufferReader =? length buffer)%nat
  then Err TrailingBytes
  else Ok tx.

(** [static isCoinbaseHash(buffer)]; [types.Hash256bit] is a buffer of 32
    bytes. *)
Definition isCoinbaseHash (buffer : Buffer) : result bool :=
  _ ← typeforce (length buffer =? 32)%nat;
  Ok (forallb
        (fun i => match buffer !! i with
                  | Some b => Z_of_byte b =? 0
                  | None => false
                  end)
        (seq 0 32)).

(** [isCoinbase()]; [&&] evaluates its right operand only when the left
    one holds. *)
Definition isCoinbase (tx : Transaction) : result bool :=
  match ins tx with
  | [txIn] => isCoinbaseHash (Input.hash txIn)
  | _ => Ok false
  end.

(** Modelled from the spec: the [typeforce] types of [ts_src/types.ts]
    are not among the sources; the data model gives a confidential value
    as "1, 9, or 33 bytes" ([BufferOne], [ConfidentialValue],
    [ConfidentialCommitment]). *)
Definition isConfidentialValueOrCommitmentOrOne (b : Buffer) : bool :=
  (length b =? 9)%nat || (length b =? 33)%nat || (length b =? 1)%nat.

(** [validateIssuance(...)]. *)
Definition validateIssuance (assetBlindingNonce assetEntropy assetAmount
    tokenAmount : Buffer) : result bool :=
  _ ← typeforce (length assetBlindingNonce =? 32)%nat;
  _ ← typeforce (length assetEntropy =? 32)%nat;
  _ ← typeforce (isConfidentialValueOrCommitmentOrOne assetAmount);
  _ ← typeforce (isConfidentialValueOrCommitmentOrOne tokenAmount);
  Ok true.

(** [addInput(hash, index, sequence?, scriptSig?, issuance?)]: the updated
    transaction and the returned position of the new input. *)
Definition addInput (tx : Transaction) (hash : Buffer) (index : Z)
    (sequence : option Z) (scriptSig : option Buffer)
    (issuance : option Issuance.t) : result (Transaction * Z) :=
  _ ← typeforce ((length hash =? 32)%nat && isUInt32 index &&
                 from_option isUInt32 true sequence);
  let isPegin := false in
  '(isPegin, index) ←
    (if negb (index =? MINUS_1) then
       _ ← (if truthy (js_and index OUTPOINT_ISSUANCE_FLAG) then
              match issuance with
              | None => Err MissingIssuance
              | Some issuance =>
                  _ ← validateIssuance
                        (Issuance.assetBlindingNonce issuance)
                        (Issuance.assetEntropy issuance)
                        (Issuance.assetAmount issuance)
                        (Issuance.tokenAmount issuance);
                  Ok tt
              end
            else Ok tt);
       let isPegin :=
         if truthy (js_and index OUTPOINT_PEGIN_FLAG) then true
         else isPegin in
       Ok (isPegin, js_and index OUTPOINT_INDEX_MASK)
     else Ok (isPegin, index));
  let txIn :=
    Input.mk hash index
      (match scriptSig with Some s => s | None => EMPTY_BUFFER end)
      (match sequence with
       | Some s => if truthy s then s else DEFAULT_SEQUENCE
       | None => DEFAULT_SEQUENCE
       end)
      EMPTY_WITNESS isPegin issuance EMPTY_WITNESS EMPTY_BUFFER EMPTY_BUFFER in
  let ins' := ins tx ++ [txIn] in
  Ok (set_ins ins' tx, Z.of_nat (length ins') - 1).

(** [setWitness(index, witness)]. *)
Definition setWitness (tx : Transaction) (index : nat)
    (witness : list Buffer) : result Transaction :=
  match ins tx !! index with
  | Some txIn =>
      Ok (set_ins (<[index := Input.set_in_fields witness
                                (Input.peginWitness txIn)
                                (Input.issuanceRangeProof txIn)
                                (Input.inflationRangeProof txIn) txIn]>
                     (ins tx)) tx)
  | None => Err JsTypeError
  end.

(** [hasWitnesses()]. *)
Definition hasWitnesses (tx : Transaction) : bool :=
  (flag tx =? 1) ||
  existsb (fun x => negb (length (Input.witness x) =? 0)%nat) (ins tx) ||
  existsb (fun x => negb (length (Output.rangeProof x) =? 0)%nat &&
                    negb (length (Output.surjectionProof x) =? 0)%nat)
          (outs tx).

(** [__byteLength(_ALLOW_WITNESS, forSignature)]. *)
Definition __byteLength (tx : Transaction) (_ALLOW_WITNESS : bool)
    (forSignature : bool) : Z :=
  let extraByte := if forSignature then 0 else 1 in
  let size :=
    8 + extraByte +
    varuint.encodingLength (Z.of_nat (length (ins tx))) +
    varuint.encodingLength (Z.of_nat (length (outs tx))) in
  let size :=
    foldl (fun size txIn =>
             let size := size + (40 + varSliceSize (Input.script txIn)) in
             match Input.issuance txIn with
             | Some issuance =>
                 size + (64 + len (Issuance.assetAmount issuance) +
                         len (Issuance.tokenAmount issuance))
             | None => size
             end) size (ins tx) in
  let size :=
    foldl (fun size txOut =>
             size + (len (Output.asset txOut) + len (Output.value txOut) +
                     len (Output.nonce txOut) +
                     varSliceSize (Output.script txOut)))
          size (outs tx) in
  if _ALLOW_WITNESS && hasWitnesses tx then
    let size :=
      foldl (fun size txIn =>
               let size :=
                 size + varSliceSize (Input.issuanceRangeProof txIn) in
               let size :=
                 size + varSliceSize (Input.inflationRangeProof txIn) in
               let size :=
                 size + varuint.encodingLength
                          (Z.of_nat (length (Input.witness txIn))) in
               let size :=
                 foldl (fun size wit => size + varSliceSize wit) size
                       (Input.witness txIn) in
               let size :=
                 size + varuint.encodingLength
                          (Z.of_nat (length (Input.peginWitness txIn))) in
               foldl (fun size wit => size + varSliceSize wit) size
                     (Input.peginWitness txIn))
            size (ins tx) in
    foldl (fun size txOut =>
             let size := size + varSliceSize (Output.surjectionProof txOut) in
             size + varSliceSize (Output.rangeProof txOut))
          size (outs tx)
  else size.

(** [weight()], [virtualSize()] and the public [byteLength]. *)
Definition weight (tx : Transaction) : Z :=
  let base := __byteLength tx false false in
  let total := __byteLength tx true false in
  base * (WITNESS_SCALE_FACTOR - 1) + total.

Definition virtualSize (tx : Transaction) : Z :=
  (weight tx + WITNESS_SCALE_FACTOR - 1) / WITNESS_SCALE_FACTOR.

Definition byteLength (tx : Transaction) (_ALLOW_WITNESS : bool) : Z :=
  __byteLength tx (_ALLOW_WITNESS || true) false.

(** [clone()]: fresh input and output objects whose members are the
    members of the originals. *)
Definition clone (tx : Transaction) : Transaction :=
  let newTx := new_Transaction in
  let newTx := set_version (version tx) newTx in
  let newTx := set_locktime (locktime tx) newTx in
  let newTx := set_flag (flag tx) newTx in
  let newTx :=
    set_ins ((fun txIn =>
                Input.mk (Input.hash txIn) (Input.index txIn)
                  (Input.script txIn) (Input.sequence txIn)
                  (Input.witness txIn) (Input.isPegin txIn)
                  (Input.issuance txIn) (Input.peginWitness txIn)
                  (Input.issuanceRangeProof txIn)
                  (Input.inflationRangeProof txIn)) <$> ins tx) newTx in
  set_outs ((fun txOut =>
               Output.mk (Output.script txOut) (Output.value txOut)
                 (Output.asset txOut) (Output.nonce txOut)
                 (Output.rangeProof txOut) (Output.surjectionProof txOut))
              <$> outs tx) newTx.

(** The outpoint index that [__toBuffer] puts on the wire for an input. *)
Definition wire_prevIndex (txIn : Input.t) : Z :=
  let prevIndex := Input.index txIn in
  let prevIndex :=
    match Input.issuance txIn with
    | Some _ => js_ushr0 (js_or prevIndex OUTPOINT_ISSUANCE_FLAG)
    | None => prevIndex
    end in
  if Input.isPegin txIn
  then js_ushr0 (js_or prevIndex OUTPOINT_PEGIN_FLAG) else prevIndex.

(** Bodies of the two [forEach] loops of [__toBuffer]. *)
Definition __toBuffer_in (txIn : Input.t) (bufferWriter : BufferWriter.t)
    : result BufferWriter.t :=
  bufferWriter ← BufferWriter.writeSlice (Input.hash txIn) bufferWriter;
  let prevIndex := wire_prevIndex txIn in
  bufferWriter ← BufferWriter.writeUInt32 prevIndex bufferWriter;
  bufferWriter ← BufferWriter.writeVarSlice (Input.script txIn) bufferWriter;
  bufferWriter ← BufferWriter.writeUInt32 (Input.sequence txIn) bufferWriter;
  match Input.issuance txIn with
  | Some issuance =>
      bufferWriter ← BufferWriter.writeSlice
                       (Issuance.assetBlindingNonce issuance) bufferWriter;
      bufferWriter ← BufferWriter.writeSlice
                       (Issuance.assetEntropy issuance) bufferWriter;
      bufferWriter ← BufferWriter.writeSlice
                       (Issuance.assetAmount issuance) bufferWriter;
      BufferWriter.writeSlice (Issuance.tokenAmount issuance) bufferWriter
  | None => Ok bufferWriter
  end.

Definition __toBuffer_out (forSignature hasWitnesses : bool)
    (txOut : Output.t) (bufferWriter : BufferWriter.t)
    : result BufferWriter.t :=
  let val :=
    if forSignature && hasWitnesses then Buffer_alloc 1 x00
    else Output.value txOut in
  bufferWriter ← BufferWriter.writeSlice (Output.asset txOut) bufferWriter;
  bufferWriter ← BufferWriter.writeSlice val bufferWriter;
  bufferWriter ← BufferWriter.writeSlice (Output.nonce txOut) bufferWriter;
  bufferWriter ←
    (if forSignature && hasWitnesses
     then BufferWriter.writeUInt64 0 bufferWriter else Ok bufferWriter);
  BufferWriter.writeVarSlice (Output.script txOut) bufferWriter.

(** [__toBuffer(buffer?, initialOffset?, _ALLOW_WITNESS?, forceZeroFlag?,
    forSignature?)].  The first component of the result is the returned
    buffer; the second is the content of the buffer that was written into,
    which is the caller's own when [buffer] was passed. *)
Definition __toBuffer (garbage : nat -> byte) (tx : Transaction)
    (buffer : option Buffer) (initialOffset : option nat)
    (_ALLOW_WITNESS forceZeroFlag forSignature : bool)
    : result (Buffer * Buffer) :=
  let buffer :=
    match buffer with
    | Some b => b
    | None =>
        Buffer_allocUnsafe garbage
          (__byteLength tx _ALLOW_WITNESS forSignature)
    end in
  let bufferWriter := BufferWriter.new buffer (default 0%nat initialOffset) in
  bufferWriter ← BufferWriter.writeInt32 (version tx) bufferWriter;
  let hasWitnesses := _ALLOW_WITNESS && hasWitnesses tx in
  bufferWriter ←
    (if negb forSignature then
       let flags := 0 in
       let flags :=
         if hasWitnesses && negb forceZeroFlag
         then js_or flags ADVANCED_TRANSACTION_FLAG else flags in
       BufferWriter.writeUInt8 flags bufferWriter
     else Ok bufferWriter);
  bufferWriter ←
    BufferWriter.writeVarInt (Z.of_nat (length (ins tx))) bufferWriter;
  bufferWriter ← forEach __toBuffer_in (ins tx) bufferWriter;
  bufferWriter ←
    BufferWriter.writeVarInt (Z.of_nat (length (outs tx))) bufferWriter;
  bufferWriter ←
    forEach (__toBuffer_out forSignature hasWitnesses) (outs tx) bufferWriter;
  bufferWriter ← BufferWriter.writeUInt32 (locktime tx) bufferWriter;
  bufferWriter ←
    (if negb forSignature && hasWitnesses then
       bufferWriter ←
         forEach BufferWriter.writeConfidentialInFields (ins tx) bufferWriter;
       forEach BufferWriter.writeConfidentialOutFields (outs tx) bufferWriter
     else Ok bufferWriter);
  let buffer := BufferWriter.buffer bufferWriter in
  match initialOffset with
  | Some o =>
      Ok (take (BufferWriter.offset bufferWriter - o) (drop o buffer), buffer)
  | None => Ok (buffer, buffer)
  end.

(** [toBuffer(buffer?, initialOffset?)]. *)
Definition toBuffer (garbage : nat -> byte) (tx : Transaction)
    (buffer : option Buffer) (initialOffset : option nat) : result Buffer :=
  fst <$> __toBuffer garbage tx buffer initialOffset true false false.

(** ** Signature hashes and identifiers *)

(** An element of a decompiled script: an opcode number or a pushed
    buffer. *)
Inductive Chunk : Type :=
  | Op (n : Z)
  | Push (b : Buffer).

(** Modelled from the spec: the opcode table of [ts_src/script.ts] is not
    among the sources; section 6 gives "OP_CODESEPARATOR, value 0xAB". *)
Definition OP_CODESEPARATOR : Z := 0xab.

(** [x !== opcodes.OP_CODESEPARATOR] on a chunk. *)
Definition not_codeseparator (x : Chunk) : bool :=
  match x with
  | Op n => negb (n =? OP_CODESEPARATOR)
  | Push _ => true
  end.

(** An element of [txTmp.outs] while [hashForSignature] edits the clone:
    an output of the transaction, or the shared constant [BLANK_OUTPUT].
    That constant is declared with the members [script], [asset], [nonce]
    and [valueBuffer]; it has no member [value]. *)
Inductive TmpOut : Type :=
  | Kept (o : Output.t)
  | BLANK_OUTPUT.

(** Reading [txOut.value.length] in [__byteLength] throws on an element
    without a [value] member; this is the first thing the serializer does
    with an output. *)
Definition tmp_output (o : TmpOut) : result Output.t :=
  match o with
  | Kept o => Ok o
  | BLANK_OUTPUT => Err JsTypeError
  end.

(** [buf.writeInt32LE(value, offset)] of the host's [Buffer]: a range error
    unless the value is a signed 32-bit integer and four bytes fit at the
    offset. *)
Definition Buffer_writeInt32LE (buf : Buffer) (value offset : Z)
    : result Buffer :=
  if (- 2 ^ 31 <=? value) && (value <? 2 ^ 31) &&
     (0 <=? offset) && (offset + 4 <=? len buf)
  then Ok (take (Z.to_nat offset) buf ++ le_bytes 4 value ++
           drop (Z.to_nat offset + 4) buf)
  else Err OutOfRange.

(** [xs[i]] followed by a member access: a type error when the element is
    missing. *)
Definition element {A : Type} (xs : list A) (i : Z) : result A :=
  if i <? 0 then Err JsTypeError
  else match xs !! Z.to_nat i with
       | Some x => Ok x
       | None => Err JsTypeError
       end.

Module AssetValue.
Record t : Type := mk { asset : Buffer; value : Buffer }.
End AssetValue.

(** [getIssuanceSize(txIn)] and [getInputFlag(input)]. *)
Definition getIssuanceSize (txIn : Input.t) : Z :=
  match Input.issuance txIn with
  | Some issuance =>
      len (Issuance.assetBlindingNonce issuance) +
      len (Issuance.assetEntropy issuance) +
      len (Issuance.assetAmount issuance) +
      len (Issuance.tokenAmount issuance)
  | None => 0
  end.

Definition getInputFlag (input : Input.t) : Z :=
  let hasIssuance := bool_decide (Input.issuance input <> None) in
  js_or (if hasIssuance then Z.shiftr OUTPOINT_ISSUANCE_FLAG 24 else 0)
        (if Input.isPegin input then Z.shiftr OUTPOINT_PEGIN_FLAG 24 else 0).

(** The four issuance members, or the single zero byte. *)
Definition write_issuance_or_zero (txIn : Input.t) (w : BufferWriter.t)
    : result BufferWriter.t :=
  match Input.issuance txIn with
  | Some issuance =>
      w ← BufferWriter.writeSlice (Issuance.assetBlindingNonce issuance) w;
      w ← BufferWriter.writeSlice (Issuance.assetEntropy issuance) w;
      w ← BufferWriter.writeSlice (Issuance.assetAmount issuance) w;
      BufferWriter.writeSlice (Issuance.tokenAmount issuance) w
  | None => BufferWriter.writeSlice [x00] w
  end.

Definition write_output (out : Output.t) (w : BufferWriter.t)
    : result BufferWriter.t :=
  w ← BufferWriter.writeSlice (Output.asset out) w;
  w ← BufferWriter.writeSlice (Output.value out) w;
  w ← BufferWriter.writeSlice (Output.nonce out) w;
  BufferWriter.writeVarSlice (Output.script out) w.

Section SignatureHashes.

(** The external collaborators of section 6.  [decompile] returns the
    chunks of a script or [null] ([None]): the code puts the non-null
    operator [!] on its result, which is erased when the program runs, so
    that a [null] reaches [.filter] and a [TypeError] is thrown. *)
Variable garbage : nat -> byte.
Variable hash256 : Buffer -> Buffer.
Variable sha256 : Buffer -> Buffer.
Variable taggedHash : String.string -> Buffer -> Buffer.
Variable decompile : Buffer -> option (list Chunk).
Variable compile : list Chunk -> Buffer.

(** [ins.forEach((input, i) => { if (i === inIndex) return;
    input.sequence = 0; })]. *)
Definition zero_other_sequences (inIndex : Z) (txIns : list Input.t)
    : list Input.t :=
  imap (fun i input =>
          if Z.of_nat i =? inIndex then input
          else Input.set_sequence 0 input) txIns.

(** [hashForSignature(inIndex, prevOutScript, hashType)].  Of the
    [typeforce] tuple, [types.Buffer] and [types.Number] hold for every
    argument of the embedding's types. *)
Definition hashForSignature (tx : Transaction) (inIndex : Z)
    (prevOutScript : Buffer) (hashType : Z) : result Buffer :=
  _ ← typeforce (isUInt32 inIndex);
  if Z.of_nat (length (ins tx)) <=? inIndex then Ok ONE else
  chunks ←
    match decompile prevOutScript with
    | Some chunks => Ok chunks
    | None => Err JsTypeError
    end;
  let ourScript :=
    compile (filter (fun x => not_codeseparator x = true) chunks) in
  let txTmp := clone tx in
  let tmpIns := ins txTmp in
  let tmpOuts := Kept <$> outs txTmp in
  let continue (tmpIns : list Input.t) (tmpOuts : list TmpOut)
      : result Buffer :=
    tmpIns ←
      (if truthy (js_and hashType SIGHASH_ANYONECANPAY) then
         input ← element tmpIns inIndex;
         Ok [Input.set_script ourScript input]
       else
         let tmpIns := Input.set_script EMPTY_BUFFER <$> tmpIns in
         input ← element tmpIns inIndex;
         Ok (<[Z.to_nat inIndex := Input.set_script ourScript input]> tmpIns));
    tmpOuts ← mapM tmp_output tmpOuts;
    let txTmp :=
      mkTransaction (version txTmp) (locktime txTmp) (flag txTmp)
        tmpIns tmpOuts in
    let buffer :=
      Buffer_allocUnsafe garbage (__byteLength txTmp false true + 4) in
    buffer ← Buffer_writeInt32LE buffer hashType (len buffer - 4);
    '(_, buffer) ←
      __toBuffer garbage txTmp (Some buffer) (Some 0%nat) false true true;
    Ok (hash256 buffer) in
  if js_and hashType 0x1f =? SIGHASH_NONE then
    continue (zero_other_sequences inIndex tmpIns) []
  else if js_and hashType 0x1f =? SIGHASH_SINGLE then
    if Z.of_nat (length (outs tx)) <=? inIndex then Ok ONE else
    let tmpOuts := take (Z.to_nat (inIndex + 1)) tmpOuts in
    let tmpOuts :=
      foldl (fun tmpOuts i => <[i := BLANK_OUTPUT]> tmpOuts) tmpOuts
            (seq 0 (Z.to_nat inIndex)) in
    continue (zero_other_sequences inIndex tmpIns) tmpOuts
  else continue tmpIns tmpOuts.

(** The module-level digest helpers of the taproot sighash. *)
Definition getOutputWitnessesSHA256 (outs : list Output.t) : result Buffer :=
  let size :=
    foldl (fun sum o => sum + (varSliceSize (Output.rangeProof o) +
                               varSliceSize (Output.surjectionProof o)))
          0 outs in
  w ← forEach (fun out w =>
                 w ← BufferWriter.writeVarSlice
                       (Output.surjectionProof out) w;
                 BufferWriter.writeVarSlice (Output.rangeProof out) w)
        outs (BufferWriter.withCapacity size);
  Ok (sha256 (BufferWriter.end_ w)).

Definition getIssuanceProofsSHA256 (txIns : list Input.t) : result Buffer :=
  let size :=
    foldl (fun sum i => sum + (varSliceSize (Input.issuanceRangeProof i) +
                               varSliceSize (Input.inflationRangeProof i)))
          0 txIns in
  w ← forEach (fun input w =>
                 w ← BufferWriter.writeVarSlice
                       (Input.issuanceRangeProof input) w;
                 BufferWriter.writeVarSlice
                   (Input.inflationRangeProof input) w)
        txIns (BufferWriter.withCapacity size);
  Ok (sha256 (BufferWriter.end_ w)).

Definition getSpentAssetsAmountsSHA256 (outs : list AssetValue.t)
    : result Buffer :=
  let size :=
    foldl (fun sum o => sum + len (AssetValue.asset o) +
                        len (AssetValue.value o)) 0 outs in
  w ← forEach (fun out w =>
                 w ← BufferWriter.writeSlice (AssetValue.asset out) w;
                 BufferWriter.writeSlice (AssetValue.value out) w)
        outs (BufferWriter.withCapacity size);
  Ok (sha256 (BufferWriter.end_ w)).

Definition getOutpointFlagsSHA256 (txIns : list Input.t) : result Buffer :=
  w ← forEach (fun input w => BufferWriter.writeUInt8 (getInputFlag input) w)
        txIns (BufferWriter.withCapacity (Z.of_nat (length txIns)));
  Ok (sha256 (BufferWriter.end_ w)).

Definition getPrevoutsSHA256 (inputs : list Input.t) : result Buffer :=
  w ← forEach (fun i w =>
                 w ← BufferWriter.writeSlice (Input.hash i) w;
                 BufferWriter.writeUInt32 (Input.index i) w)
        inputs
        (BufferWriter.withCapacity (Z.of_nat (length inputs) * (32 + 4)));
  Ok (sha256 (BufferWriter.end_ w)).

(** [scripts.map(varSliceSize).reduce((a, b) => a + b)] has no initial
    value: on an empty array [reduce] throws a type error. *)
Definition getPrevoutScriptsSHA256 (scripts : list Buffer) : result Buffer :=
  size ← match varSliceSize <$> scripts with
         | [] => Err JsTypeError
         | a :: rest => Ok (foldl Z.add a rest)
         end;
  w ← forEach BufferWriter.writeVarSlice scripts
        (BufferWriter.withCapacity size);
  Ok (sha256 (BufferWriter.end_ w)).

Definition getSequenceSHA256 (inputs : list Input.t) : result Buffer :=
  w ← forEach (fun txIn w => BufferWriter.writeUInt32 (Input.sequence txIn) w)
        inputs (BufferWriter.withCapacity (4 * Z.of_nat (length inputs)));
  Ok (sha256 (BufferWriter.end_ w)).

Definition getIssuanceSHA256 (inputs : list Input.t) : result Buffer :=
  let sizeOfIssuances :=
    foldl (fun sum txIn =>
             match Input.issuance txIn with
             | Some _ => sum + getIssuanceSize txIn
             | None => sum + 1
             end) 0 inputs in
  let size :=
    if sizeOfIssuances =? 0 then Z.of_nat (length inputs)
    else sizeOfIssuances in
  w ← forEach write_issuance_or_zero inputs (BufferWriter.withCapacity size);
  Ok (sha256 (BufferWriter.end_ w)).

Definition getOutputsSHA256 (outputs : list Output.t) : result Buffer :=
  let txOutsSize :=
    foldl (fun sum output =>
             sum + len (Output.asset output) + len (Output.value output) +
             len (Output.nonce output) + varSliceSize (Output.script output))
          0 outputs in
  w ← forEach write_output outputs (BufferWriter.withCapacity txOutsSize);
  Ok (sha256 (BufferWriter.end_ w)).

(** [hashForWitnessV1(inIndex, prevOutScripts, prevoutAssetsValues,
    hashType, genesisBlockHash, leafHash?, annex?)].  The thrown
    [Error('Must supply prevout script and value for all inputs')] is the
    specification's [MismatchedPrevouts]. *)
Definition hashForWitnessV1 (tx : Transaction) (inIndex : Z)
    (prevOutScripts : list Buffer) (prevoutAssetsValues : list AssetValue.t)
    (hashType : Z) (genesisBlockHash : Buffer)
    (leafHash annex : option Buffer) : result Buffer :=
  _ ← typeforce (isUInt32 inIndex && isUInt32 hashType);
  if negb (length prevOutScripts =? length (ins tx))%nat
  then Err MismatchedPrevouts else
  let outputType :=
    if hashType =? SIGHASH_DEFAULT then SIGHASH_ALL
    else js_and hashType SIGHASH_OUTPUT_MASK in
  let inputType := js_and hashType SIGHASH_INPUT_MASK in
  let isAnyoneCanPay := inputType =? SIGHASH_ANYONECANPAY in
  let isNone := outputType =? SIGHASH_NONE in
  let isSingle := outputType =? SIGHASH_SINGLE in
  '(hashPrevouts, hashOutpointsFlags, hashSpentAssetsAmounts,
    hashIssuancesProofs, hashScriptPubKeys, hashSequences, hashIssuances) ←
    (if negb isAnyoneCanPay then
       hashPrevouts ← getPrevoutsSHA256 (ins tx);
       hashOutpointsFlags ← getOutpointFlagsSHA256 (ins tx);
       hashSpentAssetsAmounts ←
         getSpentAssetsAmountsSHA256 prevoutAssetsValues;
       hashIssuancesProofs ← getIssuanceProofsSHA256 (ins tx);
       hashScriptPubKeys ← getPrevoutScriptsSHA256 prevOutScripts;
       hashSequences ← getSequenceSHA256 (ins tx);
       hashIssuances ← getIssuanceSHA256 (ins tx);
       Ok (hashPrevouts, hashOutpointsFlags, hashSpentAssetsAmounts,
           hashIssuancesProofs, hashScriptPubKeys, hashSequences,
           hashIssuances)
     else Ok (EMPTY_BUFFER, EMPTY_BUFFER, EMPTY_BUFFER, EMPTY_BUFFER,
              EMPTY_BUFFER, EMPTY_BUFFER, EMPTY_BUFFER));
  '(hashOutputs, hashOutputsWitnesses) ←
    (if negb (isNone || isSingle) then
       hashOutputs ← getOutputsSHA256 (outs tx);
       hashOutputsWitnesses ← getOutputWitnessesSHA256 (outs tx);
       Ok (hashOutputs, hashOutputsWitnesses)
     else if isSingle && (inIndex <? Z.of_nat (length (outs tx))) then
       output ← element (outs tx) inIndex;
       hashOutputs ← getOutputsSHA256 [output];
       hashOutputsWitnesses ← getOutputWitnessesSHA256 [output];
       Ok (hashOutputs, hashOutputsWitnesses)
     else Ok (EMPTY_BUFFER, EMPTY_BUFFER));
  let spendType :=
    (if leafHash is Some _ then 2 else 0) + (if annex is Some _ then 1 else 0)
  in
  inputPartSize ←
    (if isAnyoneCanPay then
       pav ← element prevoutAssetsValues inIndex;
       prevOutScript ← element prevOutScripts inIndex;
       input ← element (ins tx) inIndex;
       Ok (1 + 32 + 4 + len (AssetValue.asset pav) +
           len (AssetValue.value pav) + varSliceSize prevOutScript + 4 +
           (if Input.issuance input is Some _ then getIssuanceSize input
            else 1))
     else Ok 4);
  let fullMsgSize := 32 * 2 + 1 + 4 + 4 + 1 + inputPartSize in
  let sigMsgSize :=
    fullMsgSize +
    (if negb isAnyoneCanPay then 7 * 32 else 0) +
    (if negb (isNone || isSingle) then 32 + 32 else 0) +
    (if annex is Some _ then 32 else 0) +
    (if isSingle then 32 + 32 else 0) +
    (if leafHash is Some _ then 37 else 0) in
  let sigMsgWriter := BufferWriter.withCapacity sigMsgSize in
  sigMsgWriter ← BufferWriter.writeSlice genesisBlockHash sigMsgWriter;
  sigMsgWriter ← BufferWriter.writeSlice genesisBlockHash sigMsgWriter;
  sigMsgWriter ← BufferWriter.writeUInt8 hashType sigMsgWriter;
  sigMsgWriter ← BufferWriter.writeInt32 (version tx) sigMsgWriter;
  sigMsgWriter ← BufferWriter.writeUInt32 (locktime tx) sigMsgWriter;
  sigMsgWriter ←
    (if negb isAnyoneCanPay then
       w ← BufferWriter.writeSlice hashOutpointsFlags sigMsgWriter;
       w ← BufferWriter.writeSlice hashPrevouts w;
       w ← BufferWriter.writeSlice hashSpentAssetsAmounts w;
       w ← BufferWriter.writeSlice hashScriptPubKeys w;
       w ← BufferWriter.writeSlice hashSequences w;
       w ← BufferWriter.writeSlice hashIssuances w;
       BufferWriter.writeSlice hashIssuancesProofs w
     else Ok sigMsgWriter);
  sigMsgWriter ←
    (if negb (isNone || isSingle) then
       w ← BufferWriter.writeSlice hashOutputs sigMsgWriter;
       BufferWriter.writeSlice hashOutputsWitnesses w
     else Ok sigMsgWriter);
  sigMsgWriter ← BufferWriter.writeUInt8 spendType sigMsgWriter;
  sigMsgWriter ←
    (if isAnyoneCanPay then
       input ← element (ins tx) inIndex;
       w ← BufferWriter.writeUInt8 (getInputFlag input) sigMsgWriter;
       w ← BufferWriter.writeSlice (Input.hash input) w;
       w ← BufferWriter.writeUInt32 (Input.index input) w;
       pav ← element prevoutAssetsValues inIndex;
       w ← BufferWriter.writeSlice (AssetValue.asset pav) w;
       w ← BufferWriter.writeSlice (AssetValue.value pav) w;
       prevOutScript ← element prevOutScripts inIndex;
       w ← BufferWriter.writeVarSlice prevOutScript w;
       w ← BufferWriter.writeUInt32 (Input.sequence input) w;
       match Input.issuance input with
       | Some issuance =>
           w ← write_issuance_or_zero input w;
           bufferWriter ←
             BufferWriter.writeVarSlice (Input.issuanceRangeProof input)
               (BufferWriter.withCapacity
                  (varSliceSize (Input.issuanceRangeProof input) +
                   varSliceSize (Input.inflationRangeProof input)));
           bufferWriter ←
             BufferWriter.writeVarSlice (Input.inflationRangeProof input)
               bufferWriter;
           let hashIssuance := sha256 (BufferWriter.end_ bufferWriter) in
           BufferWriter.writeSlice hashIssuance w
       | None => BufferWriter.writeSlice [x00] w
       end
     else BufferWriter.writeUInt32 inIndex sigMsgWriter);
  sigMsgWriter ←
    match annex with
    | Some annex =>
        bufferWriter ←
          BufferWriter.writeVarSlice annex
            (BufferWriter.withCapacity (varSliceSize annex));
        BufferWriter.writeSlice (sha256 (BufferWriter.end_ bufferWriter))
          sigMsgWriter
    | None => Ok sigMsgWriter
    end;
  sigMsgWriter ←
    (if isSingle then
       w ← BufferWriter.writeSlice hashOutputs sigMsgWriter;
       BufferWriter.writeSlice hashOutputsWitnesses w
     else Ok sigMsgWriter);
  sigMsgWriter ←
    match leafHash with
    | Some leafHash =>
        w ← BufferWriter.writeSlice leafHash sigMsgWriter;
        w ← BufferWriter.writeUInt8 0 w;
        BufferWriter.writeUInt32 0xffffffff w
    | None => Ok sigMsgWriter
    end;
  Ok (taggedHash "TapSighash/elements"%string (BufferWriter.end_ sigMsgWriter)).

(** [getHash(forWitness?)]. *)
Definition getHash (tx : Transaction) (forWitness : bool) : result Buffer :=
  coinbase ← (if forWitness then isCoinbase tx else Ok false);
  if (coinbase : bool) then Ok (Buffer_alloc 32 x00)
  else
    '(buffer, _) ← __toBuffer garbage tx None None forWitness true false;
    Ok (hash256 buffer).

End SignatureHashes.

(** ** Wire layout and well-formed transactions *)

(** The byte layout of section 4.3, piece by piece. *)
Definition wire_issuance (i : Issuance.t) : Buffer :=
  Issuance.assetBlindingNonce i ++ Issuance.assetEntropy i ++
  Issuance.assetAmount i ++ Issuance.tokenAmount i.

Definition wire_in (txIn : Input.t) : Buffer :=
  Input.hash txIn ++ le_bytes 4 (wire_prevIndex txIn) ++
  varslice (Input.script txIn) ++ le_bytes 4 (Input.sequence txIn) ++
  from_option wire_issuance [] (Input.issuance txIn).

(** An output as it is stored, and an output with the value replaced by
    one zero byte and eight zero bytes put before the script. *)
Definition wire_out (txOut : Output.t) : Buffer :=
  Output.asset txOut ++ Output.value txOut ++ Output.nonce txOut ++
  varslice (Output.script txOut).
Definition wire_out_zero_value (txOut : Output.t) : Buffer :=
  Output.asset txOut ++ [x00] ++ Output.nonce txOut ++ replicate 8 x00 ++
  varslice (Output.script txOut).

Definition wire_in_fields (txIn : Input.t) : Buffer :=
  varslice (Input.issuanceRangeProof txIn) ++
  varslice (Input.inflationRangeProof txIn) ++
  vector (Input.witness txIn) ++ vector (Input.peginWitness txIn).

Definition wire_out_fields (txOut : Output.t) : Buffer :=
  varslice (Output.surjectionProof txOut) ++
  varslice (Output.rangeProof txOut).

Definition wire_suffix (tx : Transaction) : Buffer :=
  concat (wire_in_fields <$> ins tx) ++ concat (wire_out_fields <$> outs tx).

(** Everything [__toBuffer] writes, in order. *)
Definition wire (tx : Transaction)
    (_ALLOW_WITNESS forceZeroFlag forSignature : bool) : Buffer :=
  let hw := _ALLOW_WITNESS && hasWitnesses tx in
  le_bytes 4 (version tx) ++
  (if forSignature then []
   else le_bytes 1 (if hw && negb forceZeroFlag then 1 else 0)) ++
  varuint.encode (Z.of_nat (length (ins tx))) ++
  concat (wire_in <$> ins tx) ++
  varuint.encode (Z.of_nat (length (outs tx))) ++
  concat ((if forSignature && hw then wire_out_zero_value else wire_out)
            <$> outs tx) ++
  le_bytes 4 (locktime tx) ++
  (if negb forSignature && hw then wire_suffix tx else []).

(** Field encodings of the data model (sections 3 and 4.2). *)
Definition sized_by (size : Z -> Z) (field : Buffer) : Prop :=
  match field with
  | [] => False
  | prefix :: _ => len field = size (Z_of_byte prefix)
  end.

Definition is_varslice (bs : Buffer) : Prop := len bs < 2 ^ 64.
Definition is_vector (v : list Buffer) : Prop :=
  Z.of_nat (length v) < 2 ^ 64 /\ Forall is_varslice v.

Record wf_issuance (i : Issuance.t) : Prop := {
  wf_assetBlindingNonce : length (Issuance.assetBlindingNonce i) = 32%nat;
  wf_assetEntropy : length (Issuance.assetEntropy i) = 32%nat;
  wf_assetAmount : sized_by BufferReader.valueSize (Issuance.assetAmount i);
  wf_tokenAmount : sized_by BufferReader.valueSize (Issuance.tokenAmount i) }.

(** The members of an input that the body of the transaction carries;
    the outpoint index is left to [wf_index]. *)
Record wf_input_body (txIn : Input.t) : Prop := {
  wf_hash : length (Input.hash txIn) = 32%nat;
  wf_in_script : is_varslice (Input.script txIn);
  wf_sequence : 0 <= Input.sequence txIn < 2 ^ 32;
  wf_in_issuance : from_option wf_issuance True (Input.issuance txIn) }.

(** An input whose two marks and logical index would make up the wire
    index 0xFFFFFFFF, which the reader takes for the sentinel. *)
Definition sentinel_collision (txIn : Input.t) : Prop :=
  Input.index txIn = OUTPOINT_INDEX_MASK /\ Input.issuance txIn <> None /\
  Input.isPegin txIn = true.

(** The invariant of section 3: a logical index below 2^30, or the
    sentinel on an input that has neither an issuance nor the peg-in
    mark. *)
Definition wf_index (txIn : Input.t) : Prop :=
  (0 <= Input.index txIn < 2 ^ 30 /\ ~ sentinel_collision txIn) \/
  (Input.index txIn = MINUS_1 /\ Input.issuance txIn = None /\
   Input.isPegin txIn = false).

Record wf_in_fields (txIn : Input.t) : Prop := {
  wf_witness : is_vector (Input.witness txIn);
  wf_peginWitness : is_vector (Input.peginWitness txIn);
  wf_issuanceRangeProof : is_varslice (Input.issuanceRangeProof txIn);
  wf_inflationRangeProof : is_varslice (Input.inflationRangeProof txIn) }.

Record wf_output (txOut : Output.t) : Prop := {
  wf_asset : sized_by BufferReader.assetSize (Output.asset txOut);
  wf_value : sized_by BufferReader.valueSize (Output.value txOut);
  wf_nonce : sized_by BufferReader.nonceSize (Output.nonce txOut);
  wf_out_script : is_varslice (Output.script txOut);
  wf_rangeProof : is_varslice (Output.rangeProof txOut);
  wf_surjectionProof : is_varslice (Output.surjectionProof txOut) }.

(** An input or output that carries nothing in the witness suffix. *)
Definition no_in_fields (txIn : Input.t) : Prop :=
  Input.witness txIn = [] /\ Input.peginWitness txIn = [] /\
  Input.issuanceRangeProof txIn = [] /\ Input.inflationRangeProof txIn = [].
Definition no_out_fields (txOut : Output.t) : Prop :=
  Output.rangeProof txOut = [] /\ Output.surjectionProof txOut = [].

(** A transaction of the data model whose [flag] is the one the
    serializer derives: 1 with a witness suffix, or 0 with nothing to put
    in a suffix. *)
Record wf_transaction (tx : Transaction) : Prop := {
  wf_version : - 2 ^ 31 <= version tx < 2 ^ 31;
  wf_locktime : 0 <= locktime tx < 2 ^ 32;
  wf_vin : Z.of_nat (length (ins tx)) < 2 ^ 64;
  wf_vout : Z.of_nat (length (outs tx)) < 2 ^ 64;
  wf_ins : Forall (fun txIn => wf_input_body txIn /\ wf_index txIn /\
                               wf_in_fields txIn) (ins tx);
  wf_outs : Forall wf_output (outs tx);
  wf_flag : flag tx = 1 \/
            (flag tx = 0 /\ Forall no_in_fields (ins tx) /\
             Forall no_out_fields (outs tx)) }.

(** One input through the writer and back through the reader: the bytes
    the input loop of [__toBuffer] writes, followed by [rest], handed to
    the input loop of [fromBuffer]; the result is the input read and the
    bytes left unread. *)
Definition input_roundtrip (txIn : Input.t) (rest : Buffer)
    : result (Input.t * Buffer) :=
  w ← __toBuffer_in txIn (BufferWriter.withCapacity 0);
  let buffer := BufferWriter.end_ w ++ rest in
  '(tx, r) ← fromBuffer_vin (new_Transaction, BufferReader.new buffer);
  input ← element (ins tx) 0;
  Ok (input, drop (BufferReader.offset r) buffer).

(** What the input and output loops of [fromBuffer] push for an input and
    an output: everything but the members of the witness suffix. *)
Definition blank_in (txIn : Input.t) : Input.t :=
  Input.set_in_fields EMPTY_WITNESS EMPTY_WITNESS EMPTY_BUFFER EMPTY_BUFFER
    txIn.
Definition blank_out (txOut : Output.t) : Output.t :=
  Output.set_out_fields EMPTY_BUFFER EMPTY_BUFFER txOut.

(** What the input loop of [fromBuffer] pushes when the wire index is the
    sentinel. *)
Definition sentinel_read (txIn : Input.t) : Input.t :=
  Input.mk (Input.hash txIn) MINUS_1 (Input.script txIn)
    (Input.sequence txIn) EMPTY_WITNESS false None EMPTY_WITNESS
    EMPTY_BUFFER EMPTY_BUFFER.

Definition has_issuance (txIn : Input.t) : bool :=
  match Input.issuance txIn with Some _ => true | None => false end.

(** The two places where [__byteLength] counts a constant for members
    whose length the data model fixes at 32 bytes. *)
Definition fixed_sizes (txIn : Input.t) : Prop :=
  length (Input.hash txIn) = 32%nat /\
  from_option (fun i => length (Issuance.assetBlindingNonce i) = 32%nat /\
                        length (Issuance.assetEntropy i) = 32%nat)
              True (Input.issuance txIn).

(** The serialization for a signature (no flag byte, no suffix), with the
    outputs laid out by [enc]; and the body with a flag byte. *)
Definition sig_layout (enc : Output.t -> Buffer) (tx : Transaction) : Buffer :=
  le_bytes 4 (version tx) ++
  varuint.encode (Z.of_nat (length (ins tx))) ++
  concat (wire_in <$> ins tx) ++
  varuint.encode (Z.of_nat (length (outs tx))) ++
  concat (enc <$> outs tx) ++
  le_bytes 4 (locktime tx).

Definition body_layout (flagByte : byte) (tx : Transaction) : Buffer :=
  le_bytes 4 (version tx) ++ [flagByte] ++
  varuint.encode (Z.of_nat (length (ins tx))) ++
  concat (wire_in <$> ins tx) ++
  varuint.encode (Z.of_nat (length (outs tx))) ++
  concat (wire_out <$> outs tx) ++
  le_bytes 4 (locktime tx).

(** When [addInput] accepts the issuance argument: the index is the
    sentinel, or its issuance bit is clear, or the issuance is there and
    passes [validateIssuance]. *)
Definition issuance_accepted (index : Z) (issuance : option Issuance.t)
    : Prop :=
  index = MINUS_1 \/ js_and index OUTPOINT_ISSUANCE_FLAG = 0 \/
  exists i, issuance = Some i /\
    validateIssuance (Issuance.assetBlindingNonce i) (Issuance.assetEntropy i)
      (Issuance.assetAmount i) (Issuance.tokenAmount i) = Ok true.

(** A writer whose offset lies within its buffer; an operation that
    behaves as one [writeSlice] of [bs]; the two return forms of
    [__toBuffer]. *)
Definition writer_wf (w : BufferWriter.t) : Prop :=
  (BufferWriter.offset w <= length (BufferWriter.buffer w))%nat.

Definition emits (m : BufferWriter.t -> result BufferWriter.t) (bs : Buffer)
    : Prop :=
  forall w, writer_wf w -> m w = BufferWriter.writeSlice bs w.

Definition toBuffer_result (initialOffset : option nat) (w : BufferWriter.t)
    : result (Buffer * Buffer) :=
  let buffer := BufferWriter.buffer w in
  match initialOffset with
  | Some o => Ok (take (BufferWriter.offset w - o) (drop o buffer), buffer)
  | None => Ok (buffer, buffer)
  end.

(** A read that, wherever [bs] lies at the cursor, returns [a] and moves
    the cursor past [bs]. *)
Definition decodes {A} (m : BufferReader.t -> result (A * BufferReader.t))
    (bs : Buffer) (a : A) : Prop :=
  forall buf off rest,
    (off <= length buf)%nat -> drop off buf = bs ++ rest ->
    m (BufferReader.mk buf off) =
    Ok (a, BufferReader.mk buf (off + length bs)).

(** The transaction that [hashForSignature] serializes when the hash type
    keeps all outputs and all inputs. *)
Definition signed_view (ourScript : Buffer) (inIndex : nat)
    (tx : Transaction) : Transaction :=
  set_ins (alter (Input.set_script ourScript) inIndex
             (Input.set_script EMPTY_BUFFER <$> ins tx)) tx.

(** ** Sample values *)

Definition garbage0 : nat -> byte := fun _ => xaa.

Definition example_issuance : Issuance.t :=
  Issuance.mk (replicate 32 x01) (replicate 32 x02) [x00]
    (x01 :: replicate 8 x09).
Definition example_input : Input.t :=
  Input.mk (replicate 32 x11) 5 [x51] 7 [[x01; x02]] true
    (Some example_issuance) [] [] [].
Definition example_output : Output.t :=
  Output.mk [x51; x52] (x01 :: replicate 8 x05) (x01 :: replicate 32 x07)
    [x00] [] [].
Definition example_tx : Transaction :=
  mkTransaction 2 9 1 [example_input] [example_output].

(** ** The object store: what [clone] shares and what it copies *)

(** [hashForSignature] edits the clone of the transaction in place, and
    the clone's inputs and outputs hold the very buffers of the original.
    This part of the embedding keeps the objects in a store and the
    members as references, so that an assignment through one reference is
    seen through every other. *)
Abbreviation loc := positive.

Module RefInput.
Record t : Type := mk {
  hash : loc;
  index : Z;
  script : loc;
  sequence : Z;
  witness : loc;
  isPegin : bool;
  issuance : option loc;
  peginWitness : loc;
  issuanceRangeProof : loc;
  inflationRangeProof : loc }.

Definition set_script (s : loc) (i : t) : t :=
  mk (hash i) (index i) s (sequence i) (witness i) (isPegin i)
     (issuance i) (peginWitness i) (issuanceRangeProof i)
     (inflationRangeProof i).
Definition set_sequence (n : Z) (i : t) : t :=
  mk (hash i) (index i) (script i) n (witness i) (isPegin i)
     (issuance i) (peginWitness i) (issuanceRangeProof i)
     (inflationRangeProof i).
End RefInput.

(** An output object; [BLANK_OUTPUT] is one without the members [value],
    [rangeProof] and [surjectionProof]. *)
Module RefOutput.
Record t : Type := mk {
  script : loc;
  value : option loc;
  asset : loc;
  nonce : loc;
  rangeProof : option loc;
  surjectionProof : option loc }.
End RefOutput.

Module RefTransaction.
Record t : Type := mk {
  version : Z;
  locktime : Z;
  flag : Z;
  ins : loc;
  outs : loc }.

Definition set_version (v : Z) (tx : t) : t :=
  mk v (locktime tx) (flag tx) (ins tx) (outs tx).
Definition set_locktime (v : Z) (tx : t) : t :=
  mk (version tx) v (flag tx) (ins tx) (outs tx).
Definition set_flag (v : Z) (tx : t) : t :=
  mk (version tx) (locktime tx) v (ins tx) (outs tx).
Definition set_ins (v : loc) (tx : t) : t :=
  mk (version tx) (locktime tx) (flag tx) v (outs tx).
Definition set_outs (v : loc) (tx : t) : t :=
  mk (version tx) (locktime tx) (flag tx) (ins tx) v.
End RefTransaction.

(** The objects of the store.  Arrays carry the element type that the
    source declares for them ([Buffer[]], [Input[]], [Output[]]). *)
Inductive HeapObject : Type :=
  | HBuffer (bytes : Buffer)
  | HBuffers (elements : list loc)
  | HIssuance (assetBlindingNonce assetEntropy assetAmount tokenAmount : loc)
  | HInput (txIn : RefInput.t)
  | HInputs (elements : list loc)
  | HOutput (txOut : RefOutput.t)
  | HOutputs (elements : list loc)
  | HTransaction (tx : RefTransaction.t).

(** A computation on the store: the store it leaves is there whether it
    returns or throws. *)
Definition M (A : Type) : Type :=
  gmap loc HeapObject -> result A * gmap loc HeapObject.

Global Instance M_ret : MRet M := fun A a h => (Ok a, h).
Global Instance M_bind : MBind M :=
  fun A B k m h =>
    match m h with
    | (Ok a, h') => k a h'
    | (Err e, h') => (Err e, h')
    end.

Definition throw {A} (e : Error) : M A := fun h => (Err e, h).
Definition lift {A} (r : result A) : M A := fun h => (r, h).

(** A new object, a member read or element read, an assignment. *)
Definition alloc (o : HeapObject) : M loc :=
  fun h => let l := fresh (dom h) in (Ok l, <[l := o]> h).
Definition load (l : loc) : M HeapObject :=
  fun h => match h !! l with
           | Some o => (Ok o, h)
           | None => (Err JsTypeError, h)
           end.
Definition store (l : loc) (o : HeapObject) : M unit :=
  fun h => (Ok tt, <[l := o]> h).

Definition load_Buffer (l : loc) : M Buffer :=
  o ← load l; match o with HBuffer b => mret b | _ => throw JsTypeError end.
Definition load_Issuance (l : loc) : M (loc * loc * loc * loc) :=
  o ← load l;
  match o with
  | HIssuance a b c d => mret (a, b, c, d)
  | _ => throw JsTypeError
  end.
Definition load_Input (l : loc) : M RefInput.t :=
  o ← load l; match o with HInput i => mret i | _ => throw JsTypeError end.
Definition load_Inputs (l : loc) : M (list loc) :=
  o ← load l; match o with HInputs e => mret e | _ => throw JsTypeError end.
Definition load_Output (l : loc) : M RefOutput.t :=
  o ← load l; match o with HOutput i => mret i | _ => throw JsTypeError end.
Definition load_Outputs (l : loc) : M (list loc) :=
  o ← load l; match o with HOutputs e => mret e | _ => throw JsTypeError end.
Definition load_Transaction (l : loc) : M RefTransaction.t :=
  o ← load l;
  match o with HTransaction t => mret t | _ => throw JsTypeError end.

(** [xs.map(f)] and [xs.forEach((x, i) => f)] on the store. *)
Fixpoint h_map {A B} (f : A -> M B) (xs : list A) : M (list B) :=
  match xs with
  | [] => mret []
  | x :: xs' => y ← f x; ys ← h_map f xs'; mret (y :: ys)
  end.

Fixpoint h_forEach {A} (f : nat -> A -> M unit) (i : nat) (xs : list A)
    : M unit :=
  match xs with
  | [] => mret tt
  | x :: xs' => _ ← f i x; h_forEach f (S i) xs'
  end.

Fixpoint h_for_range (n : nat) (i : nat) (body : nat -> M unit) : M unit :=
  match n with
  | O => mret tt
  | S n' => _ ← body i; h_for_range n' (S i) body
  end.

(** [tx.member = v] for a transaction object. *)
Definition update_Transaction (l : loc)
    (f : RefTransaction.t -> RefTransaction.t) : M unit :=
  t ← load_Transaction l; store l (HTransaction (f t)).
Definition update_Input (l : loc) (f : RefInput.t -> RefInput.t) : M unit :=
  i ← load_Input l; store l (HInput (f i)).

(** [new Transaction()]: the field initializers make two new arrays. *)
Definition h_new_Transaction : M loc :=
  txIns ← alloc (HInputs []);
  txOuts ← alloc (HOutputs []);
  alloc (HTransaction (RefTransaction.mk 1 0 0 txIns txOuts)).

(** [clone()]: a new transaction, new arrays, a new object for every input
    and output; the members of those objects are the references of the
    originals. *)
Definition h_clone (this : loc) : M loc :=
  newTx ← h_new_Transaction;
  tx ← load_Transaction this;
  _ ← update_Transaction newTx
        (RefTransaction.set_version (RefTransaction.version tx));
  _ ← update_Transaction newTx
        (RefTransaction.set_locktime (RefTransaction.locktime tx));
  _ ← update_Transaction newTx
        (RefTransaction.set_flag (RefTransaction.flag tx));
  txIns ← load_Inputs (RefTransaction.ins tx);
  newIns ← h_map (fun l => txIn ← load_Input l; alloc (HInput txIn)) txIns;
  newIns ← alloc (HInputs newIns);
  _ ← update_Transaction newTx (RefTransaction.set_ins newIns);
  txOuts ← load_Outputs (RefTransaction.outs tx);
  newOuts ← h_map (fun l => txOut ← load_Output l; alloc (HOutput txOut))
              txOuts;
  newOuts ← alloc (HOutputs newOuts);
  _ ← update_Transaction newTx (RefTransaction.set_outs newOuts);
  mret newTx.

(** The module-level constants that [hashForSignature] hands out or puts
    into the clone. *)
Record Globals : Type := mkGlobals {
  g_EMPTY_BUFFER : loc;
  g_ONE : loc;
  g_BLANK_OUTPUT : loc }.

(** What the serializer reads of an input and of an output when it is
    called with [_ALLOW_WITNESS] unset: the witness members are never
    looked at, and stand empty in the value read. *)
Definition view_input (l : loc) : M Input.t :=
  txIn ← load_Input l;
  hash ← load_Buffer (RefInput.hash txIn);
  script ← load_Buffer (RefInput.script txIn);
  issuance ←
    match RefInput.issuance txIn with
    | Some li =>
        '(a, b, c, d) ← load_Issuance li;
        a ← load_Buffer a; b ← load_Buffer b;
        c ← load_Buffer c; d ← load_Buffer d;
        mret (Some (Issuance.mk a b c d))
    | None => mret None
    end;
  mret (Input.mk hash (RefInput.index txIn) script (RefInput.sequence txIn)
          [] (RefInput.isPegin txIn) issuance [] [] []).

Definition view_output (l : loc) : M Output.t :=
  txOut ← load_Output l;
  asset ← load_Buffer (RefOutput.asset txOut);
  value ← match RefOutput.value txOut with
          | Some lv => load_Buffer lv
          | None => throw JsTypeError
          end;
  nonce ← load_Buffer (RefOutput.nonce txOut);
  script ← load_Buffer (RefOutput.script txOut);
  mret (Output.mk script value asset nonce [] []).

Definition view_transaction (l : loc) : M Transaction :=
  t ← load_Transaction l;
  txIns ← load_Inputs (RefTransaction.ins t);
  txIns ← h_map view_input txIns;
  txOuts ← load_Outputs (RefTransaction.outs t);
  txOuts ← h_map view_output txOuts;
  mret (mkTransaction (RefTransaction.version t) (RefTransaction.locktime t)
          (RefTransaction.flag t) txIns txOuts).

Section HeapSignatureHash.

Variable G : Globals.
Variable garbage : nat -> byte.
Variable hash256 : Buffer -> Buffer.
Variable decompile : Buffer -> option (list Chunk).
Variable compile : list Chunk -> Buffer.

(** [txTmp.ins.forEach((input, i) => { if (i === inIndex) return;
    input.sequence = 0; })]. *)
Definition h_zero_other_sequences (txTmp : loc) (inIndex : Z) : M unit :=
  t ← load_Transaction txTmp;
  txIns ← load_Inputs (RefTransaction.ins t);
  h_forEach (fun i input =>
               if Z.of_nat i =? inIndex then mret tt
               else update_Input input (RefInput.set_sequence 0))
            0 txIns.

(** The serialization and hashing at the end of [hashForSignature]. *)
Definition h_serialize_and_hash (txTmp : loc) (hashType : Z) : M loc :=
  tx ← view_transaction txTmp;
  buffer ← alloc (HBuffer (Buffer_allocUnsafe garbage
                             (__byteLength tx false true + 4)));
  b ← load_Buffer buffer;
  b ← lift (Buffer_writeInt32LE b hashType (len b - 4));
  _ ← store buffer (HBuffer b);
  b ← load_Buffer buffer;
  '(_, b) ←
    lift (__toBuffer garbage tx (Some b) (Some 0%nat) false true true);
  _ ← store buffer (HBuffer b);
  b ← load_Buffer buffer;
  alloc (HBuffer (hash256 b)).

(** [hashForSignature(inIndex, prevOutScript, hashType)] on the store;
    the result is a reference to the digest, or to the shared [ONE]. *)
Definition h_hashForSignature (this : loc) (inIndex : Z)
    (prevOutScript : loc) (hashType : Z) : M loc :=
  _ ← lift (typeforce (isUInt32 inIndex));
  prevOutScript ← load_Buffer prevOutScript;
  tx ← load_Transaction this;
  thisIns ← load_Inputs (RefTransaction.ins tx);
  if Z.of_nat (length thisIns) <=? inIndex then mret (g_ONE G) else
  chunks ←
    lift (match decompile prevOutScript with
          | Some chunks => Ok chunks
          | None => Err JsTypeError
          end);
  ourScript ← alloc (HBuffer
                       (compile (filter (fun x => not_codeseparator x = true)
                                   chunks)));
  txTmp ← h_clone this;
  let continue : M loc :=
    _ ← (if truthy (js_and hashType SIGHASH_ANYONECANPAY) then
           t ← load_Transaction txTmp;
           txIns ← load_Inputs (RefTransaction.ins t);
           input ← lift (element txIns inIndex);
           newIns ← alloc (HInputs [input]);
           _ ← update_Transaction txTmp (RefTransaction.set_ins newIns);
           t ← load_Transaction txTmp;
           txIns ← load_Inputs (RefTransaction.ins t);
           input ← lift (element txIns 0);
           update_Input input (RefInput.set_script ourScript)
         else
           t ← load_Transaction txTmp;
           txIns ← load_Inputs (RefTransaction.ins t);
           _ ← h_forEach (fun _ input =>
                            update_Input input
                              (RefInput.set_script (g_EMPTY_BUFFER G)))
                 0 txIns;
           t ← load_Transaction txTmp;
           txIns ← load_Inputs (RefTransaction.ins t);
           input ← lift (element txIns inIndex);
           update_Input input (RefInput.set_script ourScript));
    h_serialize_and_hash txTmp hashType in
  if js_and hashType 0x1f =? SIGHASH_NONE then
    newOuts ← alloc (HOutputs []);
    _ ← update_Transaction txTmp (RefTransaction.set_outs newOuts);
    _ ← h_zero_other_sequences txTmp inIndex;
    continue
  else if js_and hashType 0x1f =? SIGHASH_SINGLE then
    thisOuts ← load_Outputs (RefTransaction.outs tx);
    if Z.of_nat (length thisOuts) <=? inIndex then mret (g_ONE G) else
    t ← load_Transaction txTmp;
    txOuts ← load_Outputs (RefTransaction.outs t);
    _ ← store (RefTransaction.outs t)
          (HOutputs (take (Z.to_nat (inIndex + 1)) txOuts));
    _ ← h_for_range (Z.to_nat inIndex) 0
          (fun i =>
             t ← load_Transaction txTmp;
             txOuts ← load_Outputs (RefTransaction.outs t);
             store (RefTransaction.outs t)
               (HOutputs (<[i := g_BLANK_OUTPUT G]> txOuts)));
    _ ← h_zero_other_sequences txTmp inIndex;
    continue
  else continue.

End HeapSignatureHash.

(** A location that the store [h0] does not hold; an object that a
    location new since [h0] may hold: a transaction whose two arrays are
    new, an array of inputs whose elements are new, anything else. *)
Definition fresh_in (h0 : gmap loc HeapObject) (l : loc) : Prop :=
  h0 !! l = None.

Definition private_ok (h0 : gmap loc HeapObject) (o : HeapObject) : Prop :=
  match o with
  | HTransaction t =>
      fresh_in h0 (RefTransaction.ins t) /\ fresh_in h0 (RefTransaction.outs t)
  | HInputs elements => Forall (fresh_in h0) elements
  | _ => True
  end.

(** The store [h] keeps every object of [h0] as it was, and what it holds
    at the new locations is [private_ok]. *)
Definition Priv (h0 h : gmap loc HeapObject) : Prop :=
  h0 ⊆ h /\
  forall l o, fresh_in h0 l -> h !! l = Some o -> private_ok h0 o.

(** A computation that, started in such a store, ends in such a store,
    and whose result satisfies [post] when it returns. *)
Definition safe (h0 : gmap loc HeapObject) {A} (m : M A) (post : A -> Prop)
    : Prop :=
  forall h, Priv h0 h ->
    Priv h0 (m h).2 /\ forall a, (m h).1 = Ok a -> post a.

Definition load_Buffers (l : loc) : M (list loc) :=
  o ← load l; match o with HBuffers e => mret e | _ => throw JsTypeError end.

(** The value of a transaction object: every member read down to the
    bytes; the inverse of [h_put_Transaction]. *)
Definition h_get_Buffers (l : loc) : M (list Buffer) :=
  elements ← load_Buffers l; h_map load_Buffer elements.

Definition h_get_Input (l : loc) : M Input.t :=
  txIn ← load_Input l;
  hash ← load_Buffer (RefInput.hash txIn);
  script ← load_Buffer (RefInput.script txIn);
  witness ← h_get_Buffers (RefInput.witness txIn);
  issuance ←
    match RefInput.issuance txIn with
    | Some li =>
        '(a, b, c, d) ← load_Issuance li;
        a ← load_Buffer a; b ← load_Buffer b;
        c ← load_Buffer c; d ← load_Buffer d;
        mret (Some (Issuance.mk a b c d))
    | None => mret None
    end;
  peginWitness ← h_get_Buffers (RefInput.peginWitness txIn);
  issuanceRangeProof ← load_Buffer (RefInput.issuanceRangeProof txIn);
  inflationRangeProof ← load_Buffer (RefInput.inflationRangeProof txIn);
  mret (Input.mk hash (RefInput.index txIn) script (RefInput.sequence txIn)
          witness (RefInput.isPegin txIn) issuance peginWitness
          issuanceRangeProof inflationRangeProof).

Definition load_member (l : option loc) : M Buffer :=
  match l with Some l => load_Buffer l | None => throw JsTypeError end.

Definition h_get_Output (l : loc) : M Output.t :=
  txOut ← load_Output l;
  script ← load_Buffer (RefOutput.script txOut);
  value ← load_member (RefOutput.value txOut);
  asset ← load_Buffer (RefOutput.asset txOut);
  nonce ← load_Buffer (RefOutput.nonce txOut);
  rangeProof ← load_member (RefOutput.rangeProof txOut);
  surjectionProof ← load_member (RefOutput.surjectionProof txOut);
  mret (Output.mk script value asset nonce rangeProof surjectionProof).

Definition h_get_Transaction (l : loc) : M Transaction :=
  t ← load_Transaction l;
  txIns ← load_Inputs (RefTransaction.ins t);
  txIns ← h_map h_get_Input txIns;
  txOuts ← load_Outputs (RefTransaction.outs t);
  txOuts ← h_map h_get_Output txOuts;
  mret (mkTransaction (RefTransaction.version t) (RefTransaction.locktime t)
          (RefTransaction.flag t) txIns txOuts).

(** A computation that only reads: when it returns, the store is as it
    was, and it returns the same in every store that holds at least the
    same objects. *)
Definition reads {A} (m : M A) : Prop :=
  forall h a, (m h).1 = Ok a ->
    (m h).2 = h /\ forall h', h ⊆ h' -> m h' = (Ok a, h').

(** Putting a value of the data model into the store, every buffer and
    array as an object of its own. *)
Definition h_put_Buffers (v : list Buffer) : M loc :=
  elements ← h_map (fun b => alloc (HBuffer b)) v; alloc (HBuffers elements).

Definition h_put_Input (txIn : Input.t) : M loc :=
  hash ← alloc (HBuffer (Input.hash txIn));
  script ← alloc (HBuffer (Input.script txIn));
  witness ← h_put_Buffers (Input.witness txIn);
  issuance ←
    match Input.issuance txIn with
    | Some i =>
        a ← alloc (HBuffer (Issuance.assetBlindingNonce i));
        b ← alloc (HBuffer (Issuance.assetEntropy i));
        c ← alloc (HBuffer (Issuance.assetAmount i));
        d ← alloc (HBuffer (Issuance.tokenAmount i));
        l ← alloc (HIssuance a b c d);
        mret (Some l)
    | None => mret None
    end;
  peginWitness ← h_put_Buffers (Input.peginWitness txIn);
  issuanceRangeProof ← alloc (HBuffer (Input.issuanceRangeProof txIn));
  inflationRangeProof ← alloc (HBuffer (Input.inflationRangeProof txIn));
  alloc (HInput (RefInput.mk hash (Input.index txIn) script
                   (Input.sequence txIn) witness (Input.isPegin txIn)
                   issuance peginWitness issuanceRangeProof
                   inflationRangeProof)).

Definition h_put_Output (txOut : Output.t) : M loc :=
  script ← alloc (HBuffer (Output.script txOut));
  value ← alloc (HBuffer (Output.value txOut));
  asset ← alloc (HBuffer (Output.asset txOut));
  nonce ← alloc (HBuffer (Output.nonce txOut));
  rangeProof ← alloc (HBuffer (Output.rangeProof txOut));
  surjectionProof ← alloc (HBuffer (Output.surjectionProof txOut));
  alloc (HOutput (RefOutput.mk script (Some value) asset nonce
                    (Some rangeProof) (Some surjectionProof))).

Definition h_put_Transaction (tx : Transaction) : M loc :=
  txIns ← h_map h_put_Input (ins tx);
  txIns ← alloc (HInputs txIns);
  txOuts ← h_map h_put_Output (outs tx);
  txOuts ← alloc (HOutputs txOuts);
  alloc (HTransaction (RefTransaction.mk (version tx) (locktime tx) (flag tx)
                         txIns txOuts)).

(** The module-level constants; [BLANK_OUTPUT] has no [value]. *)
Definition h_globals : M Globals :=
  empty ← alloc (HBuffer EMPTY_BUFFER);
  zero ← alloc (HBuffer ZERO);
  one ← alloc (HBuffer ONE);
  blank ← alloc (HOutput (RefOutput.mk empty None zero zero None None));
  mret (mkGlobals empty one blank).

(** A sample of the two external functions on scripts: a byte from 0x01
    to 0x4b pushes that many of the bytes behind it, and the script does
    not decompile when they are not there; every other byte is an
    opcode. *)
Fixpoint sample_decompile_from (fuel : nat) (b : Buffer)
    : option (list Chunk) :=
  match fuel, b with
  | _, [] => Some []
  | O, _ :: _ => None
  | S fuel, x :: rest =>
      let n := Z_of_byte x in
      if (1 <=? n) && (n <=? 0x4b) then
        if (Z.of_nat (length rest) <? n) then None
        else
          chunks ← sample_decompile_from fuel (drop (Z.to_nat n) rest);
          Some (Push (take (Z.to_nat n) rest) :: chunks)
      else
        chunks ← sample_decompile_from fuel rest;
        Some (Op n :: chunks)
  end.
Definition sample_decompile (b : Buffer) : option (list Chunk) :=
  sample_decompile_from (length b) b.
Definition sample_compile (cs : list Chunk) : Buffer :=
  mjoin ((fun c => match c with
                   | Op n => [byte_of_Z n]
                   | Push b => byte_of_Z (len b) :: b
                   end) <$> cs).

Definition two_input_tx : Transaction :=
  mkTransaction 2 9 0
    [Input.mk (replicate 32 x11) 0 [x51] 7 [] false None [] [] [];
     Input.mk (replicate 32 x22) 1 [x52] 8 [] false None [] [] []]
    [Output.mk [x51; x52] (x01 :: replicate 8 x05) (x01 :: replicate 32 x07)
       [x00] [] []].

(** A store with the constants, the sample transaction and a script; and
    the run of the legacy sighash of input 0 from it. *)
Definition sample_store : result (Globals * loc * loc) * gmap loc HeapObject :=
  (G ← h_globals;
   this ← h_put_Transaction two_input_tx;
   script ← alloc (HBuffer [x51; xab; x52]);
   mret (G, this, script)) ∅.

Definition sample_run (hashType : Z) : result Buffer * gmap loc HeapObject :=
  match sample_store with
  | (Ok (G, this, script), h) =>
      (digest ← h_hashForSignature G garbage0 (fun b => b) sample_decompile
                  sample_compile this 0 script hashType;
       load_Buffer digest) h
  | (Err e, h) => (Err e, h)
  end.

(** A transaction built with [addInput] and [setWitness]: its [flag] is
    still 0 although an input has a witness. *)
Definition flag_unset_tx : Transaction :=
  mkTransaction 1 0 0
    [Input.mk (replicate 32 x11) 0 [] DEFAULT_SEQUENCE [[x01]] false None
       [] [] []]
    [].

(** An input at the last logical index with both marks. *)
Definition collision_input : Input.t :=
  Input.mk (replicate 32 x11) 0x3fffffff [] 0 [] true (Some example_issuance)
    [] [] [].

Definition coinbase_tx : Transaction :=
  mkTransaction 2 0 0
    [Input.mk (replicate 32 x00) MINUS_1 [x01; x02] DEFAULT_SEQUENCE []
       false None [] [] []]
    [example_output].

(** The sample transaction as [hashForSignature] serializes it for input
    0 and an empty previous script. *)
Definition example_tx_for_signature : Transaction :=
  set_ins [Input.set_script [] example_input] example_tx.

(** The constants, the transaction and the script of [sample_store]. *)
Definition sample_globals : Globals := mkGlobals 1 3 4.
Definition sample_this : loc := 28%positive.
Definition sample_script : loc := 29%positive.

(** The input object at a location, if there is one. *)
Definition input_at (h : gmap loc HeapObject) (l : loc) : option RefInput.t :=
  match h !! l with Some (HInput i) => Some i | _ => None end.

(** ** The SegWit v0 digest, and what the serializer and the digests read *)

(** What a serialization without witnesses reads of a transaction: the
    version, the locktime, and the inputs and outputs without the members
    of the witness suffix. *)
Definition stripped (tx : Transaction) : Transaction :=
  mkTransaction (version tx) (locktime tx) 0 (blank_in <$> ins tx)
    (blank_out <$> outs tx).

(** The data model of section 3 without its last invariant, the one that
    ties [flag] to the presence of a witness suffix. *)
Record data_model (tx : Transaction) : Prop := {
  dm_version : - 2 ^ 31 <= version tx < 2 ^ 31;
  dm_locktime : 0 <= locktime tx < 2 ^ 32;
  dm_vin : Z.of_nat (length (ins tx)) < 2 ^ 64;
  dm_vout : Z.of_nat (length (outs tx)) < 2 ^ 64;
  dm_ins : Forall (fun txIn => wf_input_body txIn /\ wf_index txIn /\
                               wf_in_fields txIn) (ins tx);
  dm_outs : Forall wf_output (outs tx) }.

(** What is left of a transaction after [toBuffer] and [fromBuffer]: the
    [flag] is the one the serializer derives, and without witnesses the
    members of the suffix are gone. *)
Definition normalized (tx : Transaction) : Transaction :=
  if hasWitnesses tx then set_flag 1 tx else stripped tx.

(** The three stages of [hashForSignature] after the clone is made: the
    input mode, the outputs as the serializer finds them, and the
    serialization with the hash type behind it. *)
Definition sighash_inputs (ourScript : Buffer) (inIndex hashType : Z)
    (tmpIns : list Input.t) : result (list Input.t) :=
  if truthy (js_and hashType SIGHASH_ANYONECANPAY) then
    input ← element tmpIns inIndex;
    Ok [Input.set_script ourScript input]
  else
    let tmpIns := Input.set_script EMPTY_BUFFER <$> tmpIns in
    input ← element tmpIns inIndex;
    Ok (<[Z.to_nat inIndex := Input.set_script ourScript input]> tmpIns).

Definition sighash_serialize (garbage : nat -> byte)
    (hash256 : Buffer -> Buffer) (hashType : Z) (txTmp : Transaction)
    : result Buffer :=
  let buffer :=
    Buffer_allocUnsafe garbage (__byteLength txTmp false true + 4) in
  buffer ← Buffer_writeInt32LE buffer hashType (len buffer - 4);
  '(_, buffer) ←
    __toBuffer garbage txTmp (Some buffer) (Some 0%nat) false true true;
  Ok (hash256 buffer).

Definition sighash_continue (garbage : nat -> byte)
    (hash256 : Buffer -> Buffer) (ourScript : Buffer) (inIndex hashType : Z)
    (tx : Transaction) (tmpIns : list Input.t) (tmpOuts : list TmpOut)
    : result Buffer :=
  tmpIns ← sighash_inputs ourScript inIndex hashType tmpIns;
  tmpOuts ← mapM tmp_output tmpOuts;
  sighash_serialize garbage hash256 hashType
    (mkTransaction (version tx) (locktime tx) (flag tx) tmpIns tmpOuts).

(** Two inputs that differ at most in their script and in the members of
    the witness suffix; two outputs that differ at most in their proofs. *)
Definition same_outpoint (x y : Input.t) : Prop :=
  blank_in (Input.set_script [] x) = blank_in (Input.set_script [] y).
Definition same_payment (x y : Output.t) : Prop := blank_out x = blank_out y.

(** Two lists of outputs as the serializer finds them, equal up to the
    proofs. *)
Inductive same_tmp : TmpOut -> TmpOut -> Prop :=
  | same_Kept x y : same_payment x y -> same_tmp (Kept x) (Kept y)
  | same_BLANK : same_tmp BLANK_OUTPUT BLANK_OUTPUT.

(** [hashForWitnessV0(inIndex, prevOutScript, value, hashType)]: the three
    digests over the inputs, the digest over the outputs, and the digest
    of the preimage built around the input at [inIndex]. *)
Definition hashForWitnessV0 (hash256 : Buffer -> Buffer) (tx : Transaction)
    (inIndex : Z) (prevOutScript value : Buffer) (hashType : Z)
    : result Buffer :=
  _ ← typeforce (isUInt32 inIndex && isUInt32 hashType);
  hashPrevouts ←
    (if negb (truthy (js_and hashType SIGHASH_ANYONECANPAY)) then
       prevoutsHashWriter ←
         forEach (fun txIn w =>
                    w ← BufferWriter.writeSlice (Input.hash txIn) w;
                    BufferWriter.writeUInt32 (Input.index txIn) w)
           (ins tx)
           (BufferWriter.withCapacity
              ((32 + 4) * Z.of_nat (length (ins tx))));
       Ok (hash256 (BufferWriter.end_ prevoutsHashWriter))
     else Ok ZERO);
  hashSequence ←
    (if negb (truthy (js_and hashType SIGHASH_ANYONECANPAY)) &&
        negb (js_and hashType 0x1f =? SIGHASH_SINGLE) &&
        negb (js_and hashType 0x1f =? SIGHASH_NONE) then
       sequenceHashWriter ←
         forEach (fun txIn w =>
                    BufferWriter.writeUInt32 (Input.sequence txIn) w)
           (ins tx)
           (BufferWriter.withCapacity (4 * Z.of_nat (length (ins tx))));
       Ok (hash256 (BufferWriter.end_ sequenceHashWriter))
     else Ok ZERO);
  hashIssuances ←
    (if negb (truthy (js_and hashType SIGHASH_ANYONECANPAY)) then
       let sizeOfIssuances :=
         foldl (fun sum txIn =>
                  match Input.issuance txIn with
                  | Some _ => sum + getIssuanceSize txIn
                  | None => sum + 1
                  end) 0 (ins tx) in
       let size :=
         if sizeOfIssuances =? 0 then Z.of_nat (length (ins tx))
         else sizeOfIssuances in
       issuancesHashWriter ←
         forEach write_issuance_or_zero (ins tx)
           (BufferWriter.withCapacity size);
       Ok (hash256 (BufferWriter.end_ issuancesHashWriter))
     else Ok ZERO);
  hashOutputs ←
    (if negb (js_and hashType 0x1f =? SIGHASH_SINGLE) &&
        negb (js_and hashType 0x1f =? SIGHASH_NONE) then
       let txOutsSize :=
         foldl (fun sum output =>
                  sum + len (Output.asset output) +
                  len (Output.value output) + len (Output.nonce output) +
                  varSliceSize (Output.script output)) 0 (outs tx) in
       outputsHashWriter ←
         forEach write_output (outs tx)
           (BufferWriter.withCapacity txOutsSize);
       Ok (hash256 (BufferWriter.end_ outputsHashWriter))
     else if (js_and hashType 0x1f =? SIGHASH_SINGLE) &&
             (inIndex <? Z.of_nat (length (outs tx))) then
       output ← element (outs tx) inIndex;
       let size :=
         len (Output.asset output) + len (Output.value output) +
         len (Output.nonce output) + varSliceSize (Output.script output) in
       outputsHashWriter ←
         write_output output (BufferWriter.withCapacity size);
       Ok (hash256 (BufferWriter.end_ outputsHashWriter))
     else Ok ZERO);
  input ← element (ins tx) inIndex;
  let bufferSize :=
    4 + len hashPrevouts + len hashSequence + len hashIssuances +
    len (Input.hash input) + 4 + varSliceSize prevOutScript + len value +
    4 + len hashOutputs + getIssuanceSize input + 4 + 4 in
  let sigWriter := BufferWriter.withCapacity bufferSize in
  sigWriter ← BufferWriter.writeUInt32 (version tx) sigWriter;
  sigWriter ← BufferWriter.writeSlice hashPrevouts sigWriter;
  sigWriter ← BufferWriter.writeSlice hashSequence sigWriter;
  sigWriter ← BufferWriter.writeSlice hashIssuances sigWriter;
  sigWriter ← BufferWriter.writeSlice (Input.hash input) sigWriter;
  sigWriter ← BufferWriter.writeUInt32 (Input.index input) sigWriter;
  sigWriter ← BufferWriter.writeVarSlice prevOutScript sigWriter;
  sigWriter ← BufferWriter.writeSlice value sigWriter;
  sigWriter ← BufferWriter.writeUInt32 (Input.sequence input) sigWriter;
  sigWriter ←
    match Input.issuance input with
    | Some issuance =>
        w ← BufferWriter.writeSlice
              (Issuance.assetBlindingNonce issuance) sigWriter;
        w ← BufferWriter.writeSlice (Issuance.assetEntropy issuance) w;
        w ← BufferWriter.writeSlice (Issuance.assetAmount issuance) w;
        BufferWriter.writeSlice (Issuance.tokenAmount issuance) w
    | None => Ok sigWriter
    end;
  sigWriter ← BufferWriter.writeSlice hashOutputs sigWriter;
  sigWriter ← BufferWriter.writeUInt32 (locktime tx) sigWriter;
  sigWriter ← BufferWriter.writeUInt32 hashType sigWriter;
  Ok (hash256 (BufferWriter.end_ sigWriter)).

(** What the taproot digest reads of an input: everything but the script
    and the two witness stacks. *)
Definition taproot_view (x : Input.t) : Input.t :=
  Input.set_in_fields [] [] (Input.issuanceRangeProof x)
    (Input.inflationRangeProof x) (Input.set_script [] x).

(** The object at [l'] is new since the store [h] and has the members of
    the object that [h] holds at [l]. *)
Definition copied (h h' : gmap loc HeapObject) (l l' : loc) : Prop :=
  h !! l' = None /\ exists o, h !! l = Some o /\ h' !! l' = Some o.

(** ** More sample values *)

(** The sample transaction with another flag and other witness data. *)
Definition example_tx_rewitnessed : Transaction :=
  mkTransaction 2 9 0
    [Input.mk (replicate 32 x11) 5 [x51] 7 [] true (Some example_issuance)
       [[x03]] [x04] []]
    [Output.mk [x51; x52] (x01 :: replicate 8 x05) (x01 :: replicate 32 x07)
       [x00] [x0a] []].

(** The two-input sample with other input scripts and a witness. *)
Definition two_input_tx_signed : Transaction :=
  mkTransaction 2 9 1
    [Input.mk (replicate 32 x11) 0 [x53; x54] 7 [[x01]] false None [] [] [];
     Input.mk (replicate 32 x22) 1 [] 8 [] false None [[x02]] [] []]
    [Output.mk [x51; x52] (x01 :: replicate 8 x05) (x01 :: replicate 32 x07)
       [x00] [x0b] [x0c]].

(** The two-input sample with another second input. *)
Definition two_input_tx_other : Transaction :=
  mkTransaction 2 9 0
    [Input.mk (replicate 32 x11) 0 [x53] 7 [] false None [] [] [];
     Input.mk (replicate 32 x33) 4 [x52] 1 [] true None [] [] []]
    [Output.mk [x51; x52] (x01 :: replicate 8 x05) (x01 :: replicate 32 x07)
       [x00] [] []].

(** The two-input sample without outputs and with another sequence on
    the second input. *)
Definition two_input_tx_no_outputs : Transaction :=
  mkTransaction 2 9 0
    [Input.mk (replicate 32 x11) 0 [x51] 7 [] false None [] [] [];
     Input.mk (replicate 32 x22) 1 [x52] 99 [] false None [] [] []]
    [].

(** Two inputs and two outputs. *)
Definition two_by_two_tx : Transaction :=
  mkTransaction 2 9 0 (ins two_input_tx) [example_output; example_output].

(** * Properties *)

(** ** Bytes and little-endian integers *)

Lemma Z_of_byte_range (b : byte) : 0 <= Z_of_byte b < 256.
Proof.
  unfold Z_of_byte. pose proof (Byte.to_N_bounded b). lia.
Qed.

Lemma Z_of_byte_of_Z (z : Z) : Z_of_byte (byte_of_Z z) = z mod 256.
Proof.
  unfold Z_of_byte, byte_of_Z.
  pose proof (Z.mod_pos_bound z 256 ltac:(lia)) as Hz.
  destruct (Byte.of_N (Z.to_N (z mod 256))) as [b|] eqn:E; simpl.
  - apply Byte.to_of_N in E. rewrite E. lia.
  - apply Byte.of_N_None_iff in E. lia.
Qed.

Lemma byte_of_Z_of_byte (b : byte) : byte_of_Z (Z_of_byte b) = b.
Proof.
  unfold byte_of_Z. pose proof (Z_of_byte_range b).
  rewrite Z.mod_small by lia. unfold Z_of_byte.
  rewrite N2Z.id, Byte.of_to_N. reflexivity.
Qed.

Lemma length_le_bytes (w : nat) (z : Z) : length (le_bytes w z) = w.
Proof. revert z; induction w; intros; simpl; auto. Qed.

Lemma len_le_bytes (w : nat) (z : Z) : len (le_bytes w z) = Z.of_nat w.
Proof. unfold len. now rewrite length_le_bytes. Qed.

Lemma le_value_le_bytes (w : nat) (z : Z) :
  le_value (le_bytes w z) = z mod 256 ^ Z.of_nat w.
Proof.
  revert z; induction w as [|w IH]; intros z.
  - simpl. now rewrite Z.mod_1_r.
  - cbn [le_bytes le_value]. rewrite Z_of_byte_of_Z, IH.
    rewrite Nat2Z.inj_succ, Z.pow_succ_r by lia.
    rewrite Z.rem_mul_r by lia. lia.
Qed.

Lemma le_value_le_bytes_small (w : nat) (z : Z) :
  0 <= z < 256 ^ Z.of_nat w -> le_value (le_bytes w z) = z.
Proof. intros. rewrite le_value_le_bytes. now apply Z.mod_small. Qed.

Lemma le_bytes_1_byte (b : byte) : le_bytes 1 (Z_of_byte b) = [b].
Proof. simpl. now rewrite byte_of_Z_of_byte. Qed.

Lemma ToInt32_signed (z : Z) :
  - 2 ^ 31 <= z < 2 ^ 31 -> ToInt32 (z mod 2 ^ 32) = z.
Proof.
  intros Hz. unfold ToInt32. rewrite Z.mod_mod by lia.
  destruct (Z.ltb_spec (z mod 2 ^ 32) (2 ^ 31)) as [H|H].
  - destruct (Z.lt_ge_cases z 0) as [Hn|Hn].
    + rewrite <- (Z.mod_add z 1) in H by lia.
      rewrite Z.mod_small in H by lia. lia.
    + rewrite Z.mod_small by lia. reflexivity.
  - destruct (Z.lt_ge_cases z 0) as [Hn|Hn].
    + rewrite <- (Z.mod_add z 1) by lia.
      rewrite Z.mod_small by lia. lia.
    + rewrite Z.mod_small in H by lia. lia.
Qed.

(** ** The writer: every operation is one [writeSlice] of its wire form *)

Lemma writeSlice_wf bs w w' :
  writer_wf w -> BufferWriter.writeSlice bs w = Ok w' -> writer_wf w'.
Proof.
  unfold writer_wf, BufferWriter.writeSlice. intros Hw.
  destruct (BufferWriter.grows w).
  - intros [= <-]. simpl. rewrite length_app. lia.
  - case_match; [|discriminate]. intros [= <-]. simpl.
    apply Nat.leb_le in H.
    rewrite !length_app, length_take, length_drop. lia.
Qed.

Lemma writeSlice_nil w : writer_wf w -> BufferWriter.writeSlice [] w = Ok w.
Proof.
  unfold writer_wf, BufferWriter.writeSlice. intros Hw.
  destruct w as [buf off [|]]; simpl in *.
  - now rewrite app_nil_r, Nat.add_0_r.
  - rewrite Nat.add_0_r. rewrite (proj2 (Nat.leb_le _ _)) by lia.
    now rewrite take_drop.
Qed.

Lemma writeSlice_app a b w :
  writer_wf w ->
  (BufferWriter.writeSlice a w ≫= BufferWriter.writeSlice b) =
  BufferWriter.writeSlice (a ++ b) w.
Proof.
  unfold writer_wf, BufferWriter.writeSlice. intros Hw.
  destruct w as [buf off [|]]; simpl in *.
  - rewrite length_app, <- app_assoc. do 2 f_equal. lia.
  - rewrite length_app.
    destruct (Nat.leb_spec (off + length a) (length buf)) as [Ha|Ha]; simpl.
    + rewrite !length_app, length_take, length_drop.
      replace (off `min` length buf + (length a + (length buf - (off + length a))))%nat
        with (length buf) by lia.
      destruct (Nat.leb_spec (off + length a + length b) (length buf)) as [Hb|Hb].
      * rewrite (proj2 (Nat.leb_le _ _)) by lia. do 2 f_equal; [|lia].
        rewrite take_app_ge by (rewrite length_take; lia).
        rewrite length_take, Nat.min_l by lia.
        replace (off + length a - off)%nat with (length a) by lia.
        rewrite take_app_length.
        rewrite <- !app_assoc. do 3 f_equal.
        rewrite drop_app_ge by (rewrite length_take; lia).
        rewrite length_take, Nat.min_l by lia.
        rewrite drop_app_ge by lia.
        rewrite drop_drop. f_equal. lia.
      * rewrite (proj2 (Nat.leb_gt _ _)) by lia. reflexivity.
    + rewrite (proj2 (Nat.leb_gt _ _)) by lia. reflexivity.
Qed.

Lemma emits_writeSlice bs : emits (BufferWriter.writeSlice bs) bs.
Proof. now intros w _. Qed.

Lemma emits_skip : emits Ok [].
Proof. intros w Hw. now rewrite writeSlice_nil. Qed.

Lemma emits_bind m k a b :
  emits m a -> emits k b -> emits (fun w => m w ≫= k) (a ++ b).
Proof.
  intros Hm Hk w Hw. rewrite Hm by done.
  rewrite <- writeSlice_app by done.
  destruct (BufferWriter.writeSlice a w) as [w'|e] eqn:E; simpl; [|done].
  apply Hk. eauto using writeSlice_wf.
Qed.

Lemma emits_ext m m' bs bs' :
  (forall w, m w = m' w) -> bs = bs' -> emits m' bs' -> emits m bs.
Proof. intros Hm -> H w Hw. rewrite Hm. now apply H. Qed.

Lemma emits_forEach {A} (f : A -> BufferWriter.t -> result BufferWriter.t)
    (enc : A -> Buffer) (xs : list A) :
  (forall x, emits (f x) (enc x)) ->
  emits (forEach f xs) (concat (enc <$> xs)).
Proof.
  intros Hf. induction xs as [|x xs IH]; simpl.
  - apply emits_skip.
  - apply (emits_bind (f x) (forEach f xs)); auto.
Qed.

Create HintDb emits discriminated.
#[local] Hint Resolve emits_writeSlice emits_skip : emits.

Lemma emits_writeVarSlice bs :
  emits (BufferWriter.writeVarSlice bs) (varslice bs).
Proof.
  unfold BufferWriter.writeVarSlice, BufferWriter.writeVarInt, varslice.
  apply (emits_bind (BufferWriter.writeSlice _) (BufferWriter.writeSlice _));
    auto with emits.
Qed.

Lemma emits_writeVector v : emits (BufferWriter.writeVector v) (vector v).
Proof.
  unfold BufferWriter.writeVector, BufferWriter.writeVarInt, vector.
  apply (emits_bind (BufferWriter.writeSlice _) (forEach _ v));
    auto with emits.
  apply emits_forEach, emits_writeVarSlice.
Qed.
#[local] Hint Resolve emits_writeVarSlice emits_writeVector : emits.

Lemma emits_writeConfidentialInFields txIn :
  emits (BufferWriter.writeConfidentialInFields txIn) (wire_in_fields txIn).
Proof.
  unfold BufferWriter.writeConfidentialInFields, wire_in_fields.
  apply (emits_bind (BufferWriter.writeVarSlice _)
           (fun w => BufferWriter.writeVarSlice _ w ≫= _)); auto with emits.
  apply (emits_bind (BufferWriter.writeVarSlice _)
           (fun w => BufferWriter.writeVector _ w ≫= _)); auto with emits.
  apply (emits_bind (BufferWriter.writeVector _) (BufferWriter.writeVector _));
    auto with emits.
Qed.

Lemma emits_writeConfidentialOutFields txOut :
  emits (BufferWriter.writeConfidentialOutFields txOut)
        (wire_out_fields txOut).
Proof.
  unfold BufferWriter.writeConfidentialOutFields, wire_out_fields.
  apply (emits_bind (BufferWriter.writeVarSlice _) (BufferWriter.writeVarSlice _));
    auto with emits.
Qed.

Lemma emits___toBuffer_in txIn : emits (__toBuffer_in txIn) (wire_in txIn).
Proof.
  unfold __toBuffer_in, wire_in, BufferWriter.writeUInt32. cbv zeta.
  eapply emits_bind; [auto with emits|].
  eapply emits_bind; [auto with emits|].
  eapply emits_bind; [auto with emits|].
  eapply emits_bind; [auto with emits|].
  destruct (Input.issuance txIn) as [i|]; simpl; [|auto with emits].
  unfold wire_issuance.
  do 3 (eapply emits_bind; [auto with emits|]). auto with emits.
Qed.

Lemma emits___toBuffer_out fs hw txOut :
  emits (__toBuffer_out fs hw txOut)
        ((if fs && hw then wire_out_zero_value else wire_out) txOut).
Proof.
  unfold __toBuffer_out, BufferWriter.writeUInt64. cbv zeta.
  destruct (fs && hw); unfold wire_out_zero_value, wire_out.
  - change (replicate 8 x00) with (le_bytes 8 0).
    change [x00] with (Buffer_alloc 1 x00).
    do 4 (eapply emits_bind; [auto with emits|]). auto with emits.
  - eapply emits_bind; [auto with emits|].
    eapply emits_bind; [auto with emits|].
    eapply emits_bind; [auto with emits|].
    change (varslice (Output.script txOut))
      with ([] ++ varslice (Output.script txOut)).
    eapply emits_bind; auto with emits.
Qed.

(** A chain of writes followed by a continuation. *)
Lemma emits_then {B} m (k f : BufferWriter.t -> result B) a b :
  emits m a ->
  (forall w, writer_wf w -> k w = BufferWriter.writeSlice b w ≫= f) ->
  forall w, writer_wf w ->
    m w ≫= k = BufferWriter.writeSlice (a ++ b) w ≫= f.
Proof.
  intros Hm Hk w Hw. rewrite Hm by done.
  rewrite <- writeSlice_app by done.
  destruct (BufferWriter.writeSlice a w) as [w'|e] eqn:E; simpl; [|done].
  apply Hk. eauto using writeSlice_wf.
Qed.

Lemma emits_done {B} (f : BufferWriter.t -> result B) :
  forall w, writer_wf w -> f w = BufferWriter.writeSlice [] w ≫= f.
Proof. intros w Hw. now rewrite writeSlice_nil. Qed.

Lemma __toBuffer_wire garbage tx buffer initialOffset a fz fs :
  let buf := match buffer with
             | Some b => b
             | None => Buffer_allocUnsafe garbage (__byteLength tx a fs)
             end in
  (default 0%nat initialOffset <= length buf)%nat ->
  __toBuffer garbage tx buffer initialOffset a fz fs =
  BufferWriter.writeSlice (wire tx a fz fs)
    (BufferWriter.new buf (default 0%nat initialOffset))
  ≫= toBuffer_result initialOffset.
Proof.
  intros buf Hoff. unfold __toBuffer, wire. cbv zeta. fold buf.
  set (w0 := BufferWriter.new buf _).
  assert (Hw0 : writer_wf w0) by exact Hoff.
  revert w0 Hw0.
  apply emits_then; [apply emits_writeSlice|].
  apply emits_then.
  { destruct fs; simpl; [apply emits_skip|].
    unfold BufferWriter.writeUInt8.
    destruct (a && hasWitnesses tx && negb fz); apply emits_writeSlice. }
  apply emits_then; [apply emits_writeSlice|].
  apply emits_then; [apply emits_forEach, emits___toBuffer_in|].
  apply emits_then; [apply emits_writeSlice|].
  apply emits_then.
  { pose proof (emits_forEach (__toBuffer_out fs (a && hasWitnesses tx))
        ((if fs && (a && hasWitnesses tx) then wire_out_zero_value
          else wire_out)) (outs tx)
        (emits___toBuffer_out fs (a && hasWitnesses tx))) as H.
    destruct (fs && (a && hasWitnesses tx)); exact H. }
  apply emits_then; [apply emits_writeSlice|].
  intros w Hw.
  rewrite <- (app_nil_r (if negb fs && _ then _ else _)).
  revert w Hw. apply emits_then.
  { destruct (negb fs && (a && hasWitnesses tx)); [|apply emits_skip].
    unfold wire_suffix.
    apply (emits_bind (forEach _ _) (forEach _ _)).
    - apply emits_forEach, emits_writeConfidentialInFields.
    - apply emits_forEach, emits_writeConfidentialOutFields. }
  intros w Hw. rewrite writeSlice_nil by done. simpl.
  unfold toBuffer_result. now destruct initialOffset.
Qed.

(** ** The size oracle measures the wire form *)

Lemma len_app (a b : Buffer) : len (a ++ b) = len a + len b.
Proof. unfold len. rewrite length_app. lia. Qed.

Lemma len_nil : len [] = 0.
Proof. reflexivity. Qed.

Lemma len_encode (n : Z) : len (varuint.encode n) = varuint.encodingLength n.
Proof.
  unfold varuint.encode, varuint.encodingLength.
  repeat case_match; reflexivity.
Qed.

Lemma len_varslice (bs : Buffer) : len (varslice bs) = varSliceSize bs.
Proof. unfold varslice, varSliceSize. now rewrite len_app, len_encode. Qed.

Lemma foldl_len_concat {A} (step : Z -> A -> Z) (enc : A -> Buffer)
    (xs : list A) (size : Z) :
  (forall s x, step s x = s + len (enc x)) ->
  foldl step size xs = size + len (concat (enc <$> xs)).
Proof.
  intros Hstep. revert size. induction xs as [|x xs IH]; intros size.
  - simpl. rewrite len_nil. lia.
  - rewrite fmap_cons. cbn [foldl concat].
    rewrite IH, Hstep, len_app. lia.
Qed.

Lemma len_vector (v : list Buffer) (size : Z) :
  foldl (fun size wit => size + varSliceSize wit)
        (size + varuint.encodingLength (Z.of_nat (length v))) v =
  size + len (vector v).
Proof.
  unfold vector. rewrite (foldl_len_concat _ varslice).
  - rewrite len_app, len_encode. lia.
  - intros. now rewrite len_varslice.
Qed.

(** The two places where [__byteLength] counts a constant for a member
    whose length the data model fixes at 32 bytes. *)

Lemma len_wire (tx : Transaction) (a fz fs : bool) :
  Forall fixed_sizes (ins tx) ->
  fs && (a && hasWitnesses tx) = false ->
  len (wire tx a fz fs) = __byteLength tx a fs.
Proof.
  intros Hsz Hfs. unfold wire, __byteLength. cbv zeta. rewrite Hfs.
  rewrite !len_app, !len_encode, !len_le_bytes.
  set (sz0 := 8 + _ + _ + _).
  assert (Hins : forall s,
    foldl (fun size txIn =>
             let size := size + (40 + varSliceSize (Input.script txIn)) in
             match Input.issuance txIn with
             | Some issuance =>
                 size + (64 + len (Issuance.assetAmount issuance) +
                         len (Issuance.tokenAmount issuance))
             | None => size
             end) s (ins tx) = s + len (concat (wire_in <$> ins tx))).
  { induction Hsz as [|txIn l [Hh Hi] _ IH]; intros s.
    - simpl. rewrite len_nil. lia.
    - rewrite fmap_cons. cbn [foldl concat]. rewrite IH, len_app.
      unfold wire_in. rewrite !len_app, len_varslice, !len_le_bytes.
      assert (len (Input.hash txIn) = 32) by (unfold len; now rewrite Hh).
      destruct (Input.issuance txIn) as [i|]; simpl in *.
      + destruct Hi as [Hi1 Hi2]. unfold wire_issuance.
        rewrite !len_app.
        assert (len (Issuance.assetBlindingNonce i) = 32)
          by (unfold len; now rewrite Hi1).
        assert (len (Issuance.assetEntropy i) = 32)
          by (unfold len; now rewrite Hi2).
        lia.
      + rewrite len_nil. lia. }
  rewrite Hins. clear Hins.
  assert (Houts : forall s,
    foldl (fun size txOut =>
             size + (len (Output.asset txOut) + len (Output.value txOut) +
                     len (Output.nonce txOut) +
                     varSliceSize (Output.script txOut)))
          s (outs tx) = s + len (concat (wire_out <$> outs tx))).
  { intros s. apply foldl_len_concat. intros.
    unfold wire_out. rewrite !len_app, len_varslice. lia. }
  rewrite Houts. clear Houts.
  destruct (a && hasWitnesses tx) eqn:Hw.
  - rewrite andb_true_r in Hfs. subst fs. simpl negb. cbn [andb].
    assert (Hsuf_out : forall s,
      foldl (fun size txOut =>
               let size := size + varSliceSize (Output.surjectionProof txOut) in
               size + varSliceSize (Output.rangeProof txOut))
            s (outs tx) = s + len (concat (wire_out_fields <$> outs tx))).
    { intros s. apply foldl_len_concat. intros. cbv zeta.
      unfold wire_out_fields. rewrite !len_app, !len_varslice. lia. }
    rewrite Hsuf_out. clear Hsuf_out.
    rewrite (foldl_len_concat _ wire_in_fields).
    + unfold wire_suffix. rewrite len_app, len_le_bytes. subst sz0. lia.
    + intros s x. cbv zeta. rewrite !len_vector.
      unfold wire_in_fields. rewrite !len_app, !len_varslice. lia.
  - rewrite andb_false_r. rewrite len_nil. subst sz0.
    destruct fs; rewrite ?len_le_bytes, ?len_nil; lia.
Qed.

Lemma length_allocUnsafe garbage n :
  length (Buffer_allocUnsafe garbage n) = Z.to_nat n.
Proof. unfold Buffer_allocUnsafe. now rewrite length_fmap, length_seq. Qed.

Lemma writeSlice_exact (bs buf : Buffer) :
  length buf = length bs ->
  BufferWriter.writeSlice bs (BufferWriter.new buf 0) =
  Ok (BufferWriter.mk bs (length bs) false).
Proof.
  intros Hlen. unfold BufferWriter.writeSlice, BufferWriter.new. simpl.
  rewrite (proj2 (Nat.leb_le _ _)) by lia.
  rewrite drop_ge by lia. now rewrite app_nil_r.
Qed.

(** Serialization into a buffer of its own: the result is the wire form. *)
Lemma __toBuffer_fresh garbage tx a fz fs :
  Forall fixed_sizes (ins tx) ->
  fs && (a && hasWitnesses tx) = false ->
  __toBuffer garbage tx None None a fz fs =
  Ok (wire tx a fz fs, wire tx a fz fs).
Proof.
  intros Hsz Hfs. rewrite __toBuffer_wire by (simpl; lia).
  rewrite writeSlice_exact; [reflexivity|].
  rewrite length_allocUnsafe, <- (len_wire tx a fz fs) by done.
  unfold len. lia.
Qed.

(** ** The reader: decoding the wire form *)

Lemma drop_app_inv (buf bs rest : Buffer) (off : nat) :
  (off <= length buf)%nat -> drop off buf = bs ++ rest ->
  (off + length bs <= length buf)%nat /\
  take (length bs) (drop off buf) = bs /\
  drop (off + length bs) buf = rest.
Proof.
  intros Hoff H. split; [|split].
  - apply (f_equal length) in H. rewrite length_drop, length_app in H. lia.
  - rewrite H. apply take_app_length.
  - rewrite <- drop_drop, H. apply drop_app_length.
Qed.

Lemma decodes_readSlice (n : Z) (bs : Buffer) :
  n = len bs -> decodes (BufferReader.readSlice n) bs bs.
Proof.
  intros -> buf off rest Hoff H.
  destruct (drop_app_inv _ _ _ _ Hoff H) as (Hfit & Htake & _).
  unfold BufferReader.readSlice, len. simpl. rewrite Nat2Z.id.
  rewrite (proj2 (Nat.leb_le _ _)) by lia. now rewrite Htake.
Qed.

Lemma decodes_ret {A} (a : A) : decodes (fun r => Ok (a, r)) [] a.
Proof. intros buf off rest _ _. simpl. now rewrite Nat.add_0_r. Qed.

Lemma decodes_bind_st {A B}
    (m : BufferReader.t -> result (A * BufferReader.t))
    (k : A * BufferReader.t -> result (B * BufferReader.t)) bs cs a b :
  decodes m bs a -> decodes (fun r => k (a, r)) cs b ->
  decodes (fun r => m r ≫= k) (bs ++ cs) b.
Proof.
  intros Hm Hk buf off rest Hoff H. rewrite <- app_assoc in H.
  rewrite (Hm _ _ _ Hoff H). simpl.
  destruct (drop_app_inv _ _ _ _ Hoff H) as (Hfit & _ & Hrest).
  rewrite (Hk buf (off + length bs)%nat rest) by (done || lia).
  rewrite length_app. do 3 f_equal. lia.
Qed.

Lemma decodes_bind {A B} (m : BufferReader.t -> result (A * BufferReader.t))
    (k : A -> BufferReader.t -> result (B * BufferReader.t)) bs cs a b :
  decodes m bs a -> decodes (k a) cs b ->
  decodes (fun r => m r ≫= (fun '(x, r') => k x r')) (bs ++ cs) b.
Proof. intros Hm Hk. now apply (decodes_bind_st m _ bs cs a b). Qed.

Lemma decodes_map {A B} (m : BufferReader.t -> result (A * BufferReader.t))
    (f : A -> B) bs a :
  decodes m bs a ->
  decodes (fun r => m r ≫= (fun '(x, r') => Ok (f x, r'))) bs (f a).
Proof.
  intros Hm. rewrite <- (app_nil_r bs).
  apply (decodes_bind m (fun x r => Ok (f x, r)) bs [] a (f a));
    [done|apply decodes_ret].
Qed.

Lemma decodes_ext {A} (m m' : BufferReader.t -> result (A * BufferReader.t))
    bs bs' a a' :
  (forall r, m r = m' r) -> bs = bs' -> a = a' ->
  decodes m' bs' a' -> decodes m bs a.
Proof.
  intros Hm -> -> H buf off rest ? ?. rewrite Hm.
  now apply (H buf off rest).
Qed.

Lemma decodes_readUInt8 (b : byte) :
  decodes BufferReader.readUInt8 [b] (Z_of_byte b).
Proof.
  eapply decodes_ext; [reflexivity|reflexivity| |
    apply (decodes_map (BufferReader.readSlice 1) le_value [b] [b]);
    now apply decodes_readSlice].
  simpl. lia.
Qed.

Lemma decodes_le (w : nat) (v : Z) :
  0 <= v < 256 ^ Z.of_nat w ->
  decodes (fun r => BufferReader.readSlice (Z.of_nat w) r ≫=
                    (fun '(bs, r) => Ok (le_value bs, r)))
          (le_bytes w v) v.
Proof.
  intros Hv.
  eapply decodes_ext; [reflexivity|reflexivity| |
    apply (decodes_map (BufferReader.readSlice (Z.of_nat w)) le_value
             (le_bytes w v) (le_bytes w v));
    apply decodes_readSlice; now rewrite len_le_bytes].
  now rewrite le_value_le_bytes_small.
Qed.

Lemma decodes_readUInt32 (v : Z) :
  0 <= v < 2 ^ 32 -> decodes BufferReader.readUInt32 (le_bytes 4 v) v.
Proof. intros Hv. apply (decodes_le 4). simpl. lia. Qed.

Lemma decodes_readInt32 (v : Z) :
  - 2 ^ 31 <= v < 2 ^ 31 -> decodes BufferReader.readInt32 (le_bytes 4 v) v.
Proof.
  intros Hv.
  eapply decodes_ext; [reflexivity|reflexivity| |
    apply (decodes_map (BufferReader.readSlice 4) (fun bs => ToInt32 (le_value bs))
             (le_bytes 4 v) (le_bytes 4 v));
    apply decodes_readSlice; now rewrite len_le_bytes].
  rewrite le_value_le_bytes. change (256 ^ Z.of_nat 4) with (2 ^ 32).
  now rewrite ToInt32_signed.
Qed.

Lemma decodes_readVarInt (n : Z) :
  0 <= n < 2 ^ 64 -> decodes BufferReader.readVarInt (varuint.encode n) n.
Proof.
  intros Hn. unfold BufferReader.readVarInt, varuint.encode.
  destruct (Z.ltb_spec n 0xfd) as [H1|H1].
  { change (le_bytes 1 n) with ([byte_of_Z n] ++ []).
    eapply decodes_ext; [reflexivity|reflexivity|reflexivity|].
    apply (decodes_bind BufferReader.readUInt8
             (fun b r => if b <? 0xfd then Ok (b, r) else _) _ _
             (Z_of_byte (byte_of_Z n))); [apply decodes_readUInt8|].
    rewrite Z_of_byte_of_Z, Z.mod_small by lia.
    rewrite (proj2 (Z.ltb_lt _ _)) by lia. apply decodes_ret. }
  destruct (Z.leb_spec n 0xffff) as [H2|H2];
    [|destruct (Z.leb_spec n 0xffffffff) as [H3|H3]].
  - change (xfd :: le_bytes 2 n) with ([xfd] ++ le_bytes 2 n).
    apply (decodes_bind BufferReader.readUInt8
             (fun b r => if b <? 0xfd then Ok (b, r) else _) _ _
             (Z_of_byte xfd)); [apply decodes_readUInt8|].
    cbn match. apply (decodes_le 2). simpl. lia.
  - change (xfe :: le_bytes 4 n) with ([xfe] ++ le_bytes 4 n).
    apply (decodes_bind BufferReader.readUInt8
             (fun b r => if b <? 0xfd then Ok (b, r) else _) _ _
             (Z_of_byte xfe)); [apply decodes_readUInt8|].
    cbn match. apply (decodes_le 4). simpl. lia.
  - change (xff :: le_bytes 8 n) with ([xff] ++ le_bytes 8 n).
    apply (decodes_bind BufferReader.readUInt8
             (fun b r => if b <? 0xfd then Ok (b, r) else _) _ _
             (Z_of_byte xff)); [apply decodes_readUInt8|].
    cbn match. apply (decodes_le 8). simpl. lia.
Qed.

Lemma decodes_readVarSlice (bs : Buffer) :
  is_varslice bs -> decodes BufferReader.readVarSlice (varslice bs) bs.
Proof.
  intros Hbs. unfold BufferReader.readVarSlice, varslice.
  apply (decodes_bind BufferReader.readVarInt BufferReader.readSlice
           _ _ (len bs)).
  - apply decodes_readVarInt. unfold is_varslice, len in *. lia.
  - now apply decodes_readSlice.
Qed.

Lemma decodes_readVector_loop (v acc : list Buffer) (i : nat) :
  Forall is_varslice v ->
  decodes (fun r =>
             for_range (length v) i
               (fun _ '(v, r) =>
                  BufferReader.readVarSlice r ≫=
                  (fun '(s, r) => Ok (v ++ [s], r)))
               (acc, r))
          (concat (varslice <$> v)) (acc ++ v).
Proof.
  intros Hv. revert acc i.
  induction Hv as [|x v Hx _ IH]; intros acc i.
  - simpl. rewrite app_nil_r. apply decodes_ret.
  - rewrite fmap_cons. cbn [length for_range concat].
    eapply decodes_ext;
      [intros r; reflexivity|reflexivity|
       |apply (decodes_bind_st
                 (fun r => BufferReader.readVarSlice r ≫=
                           (fun '(s, r) => Ok (acc ++ [s], r)))
                 (for_range (length v) (S i) _)
                 _ _ (acc ++ [x]));
        [apply (decodes_map BufferReader.readVarSlice (fun s => acc ++ [s]));
         now apply decodes_readVarSlice
        |apply IH]].
    now rewrite <- app_assoc.
Qed.

Lemma decodes_readVector (v : list Buffer) :
  is_vector v -> decodes BufferReader.readVector (vector v) v.
Proof.
  intros [Hn Hv]. unfold BufferReader.readVector, vector.
  apply (decodes_bind BufferReader.readVarInt
           (fun count r => for_range (Z.to_nat count) 0 _ ([], r))
           _ _ (Z.of_nat (length v))).
  - apply decodes_readVarInt. lia.
  - rewrite Nat2Z.id. now apply (decodes_readVector_loop v []).
Qed.

(** A tag-prefixed field: the reader looks at the first byte and then
    takes the whole field. *)
Lemma decodes_sized (size : Z -> Z) (field : Buffer) :
  sized_by size field ->
  decodes (fun r => BufferReader.readUInt8 r ≫=
                    (fun '(prefix, _) => BufferReader.readSlice (size prefix) r))
          field field.
Proof.
  intros Hf buf off rest Hoff H. destruct field as [|b tl]; [done|].
  simpl in Hf.
  rewrite (decodes_readUInt8 b buf off (tl ++ rest)) by done.
  cbn [mbind result_bind].
  now apply (decodes_readSlice _ (b :: tl) (eq_sym Hf) buf off rest).
Qed.

Lemma decodes_readIssuance (i : Issuance.t) :
  wf_issuance i -> decodes BufferReader.readIssuance (wire_issuance i) i.
Proof.
  intros [H1 H2 H3 H4]. unfold BufferReader.readIssuance, wire_issuance.
  destruct i as [n e a t]; simpl in *.
  apply (decodes_bind (BufferReader.readSlice 32) _ _ _ n);
    [apply decodes_readSlice; unfold len; lia|].
  apply (decodes_bind (BufferReader.readSlice 32) _ _ _ e);
    [apply decodes_readSlice; unfold len; lia|].
  apply (decodes_bind BufferReader.readConfidentialValue _ _ _ a);
    [now apply decodes_sized|].
  apply (decodes_map BufferReader.readConfidentialValue
           (fun t => Issuance.mk n e a t)).
  now apply decodes_sized.
Qed.

Lemma decodes_readConfidentialInFields (txIn : Input.t) :
  wf_in_fields txIn ->
  decodes BufferReader.readConfidentialInFields (wire_in_fields txIn)
    (BufferReader.mkInFields (Input.witness txIn) (Input.peginWitness txIn)
       (Input.issuanceRangeProof txIn) (Input.inflationRangeProof txIn)).
Proof.
  intros [H1 H2 H3 H4].
  unfold BufferReader.readConfidentialInFields, wire_in_fields.
  apply (decodes_bind BufferReader.readVarSlice _ _ _
           (Input.issuanceRangeProof txIn));
    [now apply decodes_readVarSlice|].
  apply (decodes_bind BufferReader.readVarSlice _ _ _
           (Input.inflationRangeProof txIn));
    [now apply decodes_readVarSlice|].
  apply (decodes_bind BufferReader.readVector _ _ _ (Input.witness txIn));
    [now apply decodes_readVector|].
  apply (decodes_map BufferReader.readVector
           (fun pw => BufferReader.mkInFields _ pw _ _)).
  now apply decodes_readVector.
Qed.

Lemma decodes_readConfidentialOutFields (txOut : Output.t) :
  is_varslice (Output.rangeProof txOut) ->
  is_varslice (Output.surjectionProof txOut) ->
  decodes BufferReader.readConfidentialOutFields (wire_out_fields txOut)
    (BufferReader.mkOutFields (Output.rangeProof txOut)
       (Output.surjectionProof txOut)).
Proof.
  intros H1 H2.
  unfold BufferReader.readConfidentialOutFields, wire_out_fields.
  apply (decodes_bind BufferReader.readVarSlice _ _ _
           (Output.surjectionProof txOut));
    [now apply decodes_readVarSlice|].
  apply (decodes_map BufferReader.readVarSlice
           (fun rp => BufferReader.mkOutFields rp _)).
  now apply decodes_readVarSlice.
Qed.

(** ** The flag bits of the outpoint index *)

Lemma land_split (n x y : Z) :
  0 <= n ->
  Z.land x y =
  Z.land (x mod 2 ^ n) (y mod 2 ^ n) + Z.land (x / 2 ^ n) (y / 2 ^ n) * 2 ^ n.
Proof.
  intros Hn.
  rewrite (Z.div_mod (Z.land x y) (2 ^ n)) at 1 by lia.
  rewrite <- !Z.shiftr_div_pow2, Z.shiftr_land by lia.
  rewrite <- !Z.land_ones by lia.
  replace (Z.land (Z.land x (Z.ones n)) (Z.land y (Z.ones n)))
    with (Z.land (Z.land x y) (Z.ones n)); [lia|].
  apply Z.bits_inj'. intros m Hm. rewrite !Z.land_spec.
  destruct (Z.testbit x m), (Z.testbit y m), (Z.testbit (Z.ones n) m);
    reflexivity.
Qed.

Lemma lor_split (n x y : Z) :
  0 <= n ->
  Z.lor x y =
  Z.lor (x mod 2 ^ n) (y mod 2 ^ n) + Z.lor (x / 2 ^ n) (y / 2 ^ n) * 2 ^ n.
Proof.
  intros Hn.
  rewrite (Z.div_mod (Z.lor x y) (2 ^ n)) at 1 by lia.
  rewrite <- !Z.shiftr_div_pow2, Z.shiftr_lor by lia.
  rewrite <- !Z.land_ones by lia.
  rewrite <- Z.land_lor_distr_l. lia.
Qed.

(** A 32-bit value as its low 30 bits and its two top bits. *)
Lemma parts_div (i k : Z) : 0 <= i < 2 ^ 30 -> (i + k * 2 ^ 30) / 2 ^ 30 = k.
Proof. intros. rewrite Z.div_add by lia. rewrite Z.div_small by lia. lia. Qed.

Lemma parts_mod (i k : Z) : 0 <= i < 2 ^ 30 -> (i + k * 2 ^ 30) mod 2 ^ 30 = i.
Proof. intros. rewrite Z.mod_add by lia. now rewrite Z.mod_small by lia. Qed.

Lemma land_parts (i k mlo mhi : Z) :
  0 <= i < 2 ^ 30 -> 0 <= mlo < 2 ^ 30 ->
  Z.land (i + k * 2 ^ 30) (mlo + mhi * 2 ^ 30) =
  Z.land i mlo + Z.land k mhi * 2 ^ 30.
Proof.
  intros Hi Hm. rewrite (land_split 30) by lia.
  now rewrite !parts_div, !parts_mod.
Qed.

Lemma lor_parts (i k mlo mhi : Z) :
  0 <= i < 2 ^ 30 -> 0 <= mlo < 2 ^ 30 ->
  Z.lor (i + k * 2 ^ 30) (mlo + mhi * 2 ^ 30) =
  Z.lor i mlo + Z.lor k mhi * 2 ^ 30.
Proof.
  intros Hi Hm. rewrite (lor_split 30) by lia.
  now rewrite !parts_div, !parts_mod.
Qed.

Lemma ToInt32_parts (i k : Z) :
  0 <= i < 2 ^ 30 -> 0 <= k < 4 ->
  ToInt32 (i + k * 2 ^ 30) = i + (if k <? 2 then k else k - 4) * 2 ^ 30.
Proof.
  intros Hi Hk. unfold ToInt32. rewrite Z.mod_small by lia.
  destruct (Z.ltb_spec k 2); destruct (Z.ltb_spec (i + k * 2 ^ 30) (2 ^ 31));
    lia.
Qed.

Lemma land_mask (i : Z) : 0 <= i < 2 ^ 30 -> Z.land i OUTPOINT_INDEX_MASK = i.
Proof.
  intros Hi. change OUTPOINT_INDEX_MASK with (Z.ones 30).
  rewrite Z.land_ones by lia. now apply Z.mod_small.
Qed.

(** The wire index of a logical index below 2^30 with its two marks, and
    what the reader's three tests make of it. *)
Lemma index_flags (i : Z) (a b : bool) :
  0 <= i < 2 ^ 30 ->
  let w0 := if a then js_ushr0 (js_or i OUTPOINT_ISSUANCE_FLAG) else i in
  let w := if b then js_ushr0 (js_or w0 OUTPOINT_PEGIN_FLAG) else w0 in
  w = i + (if a then 2 ^ 31 else 0) + (if b then 2 ^ 30 else 0) /\
  truthy (js_and w OUTPOINT_ISSUANCE_FLAG) = a /\
  truthy (js_and w OUTPOINT_PEGIN_FLAG) = b /\
  js_and w OUTPOINT_INDEX_MASK = i.
Proof.
  intros Hi.
  assert (Hflag31 : ToInt32 OUTPOINT_ISSUANCE_FLAG = 0 + (-2) * 2 ^ 30)
    by reflexivity.
  assert (Hflag30 : ToInt32 OUTPOINT_PEGIN_FLAG = 0 + 1 * 2 ^ 30)
    by reflexivity.
  assert (Hmask : ToInt32 OUTPOINT_INDEX_MASK = OUTPOINT_INDEX_MASK + 0 * 2 ^ 30)
    by reflexivity.
  assert (Hw : forall k, 0 <= k < 4 ->
    let w := i + k * 2 ^ 30 in
    js_and w OUTPOINT_ISSUANCE_FLAG = Z.land (if k <? 2 then k else k - 4) (-2) * 2 ^ 30 /\
    js_and w OUTPOINT_PEGIN_FLAG = Z.land (if k <? 2 then k else k - 4) 1 * 2 ^ 30 /\
    js_and w OUTPOINT_INDEX_MASK = i /\
    js_ushr0 (js_or w OUTPOINT_ISSUANCE_FLAG) =
      (i + Z.lor (if k <? 2 then k else k - 4) (-2) * 2 ^ 30) mod 2 ^ 32 /\
    js_ushr0 (js_or w OUTPOINT_PEGIN_FLAG) =
      (i + Z.lor (if k <? 2 then k else k - 4) 1 * 2 ^ 30) mod 2 ^ 32).
  { intros k Hk w. unfold js_and, js_or, js_ushr0, ToUint32. subst w.
    rewrite ToInt32_parts, Hflag31, Hflag30, Hmask by done.
    rewrite !land_parts, !lor_parts by (done || (unfold OUTPOINT_INDEX_MASK; lia)).
    rewrite Z.land_0_r, Z.lor_0_r, land_mask, Z.land_0_r by done.
    repeat split; lia. }
  destruct (Hw 0) as (A0 & B0 & C0 & D0 & E0); [lia|].
  destruct (Hw 1) as (A1 & B1 & C1 & D1 & E1); [lia|].
  destruct (Hw 2) as (A2 & B2 & C2 & D2 & E2); [lia|].
  destruct (Hw 3) as (A3 & B3 & C3 & D3 & E3); [lia|].
  clear Hw Hflag31 Hflag30 Hmask.
  repeat match goal with
         | H : context [Z.land ?a ?b] |- _ =>
             let v := eval vm_compute in (Z.land a b) in
             change (Z.land a b) with v in H
         | H : context [Z.lor ?a ?b] |- _ =>
             let v := eval vm_compute in (Z.lor a b) in
             change (Z.lor a b) with v in H
         end.
  assert (M1 : (i + -2 * 2 ^ 30) mod 2 ^ 32 = i + 2 * 2 ^ 30).
  { rewrite <- (Z.mod_add _ 1) by lia. rewrite Z.mod_small; lia. }
  assert (M2 : (i + 1 * 2 ^ 30) mod 2 ^ 32 = i + 1 * 2 ^ 30)
    by (rewrite Z.mod_small; lia).
  assert (M3 : (i + -1 * 2 ^ 30) mod 2 ^ 32 = i + 3 * 2 ^ 30).
  { rewrite <- (Z.mod_add _ 1) by lia. rewrite Z.mod_small; lia. }
  rewrite M1 in D0. rewrite M2 in E0. rewrite M3 in E2.
  rewrite Z.add_0_r in *.
  destruct a, b; cbv zeta; unfold truthy.
  - rewrite D0, E2, A3, B3, C3. repeat split; lia.
  - rewrite D0, A2, B2, C2. repeat split; lia.
  - rewrite E0, A1, B1, C1. repeat split; lia.
  - rewrite A0, B0, C0. repeat split; lia.
Qed.

(** ** Inputs and outputs through the reader *)

(** What the input and output loops of [fromBuffer] push. *)

Ltac dstep tac := eapply decodes_bind_st; [tac|cbv beta iota].

Lemma wire_prevIndex_flags (txIn : Input.t) :
  0 <= Input.index txIn < 2 ^ 30 ->
  let w := wire_prevIndex txIn in
  w = Input.index txIn + (if has_issuance txIn then 2 ^ 31 else 0) +
      (if Input.isPegin txIn then 2 ^ 30 else 0) /\
  truthy (js_and w OUTPOINT_ISSUANCE_FLAG) = has_issuance txIn /\
  truthy (js_and w OUTPOINT_PEGIN_FLAG) = Input.isPegin txIn /\
  js_and w OUTPOINT_INDEX_MASK = Input.index txIn.
Proof.
  intros Hi.
  pose proof (index_flags (Input.index txIn) (has_issuance txIn)
                (Input.isPegin txIn) Hi) as H.
  unfold wire_prevIndex, has_issuance in *.
  destruct (Input.issuance txIn); exact H.
Qed.

Lemma wire_prevIndex_sentinel (txIn : Input.t) :
  0 <= Input.index txIn < 2 ^ 30 ->
  wire_prevIndex txIn = MINUS_1 <-> sentinel_collision txIn.
Proof.
  intros Hi. destruct (wire_prevIndex_flags txIn Hi) as (Hw & _).
  cbv zeta in Hw. rewrite Hw. unfold sentinel_collision, has_issuance, MINUS_1,
    OUTPOINT_INDEX_MASK.
  destruct (Input.issuance txIn), (Input.isPegin txIn); split;
    try (intros (? & ? & ?)); try done; try lia.
  intros E. split_and?; try done; lia.
Qed.

Lemma wire_prevIndex_range (txIn : Input.t) :
  wf_index txIn -> 0 <= wire_prevIndex txIn < 2 ^ 32.
Proof.
  intros [[Hi Hx]|(Hi & Hiss & Hp)].
  - destruct (wire_prevIndex_flags txIn Hi) as (Hw & _).
    cbv zeta in Hw. rewrite Hw.
    destruct (has_issuance txIn), (Input.isPegin txIn); lia.
  - unfold wire_prevIndex. rewrite Hiss, Hp, Hi. unfold MINUS_1. lia.
Qed.

Lemma decodes_outpoint_flags (txIn : Input.t) :
  wf_input_body txIn -> wf_index txIn ->
  decodes
    (fun bufferReader =>
       if negb (wire_prevIndex txIn =? MINUS_1) then
         (if truthy (js_and (wire_prevIndex txIn) OUTPOINT_ISSUANCE_FLAG)
          then BufferReader.readIssuance bufferReader ≫=
               (fun '(i, r) => Ok (Some i, r))
          else Ok (None, bufferReader)) ≫=
         (fun '(inIssuance, bufferReader) =>
            let inIsPegin :=
              if truthy (js_and (wire_prevIndex txIn) OUTPOINT_PEGIN_FLAG)
              then true else false in
            let inIndex := js_and (wire_prevIndex txIn) OUTPOINT_INDEX_MASK in
            Ok (inIssuance, inIsPegin, inIndex, bufferReader))
       else Ok (None, false, wire_prevIndex txIn, bufferReader))
    (from_option wire_issuance [] (Input.issuance txIn))
    (Input.issuance txIn, Input.isPegin txIn, Input.index txIn).
Proof.
  intros Hb [[Hi Hx]|(Hi & Hiss & Hp)].
  - destruct (wire_prevIndex_flags txIn Hi) as (_ & Ha & Hp & Hm).
    cbv zeta in Ha, Hp, Hm.
    assert (Hne : (wire_prevIndex txIn =? MINUS_1) = false).
    { apply Z.eqb_neq. now rewrite wire_prevIndex_sentinel. }
    rewrite Hne, Ha, Hp, Hm. cbn [negb].
    pose proof (wf_in_issuance _ Hb) as Hiss. unfold has_issuance.
    destruct (Input.issuance txIn) as [iss|]; simpl in *.
    + rewrite <- (app_nil_r (wire_issuance iss)).
      dstep ltac:(apply (decodes_map BufferReader.readIssuance Some);
                  now apply decodes_readIssuance).
      destruct (Input.isPegin txIn); apply decodes_ret.
    + destruct (Input.isPegin txIn); apply decodes_ret.
  - unfold wire_prevIndex. rewrite Hiss, Hp, Hi. simpl. apply decodes_ret.
Qed.

Lemma decodes_vin (txIn : Input.t) (tx : Transaction) :
  wf_input_body txIn -> wf_index txIn ->
  decodes (fun r => fromBuffer_vin (tx, r)) (wire_in txIn)
          (set_ins (ins tx ++ [blank_in txIn]) tx).
Proof.
  intros Hb Hi. unfold fromBuffer_vin, wire_in. cbv zeta.
  destruct Hb as [Hh Hs Hq Hiss].
  dstep ltac:(apply decodes_readSlice; unfold len; lia).
  dstep ltac:(apply decodes_readUInt32; now apply wire_prevIndex_range).
  dstep ltac:(now apply decodes_readVarSlice).
  dstep ltac:(now apply decodes_readUInt32).
  rewrite <- (app_nil_r (from_option _ _ _)).
  dstep ltac:(apply decodes_outpoint_flags; [now constructor|done]).
  destruct txIn; apply decodes_ret.
Qed.

Lemma decodes_vout (txOut : Output.t) (tx : Transaction) :
  wf_output txOut ->
  decodes (fun r => fromBuffer_vout (tx, r)) (wire_out txOut)
          (set_outs (outs tx ++ [blank_out txOut]) tx).
Proof.
  intros [Ha Hv Hn Hs _ _]. unfold fromBuffer_vout, wire_out.
  dstep ltac:(now apply decodes_sized).
  dstep ltac:(now apply decodes_sized).
  dstep ltac:(now apply decodes_sized).
  rewrite <- (app_nil_r (varslice _)).
  dstep ltac:(now apply decodes_readVarSlice).
  destruct txOut; apply decodes_ret.
Qed.

(** ** The four loops of [fromBuffer] *)

Lemma set_ins_set_ins l l' tx : set_ins l (set_ins l' tx) = set_ins l tx.
Proof. reflexivity. Qed.
Lemma set_outs_set_outs l l' tx : set_outs l (set_outs l' tx) = set_outs l tx.
Proof. reflexivity. Qed.

Lemma insert_middle {A} (pre post : list A) (x y : A) :
  <[length pre := y]> (pre ++ x :: post) = pre ++ y :: post.
Proof.
  rewrite <- (Nat.add_0_r (length pre)) at 1. now rewrite insert_app_r.
Qed.

Lemma decodes_vin_loop (l : list Input.t) (tx : Transaction) (i : nat) :
  Forall (fun txIn => wf_input_body txIn /\ wf_index txIn) l ->
  decodes (fun r => for_range (length l) i (fun _ => fromBuffer_vin) (tx, r))
          (concat (wire_in <$> l))
          (set_ins (ins tx ++ (blank_in <$> l)) tx).
Proof.
  intros Hl. revert tx i.
  induction Hl as [|x l [Hb Hi] _ IH]; intros tx i.
  - simpl. rewrite app_nil_r. destruct tx. apply decodes_ret.
  - rewrite !fmap_cons. cbn [length for_range concat].
    eapply decodes_ext; [intros r; reflexivity|reflexivity|
      |apply (decodes_bind_st (fun r => fromBuffer_vin (tx, r))
                (for_range (length l) (S i) (fun _ => fromBuffer_vin)) _ _
                (set_ins (ins tx ++ [blank_in x]) tx));
       [now apply decodes_vin|apply IH]].
    simpl. now rewrite <- app_assoc.
Qed.

Lemma decodes_vout_loop (l : list Output.t) (tx : Transaction) (i : nat) :
  Forall wf_output l ->
  decodes (fun r => for_range (length l) i (fun _ => fromBuffer_vout) (tx, r))
          (concat (wire_out <$> l))
          (set_outs (outs tx ++ (blank_out <$> l)) tx).
Proof.
  intros Hl. revert tx i.
  induction Hl as [|x l Hx _ IH]; intros tx i.
  - simpl. rewrite app_nil_r. destruct tx. apply decodes_ret.
  - rewrite !fmap_cons. cbn [length for_range concat].
    eapply decodes_ext; [intros r; reflexivity|reflexivity|
      |apply (decodes_bind_st (fun r => fromBuffer_vout (tx, r))
                (for_range (length l) (S i) (fun _ => fromBuffer_vout)) _ _
                (set_outs (outs tx ++ [blank_out x]) tx));
       [now apply decodes_vout|apply IH]].
    simpl. now rewrite <- app_assoc.
Qed.

Lemma decodes_inFields (x : Input.t) (pre post : list Input.t)
    (tx : Transaction) :
  wf_in_fields x ->
  ins tx = pre ++ blank_in x :: post ->
  decodes (fun r => fromBuffer_inFields (length pre) (tx, r))
          (wire_in_fields x) (set_ins (pre ++ x :: post) tx).
Proof.
  intros Hx Hins. unfold fromBuffer_inFields.
  rewrite <- (app_nil_r (wire_in_fields x)).
  dstep ltac:(now apply decodes_readConfidentialInFields).
  rewrite Hins, list_lookup_middle by done. simpl.
  rewrite insert_middle.
  destruct x; apply decodes_ret.
Qed.

Lemma decodes_inFields_loop (l pre : list Input.t) (tx : Transaction) :
  Forall wf_in_fields l ->
  ins tx = pre ++ (blank_in <$> l) ->
  decodes (fun r => for_range (length l) (length pre) fromBuffer_inFields
                      (tx, r))
          (concat (wire_in_fields <$> l)) (set_ins (pre ++ l) tx).
Proof.
  intros Hl. revert pre tx.
  induction Hl as [|x l Hx _ IH]; intros pre tx Hins.
  - simpl in *. rewrite <- Hins. destruct tx. apply decodes_ret.
  - rewrite fmap_cons in *. cbn [length for_range concat].
    eapply decodes_ext; [intros r; reflexivity|reflexivity|
      |apply (decodes_bind_st
                (fun r => fromBuffer_inFields (length pre) (tx, r))
                (for_range (length l) (S (length pre)) fromBuffer_inFields)
                _ _ (set_ins (pre ++ x :: (blank_in <$> l)) tx));
       [now apply decodes_inFields|]].
    2:{ replace (S (length pre)) with (length (pre ++ [x]))
          by (rewrite length_app; simpl; lia).
        apply IH. simpl. now rewrite <- app_assoc. }
    simpl. now rewrite <- app_assoc.
Qed.

Lemma decodes_outFields (x : Output.t) (pre post : list Output.t)
    (tx : Transaction) :
  wf_output x ->
  outs tx = pre ++ blank_out x :: post ->
  decodes (fun r => fromBuffer_outFields (length pre) (tx, r))
          (wire_out_fields x) (set_outs (pre ++ x :: post) tx).
Proof.
  intros Hx Houts. unfold fromBuffer_outFields.
  rewrite <- (app_nil_r (wire_out_fields x)).
  dstep ltac:(apply decodes_readConfidentialOutFields; apply Hx).
  rewrite Houts, list_lookup_middle by done. simpl.
  rewrite insert_middle.
  destruct x; apply decodes_ret.
Qed.

Lemma decodes_outFields_loop (l pre : list Output.t) (tx : Transaction) :
  Forall wf_output l ->
  outs tx = pre ++ (blank_out <$> l) ->
  decodes (fun r => for_range (length l) (length pre) fromBuffer_outFields
                      (tx, r))
          (concat (wire_out_fields <$> l)) (set_outs (pre ++ l) tx).
Proof.
  intros Hl. revert pre tx.
  induction Hl as [|x l Hx _ IH]; intros pre tx Houts.
  - simpl in *. rewrite <- Houts. destruct tx. apply decodes_ret.
  - rewrite fmap_cons in *. cbn [length for_range concat].
    eapply decodes_ext; [intros r; reflexivity|reflexivity|
      |apply (decodes_bind_st
                (fun r => fromBuffer_outFields (length pre) (tx, r))
                (for_range (length l) (S (length pre)) fromBuffer_outFields)
                _ _ (set_outs (pre ++ x :: (blank_out <$> l)) tx));
       [now apply decodes_outFields|]].
    2:{ replace (S (length pre)) with (length (pre ++ [x]))
          by (rewrite length_app; simpl; lia).
        apply IH. simpl. now rewrite <- app_assoc. }
    simpl. now rewrite <- app_assoc.
Qed.

(** ** Deserializing the wire form of a well-formed transaction *)

Lemma decodes_run {A B} (m : BufferReader.t -> result (A * BufferReader.t))
    (k : A * BufferReader.t -> result B) bs a buf off rest :
  decodes m bs a ->
  (off <= length buf)%nat -> drop off buf = bs ++ rest ->
  m (BufferReader.mk buf off) ≫= k =
  k (a, BufferReader.mk buf (off + length bs)).
Proof. intros Hm Hoff Hdrop. now rewrite (Hm buf off rest). Qed.

Lemma hasWitnesses_wf (tx : Transaction) :
  wf_transaction tx ->
  (flag tx = 1 /\ hasWitnesses tx = true) \/
  (flag tx = 0 /\ hasWitnesses tx = false /\
   blank_in <$> ins tx = ins tx /\ blank_out <$> outs tx = outs tx).
Proof.
  intros Hwf. destruct (wf_flag _ Hwf) as [H1|(H0 & Hi & Ho)].
  - left. split; [done|]. unfold hasWitnesses. now rewrite H1.
  - right. split; [done|]. split; [|split].
    + unfold hasWitnesses. rewrite H0. simpl.
      apply orb_false_iff. split.
      * induction Hi as [|x l (Hw & _) _ IH]; simpl; [done|].
        now rewrite Hw, IH.
      * induction Ho as [|x l (Hr & _) _ IH]; simpl; [done|].
        now rewrite Hr, IH.
    + induction Hi as [|x l (H1 & H2 & H3 & H4) _ IH]; [done|].
      rewrite fmap_cons, IH. f_equal.
      destruct x; simpl in *; now subst.
    + induction Ho as [|x l (H1 & H2) _ IH]; [done|].
      rewrite fmap_cons, IH. f_equal.
      destruct x; simpl in *; now subst.
Qed.

Lemma decodes_readUInt8_le (v : Z) :
  0 <= v < 256 -> decodes BufferReader.readUInt8 (le_bytes 1 v) v.
Proof.
  intros Hv. eapply decodes_ext;
    [reflexivity|reflexivity| |apply (decodes_readUInt8 (byte_of_Z v))].
  rewrite Z_of_byte_of_Z. now rewrite Z.mod_small.
Qed.

Ltac run H :=
  match goal with
  | Hoff : (?off <= length ?buf)%nat,
    Hdrop : drop ?off ?buf = ?bs ++ ?rest |- _ =>
      rewrite (decodes_run _ _ bs _ buf off rest H Hoff Hdrop);
      let Hoff' := fresh "Hoff" in
      let Hdrop' := fresh "Hdrop" in
      destruct (drop_app_inv buf bs rest off Hoff Hdrop)
        as (Hoff' & _ & Hdrop');
      clear Hoff Hdrop; cbv beta iota
  end.

Lemma fromBuffer_wire (tx : Transaction) :
  wf_transaction tx ->
  fromBuffer (wire tx true false false) false = Ok tx.
Proof.
  intros Hwf.
  pose proof (hasWitnesses_wf tx Hwf) as Hflag.
  destruct Hwf as [Hv Hl Hvin Hvout Hins Houts _].
  assert (Hins1 : Forall (fun txIn => wf_input_body txIn /\ wf_index txIn)
                    (ins tx)).
  { eapply Forall_impl; [exact Hins|]. now intros x (? & ? & ?). }
  assert (Hins2 : Forall wf_in_fields (ins tx)).
  { eapply Forall_impl; [exact Hins|]. now intros x (? & ? & ?). }
  clear Hins.
  unfold fromBuffer, BufferReader.new. cbv zeta.
  remember (wire tx true false false) as buffer eqn:Hbuf.
  assert (Hoff : (0 <= length buffer)%nat) by lia.
  assert (Hdrop : drop 0 buffer = wire tx true false false ++ [])
    by (now rewrite app_nil_r, Hbuf).
  clear Hbuf. unfold wire in Hdrop. cbv zeta in Hdrop.
  cbn [andb negb] in Hdrop. rewrite andb_true_r in Hdrop.
  rewrite <- !app_assoc in Hdrop.
  run (decodes_readInt32 _ Hv).
  assert (Hfb : decodes BufferReader.readUInt8
                  (le_bytes 1 (if hasWitnesses tx then 1 else 0)) (flag tx)).
  { destruct Hflag as [(-> & ->)|(-> & -> & _)];
      apply decodes_readUInt8_le; lia. }
  run Hfb. clear Hfb.
  run (decodes_readVarInt (Z.of_nat (length (ins tx))) ltac:(lia)).
  rewrite Nat2Z.id.
  run (decodes_vin_loop (ins tx)
         (set_flag (flag tx) (set_version (version tx) new_Transaction)) 0
         Hins1).
  run (decodes_readVarInt (Z.of_nat (length (outs tx))) ltac:(lia)).
  rewrite Nat2Z.id.
  match goal with
  | |- context [for_range _ 0 _ (?t, _)] =>
      run (decodes_vout_loop (outs tx) t 0 Houts)
  end.
  run (decodes_readUInt32 _ Hl).
  cbn [ins outs set_ins set_outs set_flag set_version set_locktime
       new_Transaction flag version locktime app] in *.
  destruct Hflag as [(Hf & Hw)|(Hf & Hw & Hbi & Hbo)];
    rewrite Hw in *; rewrite Hf.
  - change (truthy (js_and 1 ADVANCED_TRANSACTION_FLAG)) with true.
    cbv iota. unfold wire_suffix in Hdrop0.
    match goal with
    | |- context [for_range _ 0 fromBuffer_inFields (?t, _)] =>
        run (decodes_bind_st
               (fun r => for_range (length (ins tx)) 0 fromBuffer_inFields
                           (t, r))
               (for_range (length (outs tx)) 0 fromBuffer_outFields)
               _ _ _ _
               (decodes_inFields_loop (ins tx) [] t Hins2 eq_refl)
               (decodes_outFields_loop (outs tx) []
                  (set_ins ([] ++ ins tx) t) Houts eq_refl))
    end.
    match goal with H : drop _ buffer = [] |- _ => apply drop_nil_inv in H end.
    cbn [BufferReader.offset].
    rewrite (proj2 (Nat.eqb_eq _ _)) by lia.
    cbn. destruct tx; simpl in *; now subst.
  - change (truthy (js_and 0 ADVANCED_TRANSACTION_FLAG)) with false.
    cbv iota. cbn [mbind result_bind].
    rewrite app_nil_r in Hdrop0. apply drop_nil_inv in Hdrop0.
    cbn [BufferReader.offset].
    rewrite (proj2 (Nat.eqb_eq _ _)) by lia.
    cbn. rewrite Hbi, Hbo. destruct tx; simpl in *; now subst.
Qed.

(** ** The sentinel digest of the legacy sighash *)

(** A previous script that does not decompile, for an input that is
    there: [decompile(prevOutScript)!.filter] throws a [TypeError], for
    every hash type, before the output mode is looked at. *)
Lemma hashForSignature_null_script garbage hash256 decompile compile
    (tx : Transaction) (inIndex : Z) (prevOutScript : Buffer) (hashType : Z) :
  0 <= inIndex < Z.of_nat (length (ins tx)) -> inIndex < 2 ^ 32 ->
  decompile prevOutScript = None ->
  hashForSignature garbage hash256 decompile compile tx inIndex prevOutScript
    hashType = Err JsTypeError.
Proof.
  intros Hidx Hu32 Hnull.
  unfold hashForSignature, typeforce, isUInt32.
  rewrite (proj2 (Z.leb_le 0 inIndex)), (proj2 (Z.ltb_lt inIndex (2 ^ 32)))
    by lia.
  cbn [andb mbind result_bind].
  rewrite (proj2 (Z.leb_gt _ _)) by lia.
  now rewrite Hnull.
Qed.


(** ** Identifiers *)

Lemma isCoinbaseHash_zero : isCoinbaseHash (replicate 32 x00) = Ok true.
Proof. reflexivity. Qed.

(** C7. For every coinbase transaction (exactly one input, whose previous
    transaction hash is 32 zero bytes), [getHash(true)], the wtxid, is 32
    zero bytes, whatever the rest of the transaction is. *)
Theorem coinbase_wtxid garbage hash256 (tx : Transaction) (txIn : Input.t) :
  ins tx = [txIn] -> Input.hash txIn = replicate 32 x00 ->
  getHash garbage hash256 tx true = Ok (replicate 32 x00).
Proof.
  intros Hins Hhash. unfold getHash, isCoinbase.
  now rewrite Hins, Hhash, isCoinbaseHash_zero.
Qed.

(** ** Adding an input *)

(** C10. [addInput] with an explicit [sequence] of 0 stores
    [DEFAULT_SEQUENCE] (0xFFFFFFFF), because the default is chosen by a
    falsiness test; every other sequence value is stored as given.  The
    hypotheses are those under which [addInput] does not throw. *)
Theorem addInput_sequence (tx : Transaction) (hash : Buffer) (index : Z)
    (sequence : Z) (scriptSig : option Buffer)
    (issuance : option Issuance.t) :
  length hash = 32%nat -> 0 <= index < 2 ^ 32 -> 0 <= sequence < 2 ^ 32 ->
  issuance_accepted index issuance ->
  exists txIn,
    addInput tx hash index (Some sequence) scriptSig issuance =
      Ok (set_ins (ins tx ++ [txIn]) tx, Z.of_nat (length (ins tx))) /\
    Input.sequence txIn =
      (if sequence =? 0 then DEFAULT_SEQUENCE else sequence) /\
    DEFAULT_SEQUENCE = 0xffffffff.
Proof.
  intros Hh Hi Hs Hacc. unfold addInput, typeforce, isUInt32. simpl from_option.
  rewrite Hh, Nat.eqb_refl.
  rewrite !(proj2 (Z.leb_le 0 _)), !(proj2 (Z.ltb_lt _ (2 ^ 32))) by lia.
  cbn [andb mbind result_bind].
  assert (Hlen : forall x : Input.t,
            Z.of_nat (length (ins tx ++ [x])) - 1 = Z.of_nat (length (ins tx))).
  { intros x. rewrite length_app. simpl. lia. }
  unfold truthy at 3.
  destruct (Z.eqb_spec index MINUS_1) as [->|Hne]; cbn [negb].
  - cbn [mbind result_bind]. eexists. rewrite Hlen.
    split; [reflexivity|]. unfold truthy. simpl.
    now destruct (sequence =? 0).
  - assert (Hchk :
      (if truthy (js_and index OUTPOINT_ISSUANCE_FLAG)
       then match issuance with
            | Some issuance0 =>
                validateIssuance (Issuance.assetBlindingNonce issuance0)
                  (Issuance.assetEntropy issuance0)
                  (Issuance.assetAmount issuance0)
                  (Issuance.tokenAmount issuance0) ≫= (fun _ => Ok ())
            | None => Err MissingIssuance
            end
       else Ok ()) = Ok ()).
    { destruct Hacc as [?|[H0|(i & -> & Hv)]]; [done| |].
      - unfold truthy. now rewrite H0.
      - rewrite Hv. now destruct (truthy _). }
    rewrite Hchk. cbn [mbind result_bind]. eexists. rewrite Hlen.
    split; [reflexivity|]. unfold truthy. simpl.
    now destruct (sequence =? 0).
Qed.

(** ** One input through the writer and the reader *)

Lemma testbit_parts (w lo k n : Z) :
  0 <= n -> 0 <= lo < 2 ^ n -> w = lo + k * 2 ^ n ->
  Z.testbit w n = Z.odd k.
Proof.
  intros Hn Hlo ->. rewrite Z.testbit_odd, Z.shiftr_div_pow2 by lia.
  rewrite Z.div_add by lia. now rewrite Z.div_small by lia.
Qed.

Lemma wire_prevIndex_bits (txIn : Input.t) :
  0 <= Input.index txIn < 2 ^ 30 ->
  Z.testbit (wire_prevIndex txIn) 31 = has_issuance txIn /\
  Z.testbit (wire_prevIndex txIn) 30 = Input.isPegin txIn /\
  Z.land (wire_prevIndex txIn) OUTPOINT_INDEX_MASK = Input.index txIn.
Proof.
  intros Hi. destruct (wire_prevIndex_flags txIn Hi) as (Hw & _).
  cbv zeta in Hw. rewrite Hw. clear Hw.
  set (i := Input.index txIn) in *.
  destruct (has_issuance txIn), (Input.isPegin txIn); split_and?.
  all: try (change OUTPOINT_INDEX_MASK with (Z.ones 30);
            rewrite Z.land_ones by lia).
  - apply (testbit_parts _ (i + 2 ^ 30) 1); lia.
  - apply (testbit_parts _ i 3); lia.
  - replace (i + 2 ^ 31 + 2 ^ 30) with (i + 3 * 2 ^ 30) by lia.
    rewrite Z.mod_add by lia. now apply Z.mod_small.
  - apply (testbit_parts _ i 1); lia.
  - apply (testbit_parts _ i 2); lia.
  - replace (i + 2 ^ 31 + 0) with (i + 2 * 2 ^ 30) by lia.
    rewrite Z.mod_add by lia. now apply Z.mod_small.
  - apply (testbit_parts _ (i + 2 ^ 30) 0); lia.
  - apply (testbit_parts _ i 1); lia.
  - replace (i + 0 + 2 ^ 30) with (i + 1 * 2 ^ 30) by lia.
    rewrite Z.mod_add by lia. now apply Z.mod_small.
  - apply (testbit_parts _ i 0); lia.
  - apply (testbit_parts _ i 0); lia.
  - rewrite !Z.add_0_r. now apply Z.mod_small.
Qed.

Lemma wire_prevIndex_MINUS_1 (txIn : Input.t) :
  Input.index txIn = MINUS_1 -> wire_prevIndex txIn = MINUS_1.
Proof.
  intros Hi. unfold wire_prevIndex. rewrite Hi.
  now destruct (Input.issuance txIn), (Input.isPegin txIn).
Qed.

Lemma decodes_vin_sentinel (txIn : Input.t) (tx : Transaction) :
  wf_input_body txIn -> Input.index txIn = MINUS_1 ->
  decodes (fun r => fromBuffer_vin (tx, r))
          (Input.hash txIn ++ le_bytes 4 MINUS_1 ++
           varslice (Input.script txIn) ++ le_bytes 4 (Input.sequence txIn))
          (set_ins (ins tx ++ [sentinel_read txIn]) tx).
Proof.
  intros [Hh Hs Hq _] Hi. unfold fromBuffer_vin. cbv zeta.
  dstep ltac:(apply decodes_readSlice; unfold len; lia).
  dstep ltac:(apply decodes_readUInt32; unfold MINUS_1; lia).
  dstep ltac:(now apply decodes_readVarSlice).
  rewrite <- (app_nil_r (le_bytes 4 _)).
  dstep ltac:(now apply decodes_readUInt32).
  change (negb (MINUS_1 =? MINUS_1)) with false. cbv iota.
  cbn [mbind result_bind]. apply decodes_ret.
Qed.

Lemma input_written (txIn : Input.t) :
  __toBuffer_in txIn (BufferWriter.withCapacity 0) =
  Ok (BufferWriter.mk (wire_in txIn) (length (wire_in txIn)) true).
Proof.
  rewrite emits___toBuffer_in by (unfold writer_wf; simpl; lia).
  reflexivity.
Qed.

Lemma input_read (txIn read : Input.t) (bs rest : Buffer) :
  decodes (fun r => fromBuffer_vin (new_Transaction, r)) bs
          (set_ins (ins new_Transaction ++ [read]) new_Transaction) ->
  wire_in txIn = bs ++ rest ->
  forall rest', input_roundtrip txIn rest' = Ok (read, rest ++ rest').
Proof.
  intros Hdec Hwire rest'. unfold input_roundtrip.
  rewrite input_written. cbn [mbind result_bind BufferWriter.end_
    BufferWriter.buffer]. unfold BufferReader.new.
  rewrite (Hdec (wire_in txIn ++ rest') 0%nat (rest ++ rest'))
    by (simpl; (lia || (now rewrite Hwire, <- app_assoc))).
  cbn [mbind result_bind]. simpl ins. cbn [element Z.ltb Z.compare Z.to_nat
    lookup list_lookup mbind result_bind BufferReader.offset].
  change (Z.to_nat 0) with 0%nat. cbn [lookup list_lookup mbind result_bind].
  rewrite Hwire, <- app_assoc. cbn [Nat.add]. now rewrite drop_app_length.
Qed.

(** C8, amended.  For every input of the data model whose logical index
    is in [0, 2^30), with any combination of issuance and peg-in mark
    other than index 0x3FFFFFFF carrying both (its wire index would be
    0xFFFFFFFF, which the reader takes for the sentinel): bits 31 and 30
    of the wire index are the two marks, its low 30 bits are the logical
    index, and writing the input and reading it back preserves the marks
    and the index.  An input at the sentinel index 0xFFFFFFFF is written
    with the wire index 0xFFFFFFFF and read back with that index, no
    peg-in mark and no issuance; the reader stops before any issuance
    bytes. *)
Theorem flag_bits_roundtrip (txIn : Input.t) (rest : Buffer) :
  wf_input_body txIn ->
  (0 <= Input.index txIn < 2 ^ 30 -> ~ sentinel_collision txIn ->
   Z.testbit (wire_prevIndex txIn) 31 = has_issuance txIn /\
   Z.testbit (wire_prevIndex txIn) 30 = Input.isPegin txIn /\
   Z.land (wire_prevIndex txIn) OUTPOINT_INDEX_MASK = Input.index txIn /\
   input_roundtrip txIn rest = Ok (blank_in txIn, rest)) /\
  (Input.index txIn = MINUS_1 ->
   wire_prevIndex txIn = MINUS_1 /\
   input_roundtrip txIn rest =
     Ok (sentinel_read txIn,
         from_option wire_issuance [] (Input.issuance txIn) ++ rest)).
Proof.
  intros Hb. split.
  - intros Hi Hx.
    destruct (wire_prevIndex_bits txIn Hi) as (H31 & H30 & Hm).
    split_and?; try done.
    apply (input_read txIn (blank_in txIn) (wire_in txIn) []).
    + apply decodes_vin; [done|]. now left.
    + now rewrite app_nil_r.
  - intros Hi. split; [now apply wire_prevIndex_MINUS_1|].
    eapply input_read.
    + now apply decodes_vin_sentinel.
    + unfold wire_in. rewrite wire_prevIndex_MINUS_1 by done.
      now rewrite <- !app_assoc.
Qed.

(** ** The round trip of a transaction *)

Lemma wf_fixed_sizes (tx : Transaction) :
  wf_transaction tx -> Forall fixed_sizes (ins tx).
Proof.
  intros Hwf. eapply Forall_impl; [apply (wf_ins _ Hwf)|].
  intros x ([Hh _ _ Hi] & _). split; [done|].
  destruct (Input.issuance x); simpl in *; [|done].
  split; apply Hi.
Qed.

(** C1, amended.  For every well-formed transaction (members within the
    ranges and encodings of the data model, no sentinel collision) whose
    [flag] is 1, or is 0 with nothing to put in a witness suffix,
    deserializing the bytes that [toBuffer] produces yields the
    transaction itself, equal in every member. *)
Theorem roundtrip (garbage : nat -> byte) (tx : Transaction) :
  wf_transaction tx ->
  toBuffer garbage tx None None ≫= (fun buffer => fromBuffer buffer false) =
  Ok tx.
Proof.
  intros Hwf. unfold toBuffer.
  rewrite __toBuffer_fresh by (done || now apply wf_fixed_sizes).
  cbn [fmap result_fmap fst mbind result_bind].
  now apply fromBuffer_wire.
Qed.

(** ** The serializer's modes *)

(** C5, amended.  For every transaction with witnesses present, whose
    inputs have the fixed sizes of the data model, serializing with
    [_ALLOW_WITNESS] and [forceZeroFlag] both set writes a zero flag byte
    and still appends the whole witness suffix, the per-input and the
    per-output groups, after the locktime. *)
Theorem zero_flag_keeps_suffix (garbage : nat -> byte) (tx : Transaction) :
  Forall fixed_sizes (ins tx) -> hasWitnesses tx = true ->
  fst <$> __toBuffer garbage tx None None true true false =
  Ok (body_layout x00 tx ++ concat (wire_in_fields <$> ins tx) ++
      concat (wire_out_fields <$> outs tx)).
Proof.
  intros Hsz Hw. rewrite __toBuffer_fresh by done.
  cbn [fmap result_fmap fst]. f_equal.
  unfold wire, body_layout, wire_suffix. cbv zeta. rewrite Hw.
  cbn [andb negb]. now rewrite <- !app_assoc.
Qed.

Lemma zero_flag_counterexample :
  hasWitnesses example_tx = true /\
  fst <$> __toBuffer garbage0 example_tx None None true true false <>
  Ok (body_layout x00 example_tx).
Proof. split; [reflexivity|]. vm_compute. discriminate. Qed.

Lemma wire_signature (tx : Transaction) (a fz : bool) :
  wire tx a fz true =
  sig_layout (if a && hasWitnesses tx then wire_out_zero_value else wire_out)
    tx.
Proof.
  unfold wire, sig_layout. cbv zeta. cbn [andb negb app].
  now rewrite app_nil_r.
Qed.

Lemma writeSlice_prefix (bs buf : Buffer) :
  (length bs <= length buf)%nat ->
  BufferWriter.writeSlice bs (BufferWriter.new buf 0) =
  Ok (BufferWriter.mk (bs ++ drop (length bs) buf) (length bs) false).
Proof.
  intros Hlen. unfold BufferWriter.writeSlice, BufferWriter.new. simpl.
  now rewrite (proj2 (Nat.leb_le _ _)) by lia.
Qed.

(** C3, amended.  For every transaction that has witnesses and whose
    inputs have the fixed sizes of the data model, serializing with
    [forSignature] and with [_ALLOW_WITNESS] set, into a buffer with room
    for the result, writes each output as asset, one 0x00 byte in place of
    the value, nonce, eight zero bytes, and the script as a varslice; with
    [_ALLOW_WITNESS] unset, which is how [hashForSignature] calls the
    serializer, each output is written with its stored value and without
    the eight zero bytes. *)
Theorem signature_value_substitution (garbage : nat -> byte)
    (tx : Transaction) (forceZeroFlag : bool) :
  hasWitnesses tx = true -> Forall fixed_sizes (ins tx) ->
  (forall buffer : Buffer,
     (length (sig_layout wire_out_zero_value tx) <= length buffer)%nat ->
     fst <$> __toBuffer garbage tx (Some buffer) (Some 0%nat) true
               forceZeroFlag true =
     Ok (sig_layout wire_out_zero_value tx)) /\
  fst <$> __toBuffer garbage tx None None false forceZeroFlag true =
  Ok (sig_layout wire_out tx).
Proof.
  intros Hw Hsz. split.
  - intros buffer Hlen. rewrite __toBuffer_wire by (simpl; lia).
    rewrite wire_signature, Hw. cbn [andb default from_option id].
    rewrite (writeSlice_prefix (sig_layout wire_out_zero_value tx) buffer).
    2:{ lia. }
    cbn [mbind result_bind toBuffer_result fmap result_fmap fst
         BufferWriter.buffer BufferWriter.offset drop].
    f_equal. rewrite Nat.sub_0_r, drop_0. apply take_app_length.
  - rewrite __toBuffer_fresh by done. now rewrite wire_signature.
Qed.

(** ** The preimage of the legacy sighash *)

Lemma clone_id (tx : Transaction) : clone tx = tx.
Proof.
  destruct tx as [v l f i o].
  unfold clone, set_outs, set_ins, set_flag, set_locktime, set_version.
  cbn. f_equal.
  - induction i as [|x i IH]; [done|]. rewrite fmap_cons, IH.
    now destruct x.
  - induction o as [|x o IH]; [done|]. rewrite fmap_cons, IH.
    now destruct x.
Qed.

Lemma mapM_tmp_output_Kept (l : list Output.t) :
  mapM tmp_output (Kept <$> l) = Ok l.
Proof.
  induction l as [|x l IH]; [done|].
  rewrite fmap_cons. cbn [mapM tmp_output mbind result_bind].
  rewrite IH. reflexivity.
Qed.

Lemma fixed_sizes_set_script (s : Buffer) (txIn : Input.t) :
  fixed_sizes txIn -> fixed_sizes (Input.set_script s txIn).
Proof. now destruct txIn. Qed.

(** X1. With SIGHASH_ALL and without ANYONECANPAY, for an input index in
    range and a previous script that decompiles: the legacy digest is
    [hash256] of the serialization for a signature (version, counted
    inputs, counted outputs with their stored values, locktime; no flag
    byte and no witness suffix) of the transaction with every input script
    emptied but the one at [inIndex], which is the previous script
    without its OP_CODESEPARATORs, followed by the hash type in four
    little-endian bytes. *)
Lemma hashForSignature_preimage garbage hash256 decompile compile
    (tx : Transaction) (inIndex : Z) (prevOutScript : Buffer)
    (chunks : list Chunk) (hashType : Z) :
  decompile prevOutScript = Some chunks ->
  Forall fixed_sizes (ins tx) ->
  0 <= inIndex < Z.of_nat (length (ins tx)) -> inIndex < 2 ^ 32 ->
  - 2 ^ 31 <= hashType < 2 ^ 31 ->
  js_and hashType 0x1f <> SIGHASH_NONE ->
  js_and hashType 0x1f <> SIGHASH_SINGLE ->
  js_and hashType SIGHASH_ANYONECANPAY = 0 ->
  hashForSignature garbage hash256 decompile compile tx inIndex
    prevOutScript hashType =
  Ok (hash256
        (sig_layout wire_out
           (signed_view
              (compile (filter (fun x => not_codeseparator x = true)
                          chunks))
              (Z.to_nat inIndex) tx) ++
         le_bytes 4 hashType)).
Proof.
  intros Hscript Hsz Hidx Hu32 Hht Hnone Hsingle Hacp.
  unfold hashForSignature, typeforce, isUInt32.
  rewrite (proj2 (Z.leb_le 0 inIndex)), (proj2 (Z.ltb_lt inIndex (2 ^ 32)))
    by lia.
  cbn [andb mbind result_bind].
  rewrite (proj2 (Z.leb_gt _ _)) by lia.
  rewrite Hscript. cbn [mbind result_bind].
  rewrite (proj2 (Z.eqb_neq _ _) Hnone), (proj2 (Z.eqb_neq _ _) Hsingle).
  unfold truthy. rewrite Hacp. cbn [Z.eqb negb].
  rewrite clone_id. set (ourScript := compile _).
  destruct (lookup_lt_is_Some_2 (ins tx) (Z.to_nat inIndex)) as [txIn Hin];
    [lia|].
  unfold element. rewrite (proj2 (Z.ltb_ge _ _)) by lia.
  rewrite list_lookup_fmap, Hin.
  cbn [fmap option_fmap option_map mbind result_bind].
  rewrite mapM_tmp_output_Kept. cbn [mbind result_bind].
  set (txTmp := mkTransaction _ _ _ _ _).
  assert (HtxTmp : txTmp = signed_view ourScript (Z.to_nat inIndex) tx).
  { subst txTmp. unfold signed_view, set_ins. f_equal.
    apply list_eq. intros i.
    destruct (decide (i = Z.to_nat inIndex)) as [->|Hne].
    - rewrite list_lookup_insert_eq
        by (rewrite length_fmap; apply lookup_lt_is_Some; eauto).
      rewrite list_lookup_alter_eq, list_lookup_fmap, Hin. simpl.
      now destruct txIn.
    - rewrite list_lookup_insert_ne by done.
      now rewrite list_lookup_alter_ne by done. }
  rewrite HtxTmp. clear txTmp HtxTmp.
  set (txTmp := signed_view _ _ _).
  assert (HszTmp : Forall fixed_sizes (ins txTmp)).
  { subst txTmp. unfold signed_view. cbn [ins set_ins].
    apply Forall_alter; [|intros; now apply fixed_sizes_set_script].
    apply Forall_fmap. eapply Forall_impl; [exact Hsz|].
    intros; now apply fixed_sizes_set_script. }
  rewrite <- (len_wire txTmp false true true HszTmp eq_refl).
  rewrite wire_signature. cbn [andb].
  set (payload := sig_layout wire_out txTmp).
  set (buf := Buffer_allocUnsafe garbage (len payload + 4)).
  assert (Hbuf : length buf = (length payload + 4)%nat).
  { subst buf. rewrite length_allocUnsafe. unfold len. lia. }
  unfold Buffer_writeInt32LE.
  rewrite (proj2 (Z.leb_le (- 2 ^ 31) hashType)),
    (proj2 (Z.ltb_lt hashType (2 ^ 31))) by lia.
  replace (len buf - 4) with (len payload) by (unfold len; lia).
  rewrite (proj2 (Z.leb_le 0 (len payload))),
    (proj2 (Z.leb_le (len payload + 4) (len buf))) by (unfold len; lia).
  cbn [andb mbind result_bind].
  unfold len at 1 2. rewrite Nat2Z.id.
  rewrite (drop_ge buf) by lia. rewrite app_nil_r.
  rewrite __toBuffer_wire by (cbn [default from_option id]; lia).
  rewrite wire_signature. cbn [andb default from_option id]. fold payload.
  rewrite writeSlice_prefix
    by (rewrite length_app, length_take, length_le_bytes; lia).
  cbn [mbind result_bind toBuffer_result BufferWriter.buffer].
  do 2 f_equal. f_equal.
  rewrite drop_app_ge by (rewrite length_take; lia).
  rewrite length_take, Nat.min_l by lia.
  now rewrite Nat.sub_diag.
Qed.

(** ** The public size *)

(** The part of the size claim that holds: a serialization into a buffer
    of its own is as long as the private [__byteLength] says, for both
    values of [_ALLOW_WITNESS]; the public [byteLength] agrees with it
    only for [true]. *)
Lemma serialization_length (garbage : nat -> byte) (tx : Transaction)
    (_ALLOW_WITNESS forceZeroFlag : bool) :
  Forall fixed_sizes (ins tx) ->
  len <$> (fst <$> __toBuffer garbage tx None None _ALLOW_WITNESS
                     forceZeroFlag false) =
  Ok (__byteLength tx _ALLOW_WITNESS false).
Proof.
  intros Hsz. rewrite __toBuffer_fresh by done.
  cbn [fmap result_fmap fst]. now rewrite len_wire.
Qed.

Lemma byteLength_true (tx : Transaction) (_ALLOW_WITNESS : bool) :
  byteLength tx _ALLOW_WITNESS = __byteLength tx true false.
Proof. unfold byteLength. now rewrite orb_true_r. Qed.

(** C2, at the failing input.  The public [byteLength] passes
    [_ALLOW_WITNESS || true] on, so it measures the serialization with
    witnesses whatever its argument: for the sample transaction the
    serialization without witnesses is 173 bytes long and
    [byteLength(false)] is 182. *)
Theorem byteLength_ignores_argument (garbage : nat -> byte) :
  len <$> (fst <$> __toBuffer garbage example_tx None None false false false)
    = Ok 173 /\
  byteLength example_tx false = 182.
Proof. split; reflexivity. Qed.

(** ** The length check of the taproot sighash *)

Lemma hashForWitnessV1_scripts_mismatch sha256 taggedHash tx inIndex
    prevOutScripts prevoutAssetsValues hashType genesisBlockHash leafHash
    annex :
  0 <= inIndex < 2 ^ 32 -> 0 <= hashType < 2 ^ 32 ->
  length prevOutScripts <> length (ins tx) ->
  hashForWitnessV1 sha256 taggedHash tx inIndex prevOutScripts
    prevoutAssetsValues hashType genesisBlockHash leafHash annex =
  Err MismatchedPrevouts.
Proof.
  intros Hi Hh Hne. unfold hashForWitnessV1, typeforce, isUInt32.
  rewrite !(proj2 (Z.leb_le 0 _)), !(proj2 (Z.ltb_lt _ (2 ^ 32))) by lia.
  cbn [andb mbind result_bind].
  now rewrite (proj2 (Nat.eqb_neq _ _)).
Qed.

(** C4, at the failing input.  The length check of [hashForWitnessV1]
    looks at [prevOutScripts] only: with one input, one script and no
    entry in [prevoutAssetsValues], the call returns a digest. *)
Theorem hashForWitnessV1_values_unchecked
    (sha256 : Buffer -> Buffer)
    (taggedHash : String.string -> Buffer -> Buffer) :
  length ([] : list AssetValue.t) <> length (ins example_tx) /\
  is_Ok (hashForWitnessV1 sha256 taggedHash example_tx 0 [[x51]] []
           SIGHASH_DEFAULT (replicate 32 x00) None None) = true.
Proof. split; [discriminate|reflexivity]. Qed.

(** ** The legacy sighash edits only its clone *)

Section Frame.

Variable h0 : gmap loc HeapObject.

Lemma Priv_refl : Priv h0 h0.
Proof.
  split; [done|]. intros l o Hl Ho. unfold fresh_in in Hl. congruence.
Qed.

Lemma safe_ret {A} (a : A) (post : A -> Prop) : post a -> safe h0 (mret a) post.
Proof. intros Hp h Hh. split; [done|]. now intros a' [= <-]. Qed.

Lemma safe_throw {A} (e : Error) (post : A -> Prop) : safe h0 (throw e) post.
Proof. intros h Hh. split; [done|]. intros a. discriminate. Qed.

Lemma safe_lift {A} (r : result A) : safe h0 (lift r) (fun a => r = Ok a).
Proof. intros h Hh. split; [done|]. now intros a. Qed.

Lemma safe_bind {A B} (m : M A) (k : A -> M B) (P : A -> Prop)
    (Q : B -> Prop) :
  safe h0 m P -> (forall a, P a -> safe h0 (k a) Q) -> safe h0 (m ≫= k) Q.
Proof.
  intros Hm Hk h Hh. destruct (Hm h Hh) as [Hh' Hp].
  unfold mbind, M_bind. destruct (m h) as [[a|e] h']; simpl in *.
  - now apply (Hk a (Hp a eq_refl)).
  - split; [done|]. intros a. discriminate.
Qed.

Lemma safe_weaken {A} (m : M A) (P Q : A -> Prop) :
  safe h0 m P -> (forall a, P a -> Q a) -> safe h0 m Q.
Proof.
  intros Hm HPQ h Hh. destruct (Hm h Hh) as [Hh' Hp]. split; [done|].
  intros a Ha. auto.
Qed.

Lemma Priv_insert h l o :
  Priv h0 h -> fresh_in h0 l -> private_ok h0 o -> Priv h0 (<[l := o]> h).
Proof.
  intros [Hsub Hpriv] Hl Ho. split.
  - apply insert_subseteq_r; done.
  - intros l' o' Hl'. destruct (decide (l = l')) as [->|Hne].
    + rewrite lookup_insert_eq. now intros [= <-].
    + rewrite lookup_insert_ne by done. now apply Hpriv.
Qed.

Lemma safe_alloc (o : HeapObject) :
  private_ok h0 o -> safe h0 (alloc o) (fresh_in h0).
Proof.
  intros Ho h Hh. unfold alloc. cbn [fst snd].
  assert (Hl : fresh_in h0 (fresh (dom h))).
  { unfold fresh_in. destruct (h0 !! fresh (dom h)) as [o'|] eqn:E; [|done].
    destruct Hh as [Hsub _].
    pose proof (lookup_weaken _ _ _ _ E Hsub) as E'.
    exfalso. apply (is_fresh (dom h)). apply elem_of_dom. eauto. }
  split; [now apply Priv_insert|]. now intros a [= <-].
Qed.

Lemma safe_store (l : loc) (o : HeapObject) :
  fresh_in h0 l -> private_ok h0 o -> safe h0 (store l o) (fun _ => True).
Proof.
  intros Hl Ho h Hh. unfold store. cbn [fst snd].
  split; [now apply Priv_insert|]. done.
Qed.

Lemma safe_load (l : loc) :
  safe h0 (load l) (fun o => fresh_in h0 l -> private_ok h0 o).
Proof.
  intros h Hh. unfold load. destruct (h !! l) as [o|] eqn:E; cbn [fst snd].
  - split; [done|]. intros a [= <-] Hl. destruct Hh as [_ Hp]. eauto.
  - split; [done|]. intros a. discriminate.
Qed.

Lemma safe_load_Buffer (l : loc) : safe h0 (load_Buffer l) (fun _ => True).
Proof.
  eapply safe_bind; [apply safe_load|]. intros [] _;
    (apply safe_ret || apply safe_throw); done.
Qed.

Lemma safe_load_Issuance (l : loc) :
  safe h0 (load_Issuance l) (fun _ => True).
Proof.
  eapply safe_bind; [apply safe_load|]. intros [] _;
    (apply safe_ret || apply safe_throw); done.
Qed.

Lemma safe_load_Input (l : loc) : safe h0 (load_Input l) (fun _ => True).
Proof.
  eapply safe_bind; [apply safe_load|]. intros [] _;
    (apply safe_ret || apply safe_throw); done.
Qed.

Lemma safe_load_Output (l : loc) : safe h0 (load_Output l) (fun _ => True).
Proof.
  eapply safe_bind; [apply safe_load|]. intros [] _;
    (apply safe_ret || apply safe_throw); done.
Qed.

Lemma safe_load_Outputs (l : loc) : safe h0 (load_Outputs l) (fun _ => True).
Proof.
  eapply safe_bind; [apply safe_load|]. intros [] _;
    (apply safe_ret || apply safe_throw); done.
Qed.

Lemma safe_load_Inputs (l : loc) :
  safe h0 (load_Inputs l)
    (fun elements => fresh_in h0 l -> Forall (fresh_in h0) elements).
Proof.
  eapply safe_bind; [apply safe_load|]. intros [] Ho;
    (apply safe_ret || apply safe_throw); done.
Qed.

Lemma safe_load_Transaction (l : loc) :
  safe h0 (load_Transaction l)
    (fun t => fresh_in h0 l ->
              fresh_in h0 (RefTransaction.ins t) /\
              fresh_in h0 (RefTransaction.outs t)).
Proof.
  eapply safe_bind; [apply safe_load|]. intros [] Ho;
    (apply safe_ret || apply safe_throw); done.
Qed.

Lemma safe_update_Transaction (l : loc) f :
  fresh_in h0 l ->
  (forall t, private_ok h0 (HTransaction t) ->
             private_ok h0 (HTransaction (f t))) ->
  safe h0 (update_Transaction l f) (fun _ => True).
Proof.
  intros Hl Hf. eapply safe_bind; [apply safe_load_Transaction|].
  intros t Ht. apply safe_store; [done|]. apply Hf. now apply Ht.
Qed.

Lemma safe_update_Input (l : loc) f :
  fresh_in h0 l -> safe h0 (update_Input l f) (fun _ => True).
Proof.
  intros Hl. eapply safe_bind; [apply safe_load_Input|].
  intros t _. now apply safe_store.
Qed.

Lemma safe_h_map {A B} (f : A -> M B) (P : B -> Prop) (xs : list A) :
  (forall x, safe h0 (f x) P) -> safe h0 (h_map f xs) (Forall P).
Proof.
  intros Hf. induction xs as [|x xs IH]; simpl.
  - now apply safe_ret.
  - eapply safe_bind; [apply Hf|]. intros y Hy.
    eapply safe_bind; [apply IH|]. intros ys Hys.
    apply safe_ret. now constructor.
Qed.

Lemma safe_h_forEach {A} (f : nat -> A -> M unit) (R : A -> Prop)
    (i : nat) (xs : list A) :
  (forall i x, R x -> safe h0 (f i x) (fun _ => True)) ->
  Forall R xs -> safe h0 (h_forEach f i xs) (fun _ => True).
Proof.
  intros Hf Hxs. revert i. induction Hxs as [|x xs Hx _ IH]; intros i; simpl.
  - now apply safe_ret.
  - eapply safe_bind; [now apply Hf|]. intros _ _. apply IH.
Qed.

Lemma safe_h_for_range (n i : nat) (body : nat -> M unit) :
  (forall i, safe h0 (body i) (fun _ => True)) ->
  safe h0 (h_for_range n i body) (fun _ => True).
Proof.
  intros Hb. revert i. induction n as [|n IH]; intros i; simpl.
  - now apply safe_ret.
  - eapply safe_bind; [apply Hb|]. intros _ _. apply IH.
Qed.

Lemma safe_h_new_Transaction : safe h0 h_new_Transaction (fresh_in h0).
Proof.
  eapply safe_bind; [apply safe_alloc; now constructor|]. intros a Ha.
  eapply safe_bind; [now apply safe_alloc|]. intros b Hb.
  now apply safe_alloc.
Qed.

Lemma safe_h_clone (this : loc) : safe h0 (h_clone this) (fresh_in h0).
Proof.
  eapply safe_bind; [apply safe_h_new_Transaction|]. intros newTx HnewTx.
  eapply safe_bind; [apply safe_load_Transaction|]. intros tx _.
  eapply safe_bind; [now apply safe_update_Transaction|]. intros _ _.
  eapply safe_bind; [now apply safe_update_Transaction|]. intros _ _.
  eapply safe_bind; [now apply safe_update_Transaction|]. intros _ _.
  eapply safe_bind; [apply safe_load_Inputs|]. intros txIns _.
  eapply safe_bind.
  { apply (safe_h_map _ (fresh_in h0)). intros l.
    eapply safe_bind; [apply safe_load_Input|]. intros txIn _.
    now apply safe_alloc. }
  intros newIns HnewIns.
  eapply safe_bind; [now apply safe_alloc|]. intros insArr HinsArr.
  eapply safe_bind.
  { apply safe_update_Transaction; [done|]. now intros t [_ Ho]. }
  intros _ _.
  eapply safe_bind; [apply safe_load_Outputs|]. intros txOuts _.
  eapply safe_bind.
  { apply (safe_h_map _ (fresh_in h0)). intros l.
    eapply safe_bind; [apply safe_load_Output|]. intros txOut _.
    now apply safe_alloc. }
  intros newOuts _.
  eapply safe_bind; [now apply safe_alloc|]. intros outsArr HoutsArr.
  eapply safe_bind.
  { apply safe_update_Transaction; [done|]. now intros t [Hi _]. }
  intros _ _. now apply safe_ret.
Qed.

End Frame.

Section FrameSignatureHash.

Variable h0 : gmap loc HeapObject.
Variable G : Globals.
Variable garbage : nat -> byte.
Variable hash256 : Buffer -> Buffer.
Variable decompile : Buffer -> option (list Chunk).
Variable compile : list Chunk -> Buffer.

Ltac safe_read lem := eapply safe_bind; [apply lem|]; intros ? _.

Lemma safe_view_input (l : loc) : safe h0 (view_input l) (fun _ => True).
Proof.
  unfold view_input.
  safe_read safe_load_Input. safe_read safe_load_Buffer.
  safe_read safe_load_Buffer.
  eapply safe_bind with (P := fun _ => True).
  - destruct (RefInput.issuance _); [|now apply safe_ret].
    eapply safe_bind; [apply safe_load_Issuance|]. intros [[[l1 l2] l3] l4] _.
    do 4 safe_read safe_load_Buffer. now apply safe_ret.
  - intros ? _. now apply safe_ret.
Qed.

Lemma safe_view_output (l : loc) : safe h0 (view_output l) (fun _ => True).
Proof.
  unfold view_output.
  safe_read safe_load_Output. safe_read safe_load_Buffer.
  eapply safe_bind with (P := fun _ => True).
  - destruct (RefOutput.value _); [apply safe_load_Buffer|apply safe_throw].
  - intros ? _. do 2 safe_read safe_load_Buffer. now apply safe_ret.
Qed.

Lemma safe_view_transaction (l : loc) :
  safe h0 (view_transaction l) (fun _ => True).
Proof.
  unfold view_transaction.
  safe_read safe_load_Transaction. safe_read safe_load_Inputs.
  eapply safe_bind;
    [apply (safe_h_map h0 _ (fun _ => True)), safe_view_input|].
  intros ? _. safe_read safe_load_Outputs.
  eapply safe_bind;
    [apply (safe_h_map h0 _ (fun _ => True)), safe_view_output|].
  intros ? _. now apply safe_ret.
Qed.

Lemma safe_h_zero_other_sequences (txTmp : loc) (inIndex : Z) :
  fresh_in h0 txTmp ->
  safe h0 (h_zero_other_sequences txTmp inIndex) (fun _ => True).
Proof.
  intros Htmp. unfold h_zero_other_sequences.
  eapply safe_bind; [apply safe_load_Transaction|]. intros t Ht.
  destruct (Ht Htmp) as [Hins _].
  eapply safe_bind; [apply safe_load_Inputs|]. intros txIns Hel.
  apply (safe_h_forEach h0 _ (fresh_in h0)); [|now apply Hel].
  intros i x Hx. destruct (Z.of_nat i =? inIndex).
  - now apply safe_ret.
  - now apply safe_update_Input.
Qed.

Lemma safe_h_serialize_and_hash (txTmp : loc) (hashType : Z) :
  safe h0 (h_serialize_and_hash garbage hash256 txTmp hashType)
    (fun _ => True).
Proof.
  unfold h_serialize_and_hash.
  safe_read safe_view_transaction.
  eapply safe_bind; [apply safe_alloc; exact I|]. intros buffer Hbuffer.
  safe_read safe_load_Buffer.
  eapply safe_bind; [apply safe_lift|]. intros ? _.
  eapply safe_bind; [now apply safe_store|]. intros _ _.
  safe_read safe_load_Buffer.
  eapply safe_bind; [apply safe_lift|]. intros [? ?] _.
  eapply safe_bind; [now apply safe_store|]. intros _ _.
  safe_read safe_load_Buffer.
  eapply safe_weaken; [apply safe_alloc; exact I|done].
Qed.

Lemma safe_element_fresh (txIns : list loc) (i : Z) :
  Forall (fresh_in h0) txIns ->
  safe h0 (lift (element txIns i)) (fresh_in h0).
Proof.
  intros Hf. eapply safe_weaken; [apply safe_lift|].
  intros l. unfold element. destruct (i <? 0); [done|].
  destruct (txIns !! Z.to_nat i) as [l'|] eqn:E; [|done].
  intros [= <-]. eapply Forall_lookup_1; eauto.
Qed.

Lemma safe_h_hashForSignature (this : loc) (inIndex : Z)
    (prevOutScript : loc) (hashType : Z) :
  safe h0
    (h_hashForSignature G garbage hash256 decompile compile this inIndex
       prevOutScript hashType)
    (fun _ => True).
Proof.
  unfold h_hashForSignature.
  eapply safe_bind; [apply safe_lift|]. intros _ _.
  safe_read safe_load_Buffer.
  safe_read safe_load_Transaction. safe_read safe_load_Inputs.
  destruct (_ <=? inIndex); [now apply safe_ret|].
  eapply safe_bind; [apply safe_lift|]. intros chunks _.
  eapply safe_bind; [apply safe_alloc; exact I|]. intros ourScript _.
  eapply safe_bind; [apply safe_h_clone|]. intros txTmp Htmp.
  cbv zeta.
  match goal with
  | |- context [if js_and hashType 31 =? SIGHASH_NONE then _ else
                if _ then _ else ?c] =>
      assert (Hcont : safe h0 c (fun _ => True))
  end.
  { eapply safe_bind with (P := fun _ => True);
      [|intros _ _; apply safe_h_serialize_and_hash].
    destruct (truthy _).
    - eapply safe_bind; [apply safe_load_Transaction|]. intros t Ht.
      destruct (Ht Htmp) as [Hins _].
      eapply safe_bind; [apply safe_load_Inputs|]. intros txIns Hel.
      eapply safe_bind; [apply safe_element_fresh; auto|]. intros input Hin.
      eapply safe_bind; [apply safe_alloc; now repeat constructor|].
      intros newIns HnewIns.
      eapply safe_bind.
      { apply safe_update_Transaction; [done|]. now intros t' [_ Ho]. }
      intros _ _.
      eapply safe_bind; [apply safe_load_Transaction|]. intros t' Ht'.
      destruct (Ht' Htmp) as [Hins' _].
      eapply safe_bind; [apply safe_load_Inputs|]. intros txIns' Hel'.
      eapply safe_bind; [apply safe_element_fresh; auto|]. intros input' Hin'.
      now apply safe_update_Input.
    - eapply safe_bind; [apply safe_load_Transaction|]. intros t Ht.
      destruct (Ht Htmp) as [Hins _].
      eapply safe_bind; [apply safe_load_Inputs|]. intros txIns Hel.
      eapply safe_bind.
      { apply (safe_h_forEach h0 _ (fresh_in h0)); [|now apply Hel].
        intros i x Hx. now apply safe_update_Input. }
      intros _ _.
      eapply safe_bind; [apply safe_load_Transaction|]. intros t' Ht'.
      destruct (Ht' Htmp) as [Hins' _].
      eapply safe_bind; [apply safe_load_Inputs|]. intros txIns' Hel'.
      eapply safe_bind; [apply safe_element_fresh; auto|]. intros input' Hin'.
      now apply safe_update_Input. }
  destruct (_ =? SIGHASH_NONE).
  { eapply safe_bind; [now apply safe_alloc|]. intros newOuts HnewOuts.
    eapply safe_bind.
    { apply safe_update_Transaction; [done|]. now intros t' [Hi _]. }
    intros _ _.
    eapply safe_bind; [now apply safe_h_zero_other_sequences|]. intros _ _.
    exact Hcont. }
  destruct (_ =? SIGHASH_SINGLE); [|exact Hcont].
  safe_read safe_load_Outputs.
  destruct (_ <=? inIndex); [now apply safe_ret|].
  eapply safe_bind; [apply safe_load_Transaction|]. intros t Ht.
  destruct (Ht Htmp) as [_ Houts].
  safe_read safe_load_Outputs.
  eapply safe_bind; [now apply safe_store|]. intros _ _.
  eapply safe_bind.
  { apply safe_h_for_range. intros i.
    eapply safe_bind; [apply safe_load_Transaction|]. intros t' Ht'.
    destruct (Ht' Htmp) as [_ Houts'].
    safe_read safe_load_Outputs. now apply safe_store. }
  intros _ _.
  eapply safe_bind; [now apply safe_h_zero_other_sequences|]. intros _ _.
  exact Hcont.
Qed.

End FrameSignatureHash.

Lemma reads_ret {A} (a : A) : reads (mret a).
Proof. intros h a' [= <-]. split; [done|]. now intros h' _. Qed.

Lemma reads_throw {A} (e : Error) : reads (throw e : M A).
Proof. intros h a. discriminate. Qed.

Lemma reads_load (l : loc) : reads (load l).
Proof.
  intros h o. unfold load. destruct (h !! l) as [o'|] eqn:E; [|discriminate].
  intros [= <-]. split; [done|]. intros h' Hsub.
  now rewrite (lookup_weaken _ _ _ _ E Hsub).
Qed.

Lemma reads_bind {A B} (m : M A) (k : A -> M B) :
  reads m -> (forall a, reads (k a)) -> reads (m ≫= k).
Proof.
  intros Hm Hk h b. unfold mbind, M_bind.
  destruct (m h) as [[a|e] h1] eqn:E; [|discriminate]. intros Hb.
  destruct (Hm h a) as [Hh1 Hm']; [now rewrite E|].
  rewrite E in Hh1. simpl in Hh1. subst h1.
  destruct (Hk a h b Hb) as [Hh2 Hk']. split; [done|].
  intros h' Hsub. rewrite (Hm' h' Hsub). now apply Hk'.
Qed.

Lemma reads_h_map {A B} (f : A -> M B) (xs : list A) :
  (forall x, reads (f x)) -> reads (h_map f xs).
Proof.
  intros Hf. induction xs as [|x xs IH]; simpl; [apply reads_ret|].
  apply reads_bind; [done|]. intros y.
  apply reads_bind; [done|]. intros ys. apply reads_ret.
Qed.

Ltac reads_typed :=
  apply reads_bind; [apply reads_load|];
  intros []; (apply reads_ret || apply reads_throw).

Lemma reads_load_Buffer (l : loc) : reads (load_Buffer l).
Proof. reads_typed. Qed.
Lemma reads_load_Buffers (l : loc) : reads (load_Buffers l).
Proof. reads_typed. Qed.
Lemma reads_load_Issuance (l : loc) : reads (load_Issuance l).
Proof. reads_typed. Qed.
Lemma reads_load_Input (l : loc) : reads (load_Input l).
Proof. reads_typed. Qed.
Lemma reads_load_Inputs (l : loc) : reads (load_Inputs l).
Proof. reads_typed. Qed.
Lemma reads_load_Output (l : loc) : reads (load_Output l).
Proof. reads_typed. Qed.
Lemma reads_load_Outputs (l : loc) : reads (load_Outputs l).
Proof. reads_typed. Qed.
Lemma reads_load_Transaction (l : loc) : reads (load_Transaction l).
Proof. reads_typed. Qed.

Lemma reads_load_member (l : option loc) : reads (load_member l).
Proof. destruct l; [apply reads_load_Buffer|apply reads_throw]. Qed.

Lemma reads_h_get_Buffers (l : loc) : reads (h_get_Buffers l).
Proof.
  apply reads_bind; [apply reads_load_Buffers|]. intros e.
  apply reads_h_map, reads_load_Buffer.
Qed.

Ltac reads_step lem := apply reads_bind; [apply lem|]; intros ?.

Lemma reads_h_get_Input (l : loc) : reads (h_get_Input l).
Proof.
  unfold h_get_Input.
  reads_step reads_load_Input. reads_step reads_load_Buffer.
  reads_step reads_load_Buffer. reads_step reads_h_get_Buffers.
  apply reads_bind.
  { destruct (RefInput.issuance _); [|apply reads_ret].
    apply reads_bind; [apply reads_load_Issuance|]. intros [[[l1 l2] l3] l4].
    do 4 reads_step reads_load_Buffer. apply reads_ret. }
  intros ?. reads_step reads_h_get_Buffers.
  do 2 reads_step reads_load_Buffer. apply reads_ret.
Qed.

Lemma reads_h_get_Output (l : loc) : reads (h_get_Output l).
Proof.
  unfold h_get_Output.
  reads_step reads_load_Output. reads_step reads_load_Buffer.
  reads_step reads_load_member. do 2 reads_step reads_load_Buffer.
  do 2 reads_step reads_load_member. apply reads_ret.
Qed.

Lemma reads_h_get_Transaction (l : loc) : reads (h_get_Transaction l).
Proof.
  unfold h_get_Transaction.
  reads_step reads_load_Transaction. reads_step reads_load_Inputs.
  apply reads_bind; [apply reads_h_map, reads_h_get_Input|]. intros ?.
  reads_step reads_load_Outputs.
  apply reads_bind; [apply reads_h_map, reads_h_get_Output|]. intros ?.
  apply reads_ret.
Qed.

(** C9. For every store, every transaction [this] in it and every
    argument triple, a call of [hashForSignature] leaves each object that
    the store held before the call exactly as it was, whether the call
    returns or throws, so that the value read from [this] after the call
    is the value read before it: the dropping and blanking of outputs, the
    zeroing of sequences and the replacing of input scripts all land on
    objects made by [clone] or after it, although the clone's inputs and
    outputs refer to the buffers of the original. *)
Theorem hashForSignature_frame (G : Globals) (garbage : nat -> byte)
    (hash256 : Buffer -> Buffer)
    (decompile : Buffer -> option (list Chunk))
    (compile : list Chunk -> Buffer) (h : gmap loc HeapObject)
    (this : loc) (inIndex : Z) (prevOutScript : loc) (hashType : Z) :
  let h' := (h_hashForSignature G garbage hash256 decompile compile this
               inIndex prevOutScript hashType h).2 in
  h ⊆ h' /\
  forall tx, (h_get_Transaction this h).1 = Ok tx ->
             (h_get_Transaction this h').1 = Ok tx.
Proof.
  intros h'.
  assert (Hsub : h ⊆ h').
  { apply (safe_h_hashForSignature h G garbage hash256 decompile compile this
             inIndex prevOutScript hashType h (Priv_refl h)). }
  split; [exact Hsub|]. intros tx Htx.
  destruct (reads_h_get_Transaction this h tx Htx) as [_ Hmono].
  now rewrite (Hmono h' Hsub).
Qed.

(** ** The theorems at sample values *)

Example flag_unset_tx_built :
  (addInput new_Transaction (replicate 32 x11) 0 None None None ≫=
   fun '(tx, _) => setWitness tx 0 [[x01]]) = Ok flag_unset_tx.
Proof. reflexivity. Qed.

Lemma roundtrip_counterexample :
  toBuffer garbage0 flag_unset_tx None None ≫=
    (fun buffer => fromBuffer buffer false) = Ok (set_flag 1 flag_unset_tx) /\
  set_flag 1 flag_unset_tx <> flag_unset_tx.
Proof. split; [reflexivity|discriminate]. Qed.

Lemma wf_example_tx : wf_transaction example_tx.
Proof.
  constructor; simpl; try lia.
  - repeat constructor; simpl; try lia; try reflexivity;
      try (unfold is_varslice; simpl; lia).
    intros (H & _). discriminate H.
  - repeat constructor; simpl; try reflexivity;
      unfold is_varslice; simpl; lia.
Defined.

Lemma roundtrip_witness :
  wf_transaction example_tx /\
  toBuffer garbage0 example_tx None None ≫=
    (fun buffer => fromBuffer buffer false) = Ok example_tx.
Proof.
  split; [exact wf_example_tx|].
  exact (roundtrip garbage0 example_tx wf_example_tx).
Defined.

Lemma fixed_sizes_example_tx : Forall fixed_sizes (ins example_tx).
Proof. repeat constructor. Defined.

Lemma zero_flag_keeps_suffix_witness :
  fst <$> __toBuffer garbage0 example_tx None None true true false =
  Ok (body_layout x00 example_tx ++
      concat (wire_in_fields <$> ins example_tx) ++
      concat (wire_out_fields <$> outs example_tx)).
Proof.
  exact (zero_flag_keeps_suffix garbage0 example_tx fixed_sizes_example_tx
           eq_refl).
Defined.

Lemma legacy_sighash_keeps_value :
  hasWitnesses example_tx = true /\
  hashForSignature garbage0 (fun b => b) sample_decompile sample_compile
    example_tx 0 [] SIGHASH_ALL =
  Ok (sig_layout wire_out example_tx_for_signature ++
      le_bytes 4 SIGHASH_ALL) /\
  sig_layout wire_out example_tx_for_signature <>
  sig_layout wire_out_zero_value example_tx_for_signature.
Proof.
  split; [reflexivity|]. split; [reflexivity|]. vm_compute. discriminate.
Qed.

Lemma signature_value_substitution_witness :
  (forall buffer : Buffer,
     (length (sig_layout wire_out_zero_value example_tx) <=
      length buffer)%nat ->
     fst <$> __toBuffer garbage0 example_tx (Some buffer) (Some 0%nat) true
               false true =
     Ok (sig_layout wire_out_zero_value example_tx)) /\
  fst <$> __toBuffer garbage0 example_tx None None false false true =
  Ok (sig_layout wire_out example_tx).
Proof.
  exact (signature_value_substitution garbage0 example_tx false eq_refl
           fixed_sizes_example_tx).
Defined.



Lemma coinbase_wtxid_witness :
  getHash garbage0 (fun b => b) coinbase_tx true = Ok (replicate 32 x00).
Proof.
  exact (coinbase_wtxid garbage0 (fun b => b) coinbase_tx _ eq_refl eq_refl).
Defined.

Lemma flag_bits_counterexample :
  0 <= Input.index collision_input < 2 ^ 30 /\
  wf_input_body collision_input /\
  input_roundtrip collision_input [] =
    Ok (sentinel_read collision_input, wire_issuance example_issuance) /\
  Input.index (sentinel_read collision_input) <> Input.index collision_input /\
  Input.isPegin (sentinel_read collision_input) <>
    Input.isPegin collision_input /\
  Input.issuance (sentinel_read collision_input) <>
    Input.issuance collision_input.
Proof.
  split; [simpl; lia|]. split.
  - constructor; simpl; try lia; try reflexivity;
      try (unfold is_varslice; simpl; lia).
    constructor; reflexivity.
  - split; [reflexivity|]. repeat split; discriminate.
Qed.

Lemma wf_example_input : wf_input_body example_input.
Proof.
  constructor; simpl; try lia; try reflexivity;
      try (unfold is_varslice; simpl; lia).
  constructor; reflexivity.
Defined.

Lemma flag_bits_roundtrip_witness :
  Z.testbit (wire_prevIndex example_input) 31 = true /\
  Z.testbit (wire_prevIndex example_input) 30 = true /\
  input_roundtrip example_input [x00] = Ok (blank_in example_input, [x00]) /\
  input_roundtrip (sentinel_read example_input) [x00] =
    Ok (sentinel_read example_input, [x00]).
Proof.
  pose proof (flag_bits_roundtrip example_input [x00] wf_example_input)
    as [H _].
  assert (Hi : 0 <= Input.index example_input < 2 ^ 30) by (simpl; lia).
  assert (Hx : ~ sentinel_collision example_input)
    by (intros (E & _); discriminate E).
  destruct (H Hi Hx) as (H31 & H30 & _ & Hrt).
  split; [exact H31|]. split; [exact H30|]. split; [exact Hrt|].
  assert (Hs : wf_input_body (sentinel_read example_input)).
  { constructor; simpl; try lia; try reflexivity;
      try (unfold is_varslice; simpl; lia). }
  exact (proj2 (proj2 (flag_bits_roundtrip (sentinel_read example_input)
                         [x00] Hs) eq_refl)).
Defined.

Lemma addInput_sequence_witness :
  exists txIn,
    addInput new_Transaction (replicate 32 x11) 0 (Some 0) None None =
      Ok (set_ins [txIn] new_Transaction, 0) /\
    Input.sequence txIn = 0xffffffff.
Proof.
  destruct (addInput_sequence new_Transaction (replicate 32 x11) 0 0 None
              None) as (txIn & Hadd & Hseq & _).
  - reflexivity.
  - lia.
  - lia.
  - right. left. reflexivity.
  - exists txIn. split; [exact Hadd|exact Hseq].
Defined.

(** ** The store model on a sample *)

Example sample_store_made :
  sample_store.1 = Ok (sample_globals, sample_this, sample_script) /\
  (h_get_Transaction sample_this sample_store.2).1 = Ok two_input_tx.
Proof. split; vm_compute; reflexivity. Qed.

Lemma hashForSignature_frame_witness :
  (h_get_Transaction sample_this sample_store.2).1 = Ok two_input_tx /\
  (h_get_Transaction sample_this
     (h_hashForSignature sample_globals garbage0 (fun b => b)
        sample_decompile sample_compile sample_this 0 sample_script
        SIGHASH_NONE sample_store.2).2).1 = Ok two_input_tx.
Proof.
  assert (H : (h_get_Transaction sample_this sample_store.2).1 =
              Ok two_input_tx) by (vm_compute; reflexivity).
  split; [exact H|].
  exact (proj2 (hashForSignature_frame sample_globals garbage0 (fun b => b)
                  sample_decompile sample_compile sample_store.2 sample_this
                  0 sample_script SIGHASH_NONE) two_input_tx H).
Defined.

(** The run on the store returns the digest of the value-level function,
    for each of the six combinations of output and input mode. *)

Example sample_run_agrees :
  Forall (fun hashType =>
            (sample_run hashType).1 =
            hashForSignature garbage0 (fun b => b) sample_decompile
              sample_compile two_input_tx 0 [x51; xab; x52] hashType)
         [0x01; 0x02; 0x03; 0x81; 0x82; 0x83].
Proof. repeat constructor. Qed.

(** After a SIGHASH_NONE run for input 0, the second input of the original
    (object 18) is as it was, and its copy in the clone (object 35, new)
    has the sequence 0 and the empty script. *)
Example sample_clone_edited :
  (sample_run SIGHASH_NONE).2 !! 18%positive = sample_store.2 !! 18%positive /\
  sample_store.2 !! 35%positive = None /\
  RefInput.sequence <$> input_at sample_store.2 18 = Some 8 /\
  input_at (sample_run SIGHASH_NONE).2 35 =
    (fun orig => RefInput.set_script 1%positive
                   (RefInput.set_sequence 0 orig))
      <$> input_at sample_store.2 18.
Proof. repeat apply conj; vm_compute; reflexivity. Qed.

(** * Further properties *)

(** ** The layout and the size of a serialization *)

Lemma forEach_fmap {A B St} (f : B -> St -> result St) (g : A -> B)
    (xs : list A) (s : St) :
  forEach f (g <$> xs) s = forEach (fun x => f (g x)) xs s.
Proof.
  revert s. induction xs as [|x xs IH]; intros s; [done|].
  rewrite fmap_cons. cbn [forEach]. destruct (f (g x) s); [|done].
  cbn [mbind result_bind]. apply IH.
Qed.

Lemma forEach_ext {A St} (f g : A -> St -> result St) (xs : list A) (s : St) :
  (forall x s, f x s = g x s) -> forEach f xs s = forEach g xs s.
Proof.
  intros H. revert s. induction xs as [|x xs IH]; intros s; [done|].
  cbn [forEach]. rewrite H. destruct (g x s); [|done].
  cbn [mbind result_bind]. apply IH.
Qed.

Lemma foldl_fmap_ext {A B C} (f : C -> B -> C) (f' : C -> A -> C) (g : A -> B)
    (xs : list A) (c : C) :
  (forall c x, f c (g x) = f' c x) ->
  foldl f c (g <$> xs) = foldl f' c xs.
Proof.
  intros H. revert c. induction xs as [|x xs IH]; intros c; [done|].
  rewrite fmap_cons. cbn [foldl]. rewrite H. apply IH.
Qed.

Lemma __byteLength_stripped (tx : Transaction) (forSignature : bool) :
  __byteLength (stripped tx) false forSignature =
  __byteLength tx false forSignature.
Proof.
  unfold __byteLength, stripped. cbn [ins outs andb].
  rewrite !length_fmap.
  rewrite (foldl_fmap_ext _ _ blank_out (outs tx) _
             (fun c x => eq_refl)).
  rewrite (foldl_fmap_ext _ _ blank_in (ins tx) _ (fun c x => eq_refl)).
  reflexivity.
Qed.

Lemma wire_stripped (tx : Transaction) (forceZeroFlag forSignature : bool) :
  wire (stripped tx) false forceZeroFlag forSignature =
  wire tx false forceZeroFlag forSignature.
Proof.
  unfold wire, stripped. cbn [version locktime ins outs andb].
  rewrite !length_fmap, !andb_false_r, <- !list_fmap_compose.
  assert (Hi : wire_in ∘ blank_in <$> ins tx = wire_in <$> ins tx)
    by (apply list_fmap_ext; now intros _ [] _).
  assert (Ho : wire_out ∘ blank_out <$> outs tx = wire_out <$> outs tx)
    by (apply list_fmap_ext; now intros _ [] _).
  now rewrite Hi, Ho.
Qed.

Lemma __toBuffer_stripped garbage (tx : Transaction) buffer initialOffset
    (forceZeroFlag forSignature : bool) :
  (default 0%nat initialOffset <= length (default [] buffer))%nat ->
  __toBuffer garbage (stripped tx) buffer initialOffset false forceZeroFlag
    forSignature =
  __toBuffer garbage tx buffer initialOffset false forceZeroFlag forSignature.
Proof.
  intros Hoff.
  rewrite !__toBuffer_wire, __byteLength_stripped, wire_stripped; [done|..];
    destruct buffer; simpl in *; lia.
Qed.

(** X2. The txid, [getHash(false)], covers neither the flag nor the
    members of the witness suffix: two transactions with the same version
    and locktime, and the same inputs and outputs up to those members,
    have the same txid. *)
Theorem txid_ignores_witnesses garbage hash256 (tx tx' : Transaction) :
  version tx = version tx' -> locktime tx = locktime tx' ->
  blank_in <$> ins tx = blank_in <$> ins tx' ->
  blank_out <$> outs tx = blank_out <$> outs tx' ->
  getHash garbage hash256 tx false = getHash garbage hash256 tx' false.
Proof.
  intros Hv Hl Hi Ho. unfold getHash. cbn [mbind result_bind].
  rewrite <- (__toBuffer_stripped garbage tx),
          <- (__toBuffer_stripped garbage tx') by (simpl; lia).
  unfold stripped. now rewrite Hv, Hl, Hi, Ho.
Qed.

Lemma __byteLength_no_witnesses (tx : Transaction) (a fs : bool) :
  hasWitnesses tx = false -> __byteLength tx a fs = __byteLength tx false fs.
Proof.
  intros Hw. unfold __byteLength. rewrite Hw. now rewrite andb_false_r.
Qed.

Lemma wire_no_witnesses (tx : Transaction) (a fz fs : bool) :
  hasWitnesses tx = false -> wire tx a fz fs = wire tx false fz fs.
Proof.
  intros Hw. unfold wire. rewrite Hw. now rewrite andb_false_r.
Qed.

(** X3. For a transaction without witnesses that is not a coinbase, the
    wtxid, [getHash(true)], is the txid. *)
Theorem wtxid_without_witnesses garbage hash256 (tx : Transaction) :
  hasWitnesses tx = false -> isCoinbase tx = Ok false ->
  getHash garbage hash256 tx true = getHash garbage hash256 tx false.
Proof.
  intros Hw Hc. unfold getHash. rewrite Hc. cbn [mbind result_bind].
  rewrite !__toBuffer_wire by (simpl; lia).
  now rewrite __byteLength_no_witnesses, wire_no_witnesses.
Qed.

(** X4. A serialization into a buffer of its own, for a transaction whose
    inputs have the fixed sizes of the data model, in every mode but the
    one no caller uses (for a signature with witnesses allowed and
    present): the bytes returned are the wire layout (version, flag byte
    unless for a signature, counted inputs, counted outputs, locktime,
    and the witness suffix when witnesses are allowed and present), and
    their number is what [__byteLength] computes, so that no byte of the
    fresh allocation is left unwritten. *)
Theorem serialization_layout garbage (tx : Transaction)
    (_ALLOW_WITNESS forceZeroFlag forSignature : bool) :
  Forall fixed_sizes (ins tx) ->
  forSignature && (_ALLOW_WITNESS && hasWitnesses tx) = false ->
  fst <$> __toBuffer garbage tx None None _ALLOW_WITNESS forceZeroFlag
            forSignature =
    Ok (wire tx _ALLOW_WITNESS forceZeroFlag forSignature) /\
  len (wire tx _ALLOW_WITNESS forceZeroFlag forSignature) =
    __byteLength tx _ALLOW_WITNESS forSignature.
Proof.
  intros Hsz Hm. split.
  - now rewrite __toBuffer_fresh.
  - now apply len_wire.
Qed.

(** X5. A serialization into the caller's buffer, which has room for it
    from the offset on: the bytes before the offset and behind the
    serialization stay as they were; with [initialOffset] given the call
    returns the slice it wrote, without it the whole buffer. *)
Theorem serialization_in_place garbage (tx : Transaction) (buffer : Buffer)
    (initialOffset : option nat) (a fz fs : bool) :
  let bytes := wire tx a fz fs in
  let offset := default 0%nat initialOffset in
  let written :=
    take offset buffer ++ bytes ++ drop (offset + length bytes) buffer in
  (offset + length bytes <= length buffer)%nat ->
  __toBuffer garbage tx (Some buffer) initialOffset a fz fs =
  Ok (match initialOffset with Some _ => bytes | None => written end,
      written).
Proof.
  intros bytes offset written Hfit.
  rewrite __toBuffer_wire by (simpl; fold offset; lia).
  fold bytes offset. unfold BufferWriter.writeSlice, BufferWriter.new.
  cbn [BufferWriter.grows BufferWriter.offset BufferWriter.buffer].
  rewrite (proj2 (Nat.leb_le _ _)) by lia.
  cbn [mbind result_bind]. unfold toBuffer_result.
  cbn [BufferWriter.buffer BufferWriter.offset]. fold written.
  destruct initialOffset as [o|]; [|done].
  simpl in offset. subst offset. do 2 f_equal.
  unfold written. rewrite drop_app_length'
    by (rewrite length_take; lia).
  replace (o + length bytes - o)%nat with (length bytes) by lia.
  now rewrite take_app_length.
Qed.

Lemma foldl_grows {A} (step : Z -> A -> Z) (xs : list A) (size : Z) :
  (forall s x, s <= step s x) -> size <= foldl step size xs.
Proof.
  intros H. revert size. induction xs as [|x xs IH]; intros size; [simpl; lia|].
  cbn [foldl]. specialize (H size x). specialize (IH (step size x)). lia.
Qed.

Lemma encodingLength_pos (n : Z) : 1 <= varuint.encodingLength n.
Proof. unfold varuint.encodingLength. repeat case_match; lia. Qed.

Lemma varSliceSize_pos (bs : Buffer) : 1 <= varSliceSize bs.
Proof.
  unfold varSliceSize, len.
  pose proof (encodingLength_pos (Z.of_nat (length bs))).
  lia.
Qed.

Lemma __byteLength_pos (tx : Transaction) (fs : bool) :
  10 <= __byteLength tx false fs.
Proof.
  unfold __byteLength. cbn [andb].
  etrans; [|apply foldl_grows].
  - etrans; [|apply foldl_grows].
    + pose proof (encodingLength_pos (Z.of_nat (length (ins tx)))).
      pose proof (encodingLength_pos (Z.of_nat (length (outs tx)))).
      destruct fs; lia.
    + intros s x. pose proof (varSliceSize_pos (Input.script x)).
      destruct (Input.issuance x); unfold len; lia.
  - intros s x. pose proof (varSliceSize_pos (Output.script x)).
    unfold len. lia.
Qed.

Lemma __byteLength_witness (tx : Transaction) (fs : bool) :
  __byteLength tx false fs <= __byteLength tx true fs.
Proof.
  unfold __byteLength. cbn [andb]. destruct (hasWitnesses tx); [|lia].
  etrans; [|apply foldl_grows].
  - apply foldl_grows. intros s x.
    pose proof (varSliceSize_pos (Input.issuanceRangeProof x)).
    pose proof (varSliceSize_pos (Input.inflationRangeProof x)).
    pose proof (encodingLength_pos (Z.of_nat (length (Input.witness x)))).
    pose proof (encodingLength_pos (Z.of_nat (length (Input.peginWitness x)))).
    etrans; [|apply foldl_grows].
    + etrans; [|apply Z.add_le_mono_r, foldl_grows].
      * lia.
      * intros s' w. pose proof (varSliceSize_pos w). lia.
    + intros s' w. pose proof (varSliceSize_pos w). lia.
  - intros s x.
    pose proof (varSliceSize_pos (Output.surjectionProof x)).
    pose proof (varSliceSize_pos (Output.rangeProof x)). lia.
Qed.

(** X6. [weight()] is three times the size without witnesses plus the
    size with them; [virtualSize()] is the weight divided by four and
    rounded up, lies between the two sizes, and is the size without
    witnesses when the transaction has none. *)
Theorem virtualSize_bounds (tx : Transaction) :
  let base := __byteLength tx false false in
  let total := __byteLength tx true false in
  weight tx = 3 * base + total /\
  base <= virtualSize tx <= total /\
  4 * virtualSize tx - 3 <= weight tx <= 4 * virtualSize tx /\
  (hasWitnesses tx = false -> virtualSize tx = base).
Proof.
  intros base total.
  pose proof (__byteLength_witness tx false) as Hle. fold base total in Hle.
  pose proof (__byteLength_pos tx false) as Hpos. fold base in Hpos.
  assert (Hw : weight tx = 3 * base + total).
  { unfold weight, WITNESS_SCALE_FACTOR. fold base total. lia. }
  unfold virtualSize, WITNESS_SCALE_FACTOR. rewrite Hw.
  split; [done|].
  pose proof (Z.div_mod (3 * base + total + 4 - 1) 4 ltac:(lia)) as Hd.
  pose proof (Z.mod_pos_bound (3 * base + total + 4 - 1) 4 ltac:(lia)) as Hm.
  split; [lia|]. split; [lia|].
  intros Hnw. assert (total = base)
    by (unfold total, base; now apply __byteLength_no_witnesses).
  lia.
Qed.

(** ** The round trip for any flag, and trailing bytes *)

Lemma fromBuffer_wire_rest (tx : Transaction) (rest : Buffer)
    (_NO_STRICT : bool) :
  wf_transaction tx ->
  fromBuffer (wire tx true false false ++ rest) _NO_STRICT =
  if _NO_STRICT then Ok tx
  else match rest with [] => Ok tx | _ :: _ => Err TrailingBytes end.
Proof.
  intros Hwf.
  pose proof (hasWitnesses_wf tx Hwf) as Hflag.
  destruct Hwf as [Hv Hl Hvin Hvout Hins Houts _].
  assert (Hins1 : Forall (fun txIn => wf_input_body txIn /\ wf_index txIn)
                    (ins tx)).
  { eapply Forall_impl; [exact Hins|]. now intros x (? & ? & ?). }
  assert (Hins2 : Forall wf_in_fields (ins tx)).
  { eapply Forall_impl; [exact Hins|]. now intros x (? & ? & ?). }
  clear Hins.
  unfold fromBuffer, BufferReader.new. cbv zeta.
  remember (wire tx true false false ++ rest) as buffer eqn:Hbuf.
  assert (Hoff : (0 <= length buffer)%nat) by lia.
  assert (Hdrop : drop 0 buffer = wire tx true false false ++ rest)
    by (now rewrite Hbuf).
  clear Hbuf. unfold wire in Hdrop. cbv zeta in Hdrop.
  cbn [andb negb] in Hdrop. rewrite andb_true_r in Hdrop.
  rewrite <- !app_assoc in Hdrop.
  run (decodes_readInt32 _ Hv).
  assert (Hfb : decodes BufferReader.readUInt8
                  (le_bytes 1 (if hasWitnesses tx then 1 else 0)) (flag tx)).
  { destruct Hflag as [(-> & ->)|(-> & -> & _)];
      apply decodes_readUInt8_le; lia. }
  run Hfb. clear Hfb.
  run (decodes_readVarInt (Z.of_nat (length (ins tx))) ltac:(lia)).
  rewrite Nat2Z.id.
  run (decodes_vin_loop (ins tx)
         (set_flag (flag tx) (set_version (version tx) new_Transaction)) 0
         Hins1).
  run (decodes_readVarInt (Z.of_nat (length (outs tx))) ltac:(lia)).
  rewrite Nat2Z.id.
  match goal with
  | |- context [for_range _ 0 _ (?t, _)] =>
      run (decodes_vout_loop (outs tx) t 0 Houts)
  end.
  run (decodes_readUInt32 _ Hl).
  cbn [ins outs set_ins set_outs set_flag set_version set_locktime
       new_Transaction flag version locktime app] in *.
  assert (Hend : forall off,
            (off <= length buffer)%nat -> drop off buffer = rest ->
            negb (off =? length buffer)%nat =
            match rest with [] => false | _ :: _ => true end).
  { intros off Ho Hd. apply (f_equal length) in Hd.
    rewrite length_drop in Hd.
    destruct rest; simpl in Hd.
    - now rewrite (proj2 (Nat.eqb_eq _ _)) by lia.
    - now rewrite (proj2 (Nat.eqb_neq _ _)) by lia. }
  destruct Hflag as [(Hf & Hw)|(Hf & Hw & Hbi & Hbo)];
    rewrite Hw in *; rewrite Hf.
  - change (truthy (js_and 1 ADVANCED_TRANSACTION_FLAG)) with true.
    cbv iota. unfold wire_suffix in Hdrop0. rewrite <- app_assoc in Hdrop0.
    match goal with
    | |- context [for_range _ 0 fromBuffer_inFields (?t, _)] =>
        run (decodes_inFields_loop (ins tx) [] t Hins2 eq_refl);
        run (decodes_outFields_loop (outs tx) []
               (set_ins ([] ++ ins tx) t) Houts eq_refl)
    end.
    cbn [BufferReader.offset].
    erewrite Hend by eassumption.
    match goal with
    | |- context [if _NO_STRICT then Ok ?t else _] =>
        assert (Htx : t = tx) by (destruct tx; simpl in *; now subst);
        rewrite Htx
    end.
    now destruct _NO_STRICT, rest.
  - change (truthy (js_and 0 ADVANCED_TRANSACTION_FLAG)) with false.
    cbv iota. cbn [mbind result_bind]. rewrite app_nil_l in Hdrop0.
    cbn [BufferReader.offset].
    erewrite Hend by eassumption.
    rewrite Hbi, Hbo.
    match goal with
    | |- context [if _NO_STRICT then Ok ?t else _] =>
        assert (Htx : t = tx) by (destruct tx; simpl in *; now subst);
        rewrite Htx
    end.
    now destruct _NO_STRICT, rest.
Qed.

Lemma wf_transaction_data_model (tx : Transaction) :
  wf_transaction tx <->
  data_model tx /\
  (flag tx = 1 \/
   (flag tx = 0 /\ Forall no_in_fields (ins tx) /\
    Forall no_out_fields (outs tx))).
Proof.
  split.
  - intros []. split; [constructor|]; assumption.
  - intros [[] ?]. constructor; assumption.
Qed.

Lemma data_model_set_flag (f : Z) (tx : Transaction) :
  data_model tx -> data_model (set_flag f tx).
Proof. intros []. constructor; assumption. Qed.

Lemma wf_blank_in (txIn : Input.t) :
  wf_input_body txIn /\ wf_index txIn /\ wf_in_fields txIn ->
  wf_input_body (blank_in txIn) /\ wf_index (blank_in txIn) /\
  wf_in_fields (blank_in txIn).
Proof.
  intros ([] & Hi & _). split; [constructor; assumption|]. split.
  - exact Hi.
  - assert (Hnil : is_varslice []) by (unfold is_varslice, len; simpl; lia).
    assert (Hvec : is_vector []) by (split; [simpl; lia|constructor]).
    now constructor.
Qed.

Lemma wf_blank_out (txOut : Output.t) :
  wf_output txOut -> wf_output (blank_out txOut).
Proof.
  assert (Hnil : is_varslice []) by (unfold is_varslice, len; simpl; lia).
  intros []. now constructor.
Qed.

Lemma data_model_stripped (tx : Transaction) :
  data_model tx -> data_model (stripped tx).
Proof.
  intros []. constructor; cbn [stripped version locktime ins outs];
    rewrite ?length_fmap; try assumption.
  - apply Forall_fmap. eapply Forall_impl; [eassumption|].
    intros x Hx. now apply wf_blank_in.
  - apply Forall_fmap. eapply Forall_impl; [eassumption|].
    intros x Hx. now apply wf_blank_out.
Qed.

Lemma hasWitnesses_stripped (tx : Transaction) :
  hasWitnesses (stripped tx) = false.
Proof.
  unfold hasWitnesses, stripped. cbn [flag ins outs orb Z.eqb].
  apply orb_false_intro.
  - induction (ins tx) as [|x l IH]; [done|]. now rewrite fmap_cons.
  - induction (outs tx) as [|x l IH]; [done|]. now rewrite fmap_cons.
Qed.

Lemma wf_normalized (tx : Transaction) :
  data_model tx -> wf_transaction (normalized tx).
Proof.
  intros Hdm. apply wf_transaction_data_model. unfold normalized.
  destruct (hasWitnesses tx).
  - split; [now apply data_model_set_flag|now left].
  - split; [now apply data_model_stripped|]. right.
    split; [done|]. unfold stripped. cbn [ins outs].
    split; rewrite Forall_fmap, Forall_forall; intros x _; repeat split.
Qed.

Lemma wire_normalized (tx : Transaction) :
  wire (normalized tx) true false false = wire tx true false false.
Proof.
  unfold normalized. destruct (hasWitnesses tx) eqn:Hw.
  - unfold wire, wire_suffix. cbn [set_flag version locktime ins outs].
    replace (hasWitnesses (set_flag 1 tx)) with true; [now rewrite Hw|].
    reflexivity.
  - rewrite (wire_no_witnesses (stripped tx)) by apply hasWitnesses_stripped.
    rewrite wire_stripped. symmetry. now apply wire_no_witnesses.
Qed.

Lemma data_model_fixed_sizes (tx : Transaction) :
  data_model tx -> Forall fixed_sizes (ins tx).
Proof.
  intros Hdm. eapply Forall_impl; [apply (dm_ins _ Hdm)|].
  intros x ([Hh _ _ Hi] & _). split; [done|].
  destruct (Input.issuance x); simpl in *; [|done].
  split; apply Hi.
Qed.

(** X7. For every transaction of the data model, whatever its flag:
    [fromBuffer(toBuffer(t))] is [t] with the flag the serializer derives
    (1 when [hasWitnesses()], else 0) and, when there are no witnesses,
    with the members of the witness suffix emptied; and that transaction
    is well formed. *)
Theorem roundtrip_normalizes (garbage : nat -> byte) (tx : Transaction) :
  data_model tx ->
  toBuffer garbage tx None None ≫= (fun buffer => fromBuffer buffer false) =
    Ok (normalized tx) /\
  wf_transaction (normalized tx).
Proof.
  intros Hdm. split; [|now apply wf_normalized]. unfold toBuffer.
  rewrite __toBuffer_fresh by (done || now apply data_model_fixed_sizes).
  cbn [fmap result_fmap fst mbind result_bind].
  rewrite <- wire_normalized. apply fromBuffer_wire. now apply wf_normalized.
Qed.

(** X8. Bytes behind the serialization of a well-formed transaction:
    [fromBuffer] throws in strict mode ('Transaction has unexpected
    data') and returns the transaction when [_NO_STRICT] is set. *)
Theorem fromBuffer_trailing_bytes (garbage : nat -> byte) (tx : Transaction)
    (rest : Buffer) :
  wf_transaction tx -> rest <> [] ->
  (toBuffer garbage tx None None ≫=
     fun buffer => fromBuffer (buffer ++ rest) false) = Err TrailingBytes /\
  (toBuffer garbage tx None None ≫=
     fun buffer => fromBuffer (buffer ++ rest) true) = Ok tx.
Proof.
  intros Hwf Hrest. unfold toBuffer.
  rewrite __toBuffer_fresh by (done || now apply wf_fixed_sizes).
  cbn [fmap result_fmap fst mbind result_bind].
  rewrite !fromBuffer_wire_rest by done. now destruct rest.
Qed.

(** ** What [fromBuffer] returns, whatever the bytes *)

Lemma bind_Ok {A B} (m : result A) (k : A -> result B) (b : B) :
  m ≫= k = Ok b -> exists a, m = Ok a /\ k a = Ok b.
Proof. destruct m; [eauto|discriminate]. Qed.

Lemma le_value_range (bs : Buffer) :
  0 <= le_value bs < 256 ^ Z.of_nat (length bs).
Proof.
  induction bs as [|b bs IH]; cbn [le_value length]; [lia|].
  pose proof (Z_of_byte_range b).
  rewrite Nat2Z.inj_succ, Z.pow_succ_r by lia. lia.
Qed.

(** The two top bits and the low 30 bits of a raw outpoint index, as the
    three tests of the reader and of [addInput] see them. *)
Lemma raw_index_parts (w : Z) :
  0 <= w < 2 ^ 32 ->
  exists i k, 0 <= i < 2 ^ 30 /\ 0 <= k < 4 /\ w = i + k * 2 ^ 30 /\
    js_and w OUTPOINT_INDEX_MASK = i /\
    truthy (js_and w OUTPOINT_ISSUANCE_FLAG) = (2 <=? k) /\
    truthy (js_and w OUTPOINT_PEGIN_FLAG) = Z.odd k.
Proof.
  intros Hw. exists (w mod 2 ^ 30), (w / 2 ^ 30).
  pose proof (Z.mod_pos_bound w (2 ^ 30) ltac:(lia)) as Hi.
  pose proof (Z.div_mod w (2 ^ 30) ltac:(lia)) as Hd.
  assert (Hk : 0 <= w / 2 ^ 30 < 4).
  { split; [apply Z.div_pos; lia|]. apply Z.div_lt_upper_bound; lia. }
  set (i := w mod 2 ^ 30) in *. set (k := w / 2 ^ 30) in *.
  assert (Ew : w = i + k * 2 ^ 30) by lia.
  split; [done|]. split; [done|]. split; [done|].
  assert (Hflag31 : ToInt32 OUTPOINT_ISSUANCE_FLAG = 0 + (-2) * 2 ^ 30)
    by reflexivity.
  assert (Hflag30 : ToInt32 OUTPOINT_PEGIN_FLAG = 0 + 1 * 2 ^ 30)
    by reflexivity.
  assert (Hmask : ToInt32 OUTPOINT_INDEX_MASK =
                  OUTPOINT_INDEX_MASK + 0 * 2 ^ 30) by reflexivity.
  unfold js_and, truthy. rewrite Ew at 1 2 3.
  rewrite ToInt32_parts, Hflag31, Hflag30, Hmask by done.
  rewrite !land_parts by (done || (unfold OUTPOINT_INDEX_MASK; lia)).
  rewrite land_mask, !Z.land_0_r by done.
  assert (Hcases : k = 0 \/ k = 1 \/ k = 2 \/ k = 3) by lia.
  destruct Hcases as [-> | [-> | [-> | ->]]]; simpl; repeat split; lia.
Qed.

(** What a successful read returns. *)
Lemma readSlice_Ok (n : Z) (r r' : BufferReader.t) (bs : Buffer) :
  BufferReader.readSlice n r = Ok (bs, r') ->
  bs = take (Z.to_nat n)
         (drop (BufferReader.offset r) (BufferReader.buffer r)) /\
  length bs = Z.to_nat n /\
  r' = BufferReader.mk (BufferReader.buffer r)
         (BufferReader.offset r + Z.to_nat n).
Proof.
  unfold BufferReader.readSlice.
  destruct (Nat.leb_spec (BufferReader.offset r + Z.to_nat n)
              (length (BufferReader.buffer r))) as [Hle|]; [|discriminate].
  intros [= <- <-]. split; [done|]. split; [|done].
  rewrite length_take, length_drop. lia.
Qed.

Ltac bind_inv H x Hx :=
  apply bind_Ok in H; destruct H as (x & Hx & H).

Lemma readUInt8_Ok (r r' : BufferReader.t) (v : Z) :
  BufferReader.readUInt8 r = Ok (v, r') -> 0 <= v < 256.
Proof.
  unfold BufferReader.readUInt8. intros H. bind_inv H p Hp.
  destruct p as [bs r1]. injection H as <- <-.
  apply readSlice_Ok in Hp as (_ & Hlen & _).
  pose proof (le_value_range bs) as Hr. rewrite Hlen in Hr.
  change (256 ^ Z.of_nat (Z.to_nat 1)) with 256 in Hr. exact Hr.
Qed.

Lemma readUInt32_Ok (r r' : BufferReader.t) (v : Z) :
  BufferReader.readUInt32 r = Ok (v, r') -> 0 <= v < 2 ^ 32.
Proof.
  unfold BufferReader.readUInt32. intros H. bind_inv H p Hp.
  destruct p as [bs r1]. injection H as <- <-.
  apply readSlice_Ok in Hp as (_ & Hlen & _).
  pose proof (le_value_range bs) as Hr. rewrite Hlen in Hr.
  change (256 ^ Z.of_nat (Z.to_nat 4)) with (2 ^ 32) in Hr. exact Hr.
Qed.

Lemma ToInt32_range (x : Z) : - 2 ^ 31 <= ToInt32 x < 2 ^ 31.
Proof.
  unfold ToInt32. pose proof (Z.mod_pos_bound x (2 ^ 32) ltac:(lia)).
  destruct (Z.ltb_spec (x mod 2 ^ 32) (2 ^ 31)); lia.
Qed.

Lemma readInt32_Ok (r r' : BufferReader.t) (v : Z) :
  BufferReader.readInt32 r = Ok (v, r') -> - 2 ^ 31 <= v < 2 ^ 31.
Proof.
  unfold BufferReader.readInt32. intros H. bind_inv H p Hp.
  destruct p as [bs r1]. injection H as <- <-. apply ToInt32_range.
Qed.

Lemma readVarInt_Ok (r r' : BufferReader.t) (v : Z) :
  BufferReader.readVarInt r = Ok (v, r') -> 0 <= v < 2 ^ 64.
Proof.
  unfold BufferReader.readVarInt. intros H. bind_inv H p Hp.
  destruct p as [b r1]. apply readUInt8_Ok in Hp.
  assert (Hw : forall w (k : nat) q,
            (k <= 8)%nat ->
            ('(bs, r) ← BufferReader.readSlice (Z.of_nat k) q;
             Ok (le_value bs, r)) = Ok (w, r') -> 0 <= w < 2 ^ 64).
  { intros w k q Hk Hq. bind_inv Hq p Hp'. destruct p as [bs r2].
    injection Hq as <- <-. apply readSlice_Ok in Hp' as (_ & Hlen & _).
    pose proof (le_value_range bs) as Hr. rewrite Hlen, Nat2Z.id in Hr.
    assert (256 ^ Z.of_nat k <= 256 ^ 8)
      by (apply Z.pow_le_mono_r; lia).
    change (256 ^ 8) with (2 ^ 64) in *. lia. }
  destruct (b <? 0xfd) eqn:E1.
  - injection H as <- <-. apply Z.ltb_lt in E1. lia.
  - destruct (b =? 0xfd); [apply (Hw v 2%nat r1); [lia|exact H]|].
    destruct (b =? 0xfe); [apply (Hw v 4%nat r1); [lia|exact H]|].
    apply (Hw v 8%nat r1); [lia|exact H].
Qed.

Lemma is_varslice_nil : is_varslice [].
Proof. unfold is_varslice, len. simpl. lia. Qed.

Lemma readVarSlice_Ok (r r' : BufferReader.t) (bs : Buffer) :
  BufferReader.readVarSlice r = Ok (bs, r') -> is_varslice bs.
Proof.
  unfold BufferReader.readVarSlice. intros H. bind_inv H p Hp.
  destruct p as [n r1]. apply readVarInt_Ok in Hp.
  apply readSlice_Ok in H as (_ & Hlen & _).
  unfold is_varslice, len. rewrite Hlen. lia.
Qed.

(** A loop keeps what each of its turns keeps. *)
Lemma for_range_inv {St} (I : nat -> St -> Prop) (n i : nat)
    (body : nat -> St -> result St) (s s' : St) :
  (forall j t t', I j t -> body j t = Ok t' -> I (S j) t') ->
  I i s -> for_range n i body s = Ok s' -> I (n + i)%nat s'.
Proof.
  intros Hstep. revert i s. induction n as [|n IH]; intros i s Hi H.
  - now injection H as <-.
  - cbn [for_range] in H. bind_inv H t Ht.
    replace (S n + i)%nat with (n + S i)%nat by lia.
    eapply IH; [|exact H]. eapply Hstep; eassumption.
Qed.

Lemma readVector_Ok (r r' : BufferReader.t) (v : list Buffer) :
  BufferReader.readVector r = Ok (v, r') -> is_vector v.
Proof.
  unfold BufferReader.readVector. intros H. bind_inv H p Hp.
  destruct p as [count r1]. apply readVarInt_Ok in Hp.
  apply (for_range_inv
           (fun j s => length s.1 = j /\ Forall is_varslice s.1)) in H.
  - destruct H as (Hlen & Hall). split; [|exact Hall].
    simpl in Hlen. rewrite Hlen. lia.
  - intros j [w q] t' (Hlen & Hall) Hb. bind_inv Hb p Hp'.
    destruct p as [s q']. injection Hb as <-. simpl in *.
    apply readVarSlice_Ok in Hp'. split.
    + rewrite length_app. simpl. lia.
    + apply Forall_app. split; [done|]. now constructor.
  - simpl. split; [done|constructor].
Qed.

(** A tag-prefixed field is read with the size its first byte gives. *)
Lemma sized_read (size : Z -> Z) (r r' : BufferReader.t) (bs : Buffer) :
  (forall p, 1 <= size p) ->
  ('(prefix, _) ← BufferReader.readUInt8 r;
   BufferReader.readSlice (size prefix) r) = Ok (bs, r') ->
  sized_by size bs.
Proof.
  intros Hsize H. bind_inv H p Hp. destruct p as [prefix r1].
  unfold BufferReader.readUInt8 in Hp. bind_inv Hp q Hq.
  destruct q as [b1 r2]. injection Hp as <- <-.
  apply readSlice_Ok in Hq as (Hb1 & Hl1 & _).
  apply readSlice_Ok in H as (Hbs & Hl & _).
  destruct (drop (BufferReader.offset r) (BufferReader.buffer r))
    as [|b tl] eqn:Hd.
  { rewrite take_nil in Hb1. subst b1. discriminate Hl1. }
  change (Z.to_nat 1) with 1%nat in Hb1. cbn [take] in Hb1. subst b1.
  cbn [le_value] in *. rewrite Z.mul_0_r, Z.add_0_r in *.
  specialize (Hsize (Z_of_byte b)).
  destruct (Z.to_nat (size (Z_of_byte b))) as [|k] eqn:Hk; [lia|].
  cbn [take] in Hbs. subst bs. unfold sized_by, len.
  rewrite Hl. lia.
Qed.

Lemma readConfidentialValue_Ok (r r' : BufferReader.t) (bs : Buffer) :
  BufferReader.readConfidentialValue r = Ok (bs, r') ->
  sized_by BufferReader.valueSize bs.
Proof.
  apply sized_read. intros p. unfold BufferReader.valueSize.
  repeat case_match; lia.
Qed.

Lemma readConfidentialAsset_Ok (r r' : BufferReader.t) (bs : Buffer) :
  BufferReader.readConfidentialAsset r = Ok (bs, r') ->
  sized_by BufferReader.assetSize bs.
Proof.
  apply sized_read. intros p. unfold BufferReader.assetSize.
  repeat case_match; lia.
Qed.

Lemma readConfidentialNonce_Ok (r r' : BufferReader.t) (bs : Buffer) :
  BufferReader.readConfidentialNonce r = Ok (bs, r') ->
  sized_by BufferReader.nonceSize bs.
Proof.
  apply sized_read. intros p. unfold BufferReader.nonceSize.
  repeat case_match; lia.
Qed.

Lemma readIssuance_Ok (r r' : BufferReader.t) (i : Issuance.t) :
  BufferReader.readIssuance r = Ok (i, r') -> wf_issuance i.
Proof.
  unfold BufferReader.readIssuance. intros H.
  bind_inv H p1 H1. destruct p1 as [a r1].
  bind_inv H p2 H2. destruct p2 as [b r2].
  bind_inv H p3 H3. destruct p3 as [c r3].
  bind_inv H p4 H4. destruct p4 as [d r4].
  injection H as <- <-.
  apply readSlice_Ok in H1 as (_ & Ha & _).
  apply readSlice_Ok in H2 as (_ & Hb & _).
  apply readConfidentialValue_Ok in H3, H4.
  change (Z.to_nat 32) with 32%nat in *. now constructor.
Qed.

Lemma readConfidentialInFields_Ok (r r' : BufferReader.t)
    (f : BufferReader.InFields) :
  BufferReader.readConfidentialInFields r = Ok (f, r') ->
  is_vector (BufferReader.witness f) /\
  is_vector (BufferReader.peginWitness f) /\
  is_varslice (BufferReader.issuanceRangeProof f) /\
  is_varslice (BufferReader.inflationRangeProof f).
Proof.
  unfold BufferReader.readConfidentialInFields. intros H.
  bind_inv H p1 H1. destruct p1 as [a r1].
  bind_inv H p2 H2. destruct p2 as [b r2].
  bind_inv H p3 H3. destruct p3 as [c r3].
  bind_inv H p4 H4. destruct p4 as [d r4].
  injection H as <- <-.
  apply readVarSlice_Ok in H1, H2. apply readVector_Ok in H3, H4.
  simpl. auto.
Qed.

Lemma readConfidentialOutFields_Ok (r r' : BufferReader.t)
    (f : BufferReader.OutFields) :
  BufferReader.readConfidentialOutFields r = Ok (f, r') ->
  is_varslice (BufferReader.rangeProof f) /\
  is_varslice (BufferReader.surjectionProof f).
Proof.
  unfold BufferReader.readConfidentialOutFields. intros H.
  bind_inv H p1 H1. destruct p1 as [a r1].
  bind_inv H p2 H2. destruct p2 as [b r2].
  injection H as <- <-.
  apply readVarSlice_Ok in H1, H2. simpl. auto.
Qed.

(** What the reader makes of a raw outpoint index. *)
Lemma outpoint_read (w : Z) (r r' : BufferReader.t)
    (inIssuance : option Issuance.t) (inIsPegin : bool) (inIndex : Z) :
  0 <= w < 2 ^ 32 ->
  (if negb (w =? MINUS_1) then
     '(inIssuance, bufferReader) ←
       (if truthy (js_and w OUTPOINT_ISSUANCE_FLAG)
        then '(i, r) ← BufferReader.readIssuance r; Ok (Some i, r)
        else Ok (None, r));
     let inIsPegin :=
       if truthy (js_and w OUTPOINT_PEGIN_FLAG) then true else false in
     let inIndex := js_and w OUTPOINT_INDEX_MASK in
     Ok (inIssuance, inIsPegin, inIndex, bufferReader)
   else Ok (None, false, w, r)) = Ok (inIssuance, inIsPegin, inIndex, r') ->
  from_option wf_issuance True inIssuance /\
  ((0 <= inIndex < 2 ^ 30 /\
    ~ (inIndex = OUTPOINT_INDEX_MASK /\ inIssuance <> None /\
       inIsPegin = true)) \/
   (inIndex = MINUS_1 /\ inIssuance = None /\ inIsPegin = false)).
Proof.
  intros Hw H. destruct (Z.eqb_spec w MINUS_1) as [->|Hne]; cbn [negb] in H.
  { injection H as <- <- <- <-. split; [done|]. now right. }
  destruct (raw_index_parts w Hw) as (i & k & Hi & Hk & Ew & Hm & H31 & H30).
  rewrite Hm, H31, H30 in H. bind_inv H p Hp. destruct p as [iss r1].
  cbv zeta in H. injection H as <- <- <- <-.
  assert (Hiss : from_option wf_issuance True iss /\
                 (iss <> None -> (2 <=? k) = true)).
  { destruct (2 <=? k).
    - bind_inv Hp q Hq. destruct q as [i0 r2]. injection Hp as <- <-.
      apply readIssuance_Ok in Hq. now split.
    - injection Hp as <- <-. now split. }
  destruct Hiss as (Hwf & Hbit). split; [exact Hwf|]. left.
  split; [exact Hi|]. intros (Hmask & Hsome & Hpeg).
  specialize (Hbit Hsome). apply Z.leb_le in Hbit.
  assert (Hodd : Z.odd k = true) by (now destruct (Z.odd k)).
  assert (k = 3).
  { assert (Hc : k = 2 \/ k = 3) by lia. destruct Hc as [-> | ->]; [|done].
    discriminate Hodd. }
  subst k. apply Hne. rewrite Ew, Hmask. reflexivity.
Qed.

Lemma fromBuffer_vin_Ok (tx tx' : Transaction) (r r' : BufferReader.t) :
  fromBuffer_vin (tx, r) = Ok (tx', r') ->
  exists txIn,
    tx' = set_ins (ins tx ++ [txIn]) tx /\
    wf_input_body txIn /\ wf_index txIn /\ blank_in txIn = txIn.
Proof.
  unfold fromBuffer_vin. intros H.
  bind_inv H p1 H1. destruct p1 as [inHash r1].
  bind_inv H p2 H2. destruct p2 as [inIndex r2].
  bind_inv H p3 H3. destruct p3 as [inScript r3].
  bind_inv H p4 H4. destruct p4 as [inSequence r4].
  cbv zeta in H. bind_inv H p5 H5.
  destruct p5 as [[[inIssuance inIsPegin] inIndex'] r5].
  injection H as <- <-.
  apply readSlice_Ok in H1 as (_ & Hh & _).
  apply readUInt32_Ok in H2, H4. apply readVarSlice_Ok in H3.
  apply outpoint_read in H5 as (Hiss & Hidx); [|exact H2].
  eexists. split; [reflexivity|]. split; [now constructor|].
  split; [exact Hidx|reflexivity].
Qed.

Lemma fromBuffer_vout_Ok (tx tx' : Transaction) (r r' : BufferReader.t) :
  fromBuffer_vout (tx, r) = Ok (tx', r') ->
  exists txOut,
    tx' = set_outs (outs tx ++ [txOut]) tx /\
    wf_output txOut /\ blank_out txOut = txOut.
Proof.
  unfold fromBuffer_vout. intros H.
  bind_inv H p1 H1. destruct p1 as [asset r1].
  bind_inv H p2 H2. destruct p2 as [value r2].
  bind_inv H p3 H3. destruct p3 as [nonce r3].
  bind_inv H p4 H4. destruct p4 as [script r4].
  injection H as <- <-.
  apply readConfidentialAsset_Ok in H1. apply readConfidentialValue_Ok in H2.
  apply readConfidentialNonce_Ok in H3. apply readVarSlice_Ok in H4.
  eexists. split; [reflexivity|]. split; [|reflexivity].
  constructor; try assumption; apply is_varslice_nil.
Qed.

Lemma fromBuffer_inFields_Ok (i : nat) (tx tx' : Transaction)
    (r r' : BufferReader.t) :
  fromBuffer_inFields i (tx, r) = Ok (tx', r') ->
  exists txIn w pw irp inf,
    ins tx !! i = Some txIn /\
    tx' = set_ins (<[i := Input.set_in_fields w pw irp inf txIn]> (ins tx))
            tx /\
    wf_in_fields (Input.set_in_fields w pw irp inf txIn).
Proof.
  unfold fromBuffer_inFields. intros H.
  bind_inv H p1 H1. destruct p1 as [f r1].
  destruct (ins tx !! i) as [txIn|] eqn:Hi; [|discriminate].
  injection H as <- <-.
  apply readConfidentialInFields_Ok in H1 as (A & B & C & D).
  do 5 eexists. split; [reflexivity|]. split; [reflexivity|].
  now constructor.
Qed.

Lemma fromBuffer_outFields_Ok (i : nat) (tx tx' : Transaction)
    (r r' : BufferReader.t) :
  fromBuffer_outFields i (tx, r) = Ok (tx', r') ->
  exists txOut rp sp,
    outs tx !! i = Some txOut /\
    tx' = set_outs (<[i := Output.set_out_fields rp sp txOut]> (outs tx))
            tx /\
    is_varslice rp /\ is_varslice sp.
Proof.
  unfold fromBuffer_outFields. intros H.
  bind_inv H p1 H1. destruct p1 as [f r1].
  destruct (outs tx !! i) as [txOut|] eqn:Hi; [|discriminate].
  injection H as <- <-.
  apply readConfidentialOutFields_Ok in H1 as (A & B).
  do 3 eexists. split; [reflexivity|]. split; [reflexivity|]. now split.
Qed.

Lemma wf_blank_in_fields (txIn : Input.t) : wf_in_fields (blank_in txIn).
Proof.
  assert (Hvec : is_vector []) by (split; [simpl; lia|constructor]).
  constructor; try exact Hvec; apply is_varslice_nil.
Qed.

Lemma set_in_fields_body (w pw : list Buffer) (irp inf : Buffer)
    (txIn : Input.t) :
  wf_input_body txIn /\ wf_index txIn ->
  wf_input_body (Input.set_in_fields w pw irp inf txIn) /\
  wf_index (Input.set_in_fields w pw irp inf txIn).
Proof. intros ([] & Hi). split; [now constructor|exact Hi]. Qed.

Lemma blank_no_in_fields (txIn : Input.t) :
  blank_in txIn = txIn -> no_in_fields txIn.
Proof. intros <-. now repeat split. Qed.

Lemma blank_no_out_fields (txOut : Output.t) :
  blank_out txOut = txOut -> no_out_fields txOut.
Proof. intros <-. now repeat split. Qed.

Lemma fromBuffer_parsed (buffer : Buffer) (_NO_STRICT : bool)
    (tx : Transaction) :
  fromBuffer buffer _NO_STRICT = Ok tx ->
  (- 2 ^ 31 <= version tx < 2 ^ 31 /\ 0 <= flag tx < 256 /\
   0 <= locktime tx < 2 ^ 32) /\
  (Z.of_nat (length (ins tx)) < 2 ^ 64 /\
   Z.of_nat (length (outs tx)) < 2 ^ 64) /\
  Forall (fun x => wf_input_body x /\ wf_index x /\ wf_in_fields x)
    (ins tx) /\
  Forall wf_output (outs tx) /\
  (truthy (js_and (flag tx) ADVANCED_TRANSACTION_FLAG) = false ->
   Forall (fun x => blank_in x = x) (ins tx) /\
   Forall (fun x => blank_out x = x) (outs tx)).
Proof.
  unfold fromBuffer. cbv zeta. intros H.
  bind_inv H p1 H1. destruct p1 as [v r1]. apply readInt32_Ok in H1.
  bind_inv H p2 H2. destruct p2 as [f r2]. apply readUInt8_Ok in H2.
  bind_inv H p3 H3. destruct p3 as [vinLen r3]. apply readVarInt_Ok in H3.
  bind_inv H p4 H4. destruct p4 as [tx4 r4].
  bind_inv H p5 H5. destruct p5 as [voutLen r5]. apply readVarInt_Ok in H5.
  bind_inv H p6 H6. destruct p6 as [tx6 r6].
  bind_inv H p7 H7. destruct p7 as [l r7]. apply readUInt32_Ok in H7.
  bind_inv H p8 H8. destruct p8 as [tx8 r8].
  assert (Hfinal : tx8 = tx).
  { destruct _NO_STRICT; [now injection H|].
    destruct (negb _); [discriminate|now injection H]. }
  subst tx8. clear H.
  set (Pin := fun x => wf_input_body x /\ wf_index x /\ blank_in x = x).
  set (Pout := fun x => wf_output x /\ blank_out x = x).
  cbn [flag set_flag set_version new_Transaction] in *.
  (* the input loop *)
  apply (for_range_inv
           (fun j s => version s.1 = v /\ flag s.1 = f /\ outs s.1 = [] /\
                       length (ins s.1) = j /\ Forall Pin (ins s.1))) in H4.
  2:{ intros j [t q] [t' q'] (Hv & Hf & Ho & Hl & Hall) Hb. simpl in *.
      apply fromBuffer_vin_Ok in Hb as (x & -> & Hx).
      cbn [set_ins version flag outs ins]. repeat split; try assumption.
      - rewrite length_app. simpl. lia.
      - apply Forall_app. split; [done|]. now constructor. }
  2:{ simpl. repeat split. constructor. }
  simpl in H4. destruct H4 as (Hv4 & Hf4 & Ho4 & Hl4 & Hin4).
  rewrite Nat.add_0_r in Hl4.
  (* the output loop *)
  apply (for_range_inv
           (fun j s => version s.1 = v /\ flag s.1 = f /\
                       ins s.1 = ins tx4 /\
                       length (outs s.1) = j /\ Forall Pout (outs s.1))) in H6.
  2:{ intros j [t q] [t' q'] (Hv & Hf & Hi & Hl & Hall) Hb. simpl in *.
      apply fromBuffer_vout_Ok in Hb as (x & -> & Hx).
      cbn [set_outs version flag outs ins]. repeat split; try assumption.
      - rewrite length_app. simpl. lia.
      - apply Forall_app. split; [done|]. now constructor. }
  2:{ simpl. rewrite Ho4. repeat split; try assumption. constructor. }
  simpl in H6. destruct H6 as (Hv6 & Hf6 & Hi6 & Hl6 & Hout6).
  rewrite Nat.add_0_r in Hl6.
  (* the suffix *)
  set (Pin' := fun x => wf_input_body x /\ wf_index x /\ wf_in_fields x).
  assert (Hweak_in : forall l0, Forall Pin l0 -> Forall Pin' l0).
  { intros l0 Hl0. eapply Forall_impl; [exact Hl0|].
    intros x (A & B & C). split; [done|].
    split; [done|]. rewrite <- C. now apply wf_blank_in_fields. }
  assert (Hweak_out : forall l0, Forall Pout l0 -> Forall wf_output l0).
  { intros l0 Hl0. eapply Forall_impl; [exact Hl0|]. now intros x (A & _). }
  assert (Hshape : version tx = v /\ flag tx = f /\ locktime tx = l /\
                   length (ins tx) = Z.to_nat vinLen /\
                   length (outs tx) = Z.to_nat voutLen /\
                   Forall Pin' (ins tx) /\ Forall wf_output (outs tx) /\
                   (truthy (js_and f ADVANCED_TRANSACTION_FLAG) = false ->
                    Forall Pin (ins tx) /\ Forall Pout (outs tx))).
  { destruct (truthy (js_and f ADVANCED_TRANSACTION_FLAG)).
    - bind_inv H8 s Hs.
      apply (for_range_inv
               (fun _ s => version s.1 = v /\ flag s.1 = f /\
                           locktime s.1 = l /\
                           length (ins s.1) = Z.to_nat vinLen /\
                           outs s.1 = outs tx6 /\ Forall Pin' (ins s.1)))
        in Hs.
      2:{ intros j [t q] [t' q'] (Hv & Hf & Hl & Hn & Ho & Hall) Hb.
          simpl in *.
          apply fromBuffer_inFields_Ok in Hb
            as (x & w & pw & irp & inf & Hx & -> & Hwf).
          cbn [set_ins version flag locktime outs ins].
          rewrite length_insert. repeat split; try assumption.
          apply Forall_insert; [done|].
          pose proof (Forall_lookup_1 _ _ _ _ Hall Hx) as (A & B & _).
          destruct (set_in_fields_body w pw irp inf x (conj A B)).
          unfold Pin'. auto. }
      2:{ cbn [set_locktime version flag locktime ins outs fst].
          rewrite Hi6. split_and!; try assumption; auto. }
      destruct s as [t9 r9]. simpl in Hs.
      destruct Hs as (Hv9 & Hf9 & Hl9 & Hn9 & Ho9 & Hin9).
      apply (for_range_inv
               (fun _ s => version s.1 = v /\ flag s.1 = f /\
                           locktime s.1 = l /\
                           ins s.1 = ins t9 /\
                           length (outs s.1) = Z.to_nat voutLen /\
                           Forall wf_output (outs s.1)))
        in H8.
      2:{ intros j [t q] [t' q'] (Hv & Hf & Hl & Hi & Hn & Hall) Hb.
          simpl in *.
          apply fromBuffer_outFields_Ok in Hb
            as (x & rp & sp & Hx & -> & Hrp & Hsp).
          cbn [set_outs version flag locktime outs ins].
          rewrite length_insert. repeat split; try assumption.
          apply Forall_insert; [done|].
          pose proof (Forall_lookup_1 _ _ _ _ Hall Hx) as [].
          now constructor. }
      2:{ cbn [fst]. rewrite Ho9. split_and!; try assumption; auto. }
      simpl in H8. destruct H8 as (Hv8 & Hf8 & Hl8 & Hi8 & Hn8 & Hout8).
      rewrite Hi8. split_and!; try assumption. discriminate.
    - injection H8 as <- _. cbn [set_locktime version flag locktime ins outs].
      rewrite Hi6. split_and!; try assumption; auto. }
  destruct Hshape as (Hv' & Hf' & Hl' & Hn & Hm & Hin & Hout & Hblank).
  rewrite Hv', Hf', Hl', Hn, Hm. split_and!; try assumption; try lia.
  intros Hb. destruct (Hblank Hb) as (A & B). split.
  - eapply Forall_impl; [exact A|]. now intros x (_ & _ & C).
  - eapply Forall_impl; [exact B|]. now intros x (_ & C).
Qed.

(** X9. Whatever the bytes, a transaction that [fromBuffer] returns is
    one of the data model: version, locktime and sequences in their
    ranges, hashes of 32 bytes, confidential fields sized by their first
    byte, a logical index below 2^30 that does not collide with the
    sentinel, or the sentinel on an input without issuance and peg-in
    mark; its flag is a byte, and when bit 0 of the flag is clear every
    member of the witness suffix is empty. *)
Theorem fromBuffer_data_model (buffer : Buffer) (_NO_STRICT : bool)
    (tx : Transaction) :
  fromBuffer buffer _NO_STRICT = Ok tx ->
  data_model tx /\ 0 <= flag tx < 256 /\
  (truthy (js_and (flag tx) ADVANCED_TRANSACTION_FLAG) = false ->
   Forall no_in_fields (ins tx) /\ Forall no_out_fields (outs tx)).
Proof.
  intros H.
  destruct (fromBuffer_parsed _ _ _ H)
    as ((Hv & Hf & Hl) & (Hn & Hm) & Hin & Hout & Hblank).
  split; [now constructor|]. split; [exact Hf|].
  intros Hb. destruct (Hblank Hb) as (A & B). split.
  - eapply Forall_impl; [exact A|]. apply blank_no_in_fields.
  - eapply Forall_impl; [exact B|]. apply blank_no_out_fields.
Qed.

(** X10. A transaction that [fromBuffer] returns with flag 0 or 1 is
    serialized by [toBuffer] and parsed again to itself. *)
Theorem fromBuffer_reparse (garbage : nat -> byte) (buffer : Buffer)
    (_NO_STRICT : bool) (tx : Transaction) :
  fromBuffer buffer _NO_STRICT = Ok tx -> flag tx = 0 \/ flag tx = 1 ->
  toBuffer garbage tx None None ≫= (fun b => fromBuffer b false) = Ok tx.
Proof.
  intros Hp Hflag.
  destruct (fromBuffer_parsed _ _ _ Hp)
    as ((Hv & _ & Hl) & (Hn & Hm) & Hin & Hout & Hblank).
  assert (Hwf : wf_transaction tx).
  { constructor; try assumption.
    destruct Hflag as [Hf|Hf]; [right|now left].
    split; [exact Hf|]. rewrite Hf in Hblank.
    destruct (Hblank eq_refl) as (A & B). split.
    - eapply Forall_impl; [exact A|]. apply blank_no_in_fields.
    - eapply Forall_impl; [exact B|]. apply blank_no_out_fields. }
  unfold toBuffer.
  rewrite __toBuffer_fresh by (done || now apply wf_fixed_sizes).
  cbn [fmap result_fmap fst mbind result_bind].
  now apply fromBuffer_wire.
Qed.

(** ** [addInput] and the raw outpoint index *)

Lemma addInput_Ok (tx tx' : Transaction) (hash : Buffer)
    (index : Z) (sequence : option Z) (scriptSig : option Buffer)
    (issuance : option Issuance.t) (pos : Z) :
  addInput tx hash index sequence scriptSig issuance = Ok (tx', pos) ->
  length hash = 32%nat /\ 0 <= index < 2 ^ 32 /\
  exists isPegin logical,
    tx' = set_ins (ins tx ++
                   [Input.mk hash logical (default EMPTY_BUFFER scriptSig)
                      (match sequence with
                       | Some s => if truthy s then s else DEFAULT_SEQUENCE
                       | None => DEFAULT_SEQUENCE
                       end) EMPTY_WITNESS isPegin issuance EMPTY_WITNESS
                      EMPTY_BUFFER EMPTY_BUFFER]) tx /\
    pos = Z.of_nat (length (ins tx)) /\
    (if index =? MINUS_1 then logical = MINUS_1 /\ isPegin = false
     else logical = js_and index OUTPOINT_INDEX_MASK /\
          isPegin = truthy (js_and index OUTPOINT_PEGIN_FLAG) /\
          (truthy (js_and index OUTPOINT_ISSUANCE_FLAG) = true ->
           issuance <> None)).
Proof.
  unfold addInput. intros H. bind_inv H u Hu.
  unfold typeforce in Hu.
  destruct (Nat.eqb_spec (length hash) 32) as [Hh|]; [|discriminate].
  cbn [andb] in Hu. unfold isUInt32 at 1 in Hu.
  destruct (Z.leb_spec 0 index); [|discriminate].
  destruct (Z.ltb_spec index (2 ^ 32)); [|discriminate]. clear Hu.
  split; [done|]. split; [lia|].
  bind_inv H p Hp. destruct p as [isPegin logical].
  cbv zeta in H. injection H as <- <-.
  exists isPegin, logical. split.
  { destruct scriptSig; reflexivity. }
  split. { rewrite length_app. simpl. lia. }
  destruct (Z.eqb_spec index MINUS_1) as [->|Hne]; cbn [negb] in Hp.
  - now injection Hp as <- <-.
  - bind_inv Hp v Hv. injection Hp as <- <-.
    split; [done|].
    split; [now destruct (truthy (js_and index OUTPOINT_PEGIN_FLAG))|].
    intros Hflag. rewrite Hflag in Hv. now destruct issuance.
Qed.

(** X11. When [addInput] returns, the new input is the last one and the
    returned position is its index; its logical index is the raw index
    without the two top bits, or the sentinel; and, provided an issuance
    is passed only together with the issuance bit, the serializer writes
    for it the raw index that was passed. *)
Theorem addInput_raw_index (tx tx' : Transaction) (hash : Buffer)
    (index : Z) (sequence : option Z) (scriptSig : option Buffer)
    (issuance : option Issuance.t) (pos : Z) :
  addInput tx hash index sequence scriptSig issuance = Ok (tx', pos) ->
  (issuance <> None -> index <> MINUS_1 ->
   truthy (js_and index OUTPOINT_ISSUANCE_FLAG) = true) ->
  exists txIn,
    tx' = set_ins (ins tx ++ [txIn]) tx /\
    pos = Z.of_nat (length (ins tx)) /\
    Input.hash txIn = hash /\ Input.issuance txIn = issuance /\
    Input.index txIn =
      (if index =? MINUS_1 then MINUS_1 else index mod 2 ^ 30) /\
    wire_prevIndex txIn = index.
Proof.
  intros H Hiss.
  destruct (addInput_Ok _ _ _ _ _ _ _ _ H)
    as (Hh & Hu & isPegin & logical & -> & -> & Hcase).
  eexists. split; [reflexivity|]. split; [reflexivity|].
  split; [reflexivity|]. split; [reflexivity|]. cbn [Input.index].
  destruct (Z.eqb_spec index MINUS_1) as [->|Hne].
  - destruct Hcase as (-> & ->). split; [done|].
    now apply wire_prevIndex_MINUS_1.
  - destruct Hcase as (-> & -> & Hneed).
    destruct (raw_index_parts index Hu)
      as (i & k & Hi & Hk & Ew & Hm & H31 & H30).
    rewrite Hm, H30. split.
    { rewrite Ew. now rewrite parts_mod. }
    match goal with
    | |- wire_prevIndex ?x = _ =>
        destruct (wire_prevIndex_flags x) as (Hw & _); [exact Hi|]
    end.
    cbv zeta in Hw. rewrite Hw. cbn [Input.index Input.isPegin].
    unfold has_issuance. cbn [Input.issuance].
    assert (Hhas : match issuance with Some _ => true | None => false end =
                   (2 <=? k)).
    { rewrite <- H31. destruct issuance as [i0|].
      - symmetry. now apply Hiss.
      - symmetry. apply not_true_is_false. intros E.
        now destruct (Hneed E). }
    rewrite Hhas, Ew.
    assert (Hc : k = 0 \/ k = 1 \/ k = 2 \/ k = 3) by lia.
    destruct Hc as [-> | [-> | [-> | ->]]]; simpl; lia.
Qed.

(** X12. [addInput] with the issuance bit set in the index (and the index
    not the sentinel) and without an issuance throws 'Issuance flag has
    been set but the Issuance object is not defined or invalid'. *)
Theorem addInput_missing_issuance (tx : Transaction) (hash : Buffer)
    (index : Z) (sequence : option Z) (scriptSig : option Buffer) :
  length hash = 32%nat -> 2 ^ 31 <= index < 2 ^ 32 - 1 ->
  from_option isUInt32 true sequence = true ->
  addInput tx hash index sequence scriptSig None = Err MissingIssuance.
Proof.
  intros Hh Hi Hs. unfold addInput, typeforce, isUInt32 at 1.
  rewrite Hh, Nat.eqb_refl, Hs.
  rewrite (proj2 (Z.leb_le 0 index)), (proj2 (Z.ltb_lt index (2 ^ 32)))
    by lia.
  cbn [andb mbind result_bind].
  rewrite (proj2 (Z.eqb_neq index MINUS_1)) by (unfold MINUS_1; lia).
  cbn [negb].
  destruct (raw_index_parts index ltac:(lia))
    as (i & k & Hi' & Hk & Ew & _ & H31 & _).
  rewrite H31. rewrite (proj2 (Z.leb_le 2 k)) by lia. reflexivity.
Qed.

(** ** What the legacy sighash covers *)

Section LegacySighash.

Variable garbage : nat -> byte.
Variable hash256 : Buffer -> Buffer.
Variable decompile : Buffer -> option (list Chunk).
Variable compile : list Chunk -> Buffer.

Lemma hashForSignature_stages (tx : Transaction) (inIndex : Z)
    (prevOutScript : Buffer) (hashType : Z) :
  hashForSignature garbage hash256 decompile compile tx inIndex prevOutScript
    hashType =
  (_ ← typeforce (isUInt32 inIndex);
   if Z.of_nat (length (ins tx)) <=? inIndex then Ok ONE else
   chunks ←
     match decompile prevOutScript with
     | Some chunks => Ok chunks
     | None => Err JsTypeError
     end;
   let ourScript :=
     compile (filter (fun x => not_codeseparator x = true) chunks) in
   let continue :=
     sighash_continue garbage hash256 ourScript inIndex hashType tx in
   if js_and hashType 0x1f =? SIGHASH_NONE then
     continue (zero_other_sequences inIndex (ins tx)) []
   else if js_and hashType 0x1f =? SIGHASH_SINGLE then
     if Z.of_nat (length (outs tx)) <=? inIndex then Ok ONE else
     continue (zero_other_sequences inIndex (ins tx))
       (foldl (fun tmpOuts i => <[i := BLANK_OUTPUT]> tmpOuts)
          (take (Z.to_nat (inIndex + 1)) (Kept <$> outs tx))
          (seq 0 (Z.to_nat inIndex)))
   else continue (ins tx) (Kept <$> outs tx)).
Proof.
  unfold hashForSignature. rewrite clone_id. reflexivity.
Qed.

Lemma sighash_serialize_stripped (hashType : Z) (t t' : Transaction) :
  stripped t = stripped t' ->
  sighash_serialize garbage hash256 hashType t =
  sighash_serialize garbage hash256 hashType t'.
Proof.
  intros Hs. unfold sighash_serialize. cbv zeta.
  rewrite <- (__byteLength_stripped t), <- (__byteLength_stripped t'), Hs.
  destruct (Buffer_writeInt32LE _ _ _) as [buffer|]; [|done].
  cbn [mbind result_bind].
  rewrite <- (__toBuffer_stripped garbage t),
          <- (__toBuffer_stripped garbage t') by (simpl; lia).
  now rewrite Hs.
Qed.

Lemma same_outpoint_script (s : Buffer) (x y : Input.t) :
  same_outpoint x y ->
  blank_in (Input.set_script s x) = blank_in (Input.set_script s y).
Proof.
  destruct x, y. unfold same_outpoint, blank_in. cbn.
  now intros [= -> -> -> -> ->].
Qed.

Lemma same_outpoint_sequence (x y : Input.t) :
  same_outpoint x y ->
  same_outpoint (Input.set_sequence 0 x) (Input.set_sequence 0 y).
Proof.
  destruct x, y. unfold same_outpoint, blank_in. cbn.
  now intros [= -> -> -> -> ->].
Qed.

Lemma Forall2_imap {A B} (R : A -> B -> Prop) (f : nat -> A -> A)
    (g : nat -> B -> B) (l : list A) (k : list B) :
  (forall i x y, R x y -> R (f i x) (g i y)) ->
  Forall2 R l k -> Forall2 R (imap f l) (imap g k).
Proof.
  intros Hfg H. revert f g Hfg.
  induction H as [|x y l k Hxy _ IH]; intros f g Hfg; [constructor|].
  cbn [imap]. constructor; [now apply Hfg|].
  apply IH. intros i. apply Hfg.
Qed.

Lemma zero_other_sequences_same (inIndex : Z) (l l' : list Input.t) :
  Forall2 same_outpoint l l' ->
  Forall2 same_outpoint (zero_other_sequences inIndex l)
    (zero_other_sequences inIndex l').
Proof.
  apply Forall2_imap. intros i x y Hxy.
  destruct (Z.of_nat i =? inIndex); [done|].
  now apply same_outpoint_sequence.
Qed.

Lemma element_Forall2 {A} (R : A -> A -> Prop) (l l' : list A) (i : Z) :
  Forall2 R l l' ->
  match element l i, element l' i with
  | Ok x, Ok y => R x y
  | Err e, Err e' => e = e'
  | _, _ => False
  end.
Proof.
  intros H. unfold element. destruct (i <? 0); [done|].
  destruct (l !! Z.to_nat i) as [x|] eqn:Hx.
  - destruct (Forall2_lookup_l _ _ _ _ _ H Hx) as (y & -> & Hxy). exact Hxy.
  - apply lookup_ge_None in Hx. rewrite (Forall2_length _ _ _ H) in Hx.
    apply lookup_ge_None in Hx. now rewrite Hx.
Qed.

Lemma fmap_eq_Forall2 {A B} (f : A -> B) (l k : list A) :
  f <$> l = f <$> k <-> Forall2 (fun x y => f x = f y) l k.
Proof. now rewrite list_eq_Forall2, Forall2_fmap. Qed.

Lemma same_outpoint_blank (s : Buffer) (x y : Input.t) :
  same_outpoint x y ->
  same_outpoint (Input.set_script s x) (Input.set_script s y).
Proof.
  destruct x, y. unfold same_outpoint, blank_in. cbn.
  now intros [= -> -> -> -> ->].
Qed.

Lemma sighash_inputs_same (ourScript : Buffer) (inIndex hashType : Z)
    (l l' : list Input.t) :
  Forall2 same_outpoint l l' ->
  match sighash_inputs ourScript inIndex hashType l,
        sighash_inputs ourScript inIndex hashType l' with
  | Ok a, Ok a' => blank_in <$> a = blank_in <$> a'
  | Err e, Err e' => e = e'
  | _, _ => False
  end.
Proof.
  intros H. unfold sighash_inputs. destruct (truthy _).
  - pose proof (element_Forall2 _ l l' inIndex H) as He.
    destruct (element l inIndex) as [x|], (element l' inIndex) as [y|];
      try done.
    cbn [mbind result_bind fmap list_fmap]. f_equal.
    now apply same_outpoint_script.
  - cbv zeta.
    assert (H' : Forall2 same_outpoint
                   (Input.set_script EMPTY_BUFFER <$> l)
                   (Input.set_script EMPTY_BUFFER <$> l')).
    { apply Forall2_fmap. eapply Forall2_impl; [exact H|].
      intros x y. apply same_outpoint_blank. }
    pose proof (element_Forall2 _ _ _ inIndex H') as He.
    destruct (element (Input.set_script EMPTY_BUFFER <$> l) inIndex) as [x|],
             (element (Input.set_script EMPTY_BUFFER <$> l') inIndex)
               as [y|]; try done.
    cbn [mbind result_bind]. apply fmap_eq_Forall2.
    apply Forall2_insert; [|now apply same_outpoint_script].
    apply Forall2_fmap. eapply Forall2_impl; [exact H|].
    intros a b. apply same_outpoint_script.
Qed.

Lemma mapM_tmp_output_same (l l' : list TmpOut) :
  Forall2 same_tmp l l' ->
  match mapM (M := result) tmp_output l,
        mapM (M := result) tmp_output l' with
  | Ok a, Ok a' => blank_out <$> a = blank_out <$> a'
  | Err e, Err e' => e = e'
  | _, _ => False
  end.
Proof.
  induction 1 as [|x y l l' Hxy _ IH]; [done|].
  cbn [mapM]. destruct Hxy as [x y Hxy|]; cbn [tmp_output mbind result_bind];
    [|done].
  destruct (mapM tmp_output l) as [a|], (mapM tmp_output l') as [a'|];
    try done.
  cbn [mbind result_bind mret result_ret fmap list_fmap]. now f_equal.
Qed.

Lemma blank_outputs_same (n : nat) (l l' : list TmpOut) :
  Forall2 same_tmp l l' ->
  Forall2 same_tmp
    (foldl (fun tmpOuts i => <[i := BLANK_OUTPUT]> tmpOuts) l (seq 0 n))
    (foldl (fun tmpOuts i => <[i := BLANK_OUTPUT]> tmpOuts) l' (seq 0 n)).
Proof.
  generalize 0%nat as i. intros i. revert i l l'.
  induction n as [|n IH]; intros i l l' H; [done|].
  cbn [seq foldl]. apply IH. apply Forall2_insert; [done|constructor].
Qed.

Lemma sighash_continue_same (ourScript : Buffer) (inIndex hashType : Z)
    (tx tx' : Transaction) (tmpIns tmpIns' : list Input.t)
    (tmpOuts tmpOuts' : list TmpOut) :
  version tx = version tx' -> locktime tx = locktime tx' ->
  Forall2 same_outpoint tmpIns tmpIns' ->
  Forall2 same_tmp tmpOuts tmpOuts' ->
  sighash_continue garbage hash256 ourScript inIndex hashType tx tmpIns
    tmpOuts =
  sighash_continue garbage hash256 ourScript inIndex hashType tx' tmpIns'
    tmpOuts'.
Proof.
  intros Hv Hl Hi Ho. unfold sighash_continue.
  pose proof (sighash_inputs_same ourScript inIndex hashType _ _ Hi) as Ha.
  destruct (sighash_inputs _ _ _ tmpIns) as [a|],
           (sighash_inputs _ _ _ tmpIns') as [a'|]; try done;
    [|now subst].
  cbn [mbind result_bind].
  pose proof (mapM_tmp_output_same _ _ Ho) as Hb.
  destruct (mapM tmp_output tmpOuts) as [b|],
           (mapM tmp_output tmpOuts') as [b'|]; try done; [|now subst].
  cbn [mbind result_bind]. apply sighash_serialize_stripped.
  unfold stripped. cbn [version locktime ins outs]. now rewrite Hv, Hl, Ha, Hb.
Qed.

(** X13. The legacy digest covers neither the input scripts, nor the
    members of the witness suffix, nor the flag: two transactions with the
    same version and locktime whose inputs and outputs agree up to those
    members have the same digest (or throw the same), for every input
    index, previous script and hash type. *)
Theorem hashForSignature_covers (tx tx' : Transaction) (inIndex : Z)
    (prevOutScript : Buffer) (hashType : Z) :
  version tx = version tx' -> locktime tx = locktime tx' ->
  Forall2 same_outpoint (ins tx) (ins tx') ->
  Forall2 same_payment (outs tx) (outs tx') ->
  hashForSignature garbage hash256 decompile compile tx inIndex
    prevOutScript hashType =
  hashForSignature garbage hash256 decompile compile tx' inIndex
    prevOutScript hashType.
Proof.
  intros Hv Hl Hi Ho. rewrite !hashForSignature_stages.
  rewrite <- (Forall2_length _ _ _ Hi), <- (Forall2_length _ _ _ Ho).
  destruct (typeforce _); [|done]. cbn [mbind result_bind].
  destruct (_ <=? inIndex); [done|].
  destruct (decompile prevOutScript) as [chunks|]; [|done].
  cbn [mbind result_bind]. cbv zeta.
  assert (Hk : Forall2 same_tmp (Kept <$> outs tx) (Kept <$> outs tx')).
  { apply Forall2_fmap. eapply Forall2_impl; [exact Ho|].
    intros x y. apply same_Kept. }
  destruct (_ =? SIGHASH_NONE).
  { apply sighash_continue_same;
      [done|done|now apply zero_other_sequences_same|constructor]. }
  destruct (_ =? SIGHASH_SINGLE).
  { destruct (_ <=? inIndex); [done|].
    apply sighash_continue_same;
      [done|done|now apply zero_other_sequences_same|].
    apply blank_outputs_same. now apply Forall2_take. }
  now apply sighash_continue_same.
Qed.

Lemma element_zero_other_sequences (inIndex : Z) (l : list Input.t) :
  element (zero_other_sequences inIndex l) inIndex = element l inIndex.
Proof.
  unfold element, zero_other_sequences.
  destruct (Z.ltb_spec inIndex 0) as [|Hi]; [done|].
  rewrite list_lookup_imap. destruct (l !! Z.to_nat inIndex); [|done].
  cbn. now rewrite Z2Nat.id, Z.eqb_refl by lia.
Qed.

Lemma sighash_continue_anyonecanpay (ourScript : Buffer)
    (inIndex hashType : Z) (tx tx' : Transaction)
    (tmpIns tmpIns' : list Input.t) (tmpOuts tmpOuts' : list TmpOut)
    (x x' : Input.t) :
  truthy (js_and hashType SIGHASH_ANYONECANPAY) = true ->
  version tx = version tx' -> locktime tx = locktime tx' ->
  element tmpIns inIndex = Ok x -> element tmpIns' inIndex = Ok x' ->
  same_outpoint x x' -> Forall2 same_tmp tmpOuts tmpOuts' ->
  sighash_continue garbage hash256 ourScript inIndex hashType tx tmpIns
    tmpOuts =
  sighash_continue garbage hash256 ourScript inIndex hashType tx' tmpIns'
    tmpOuts'.
Proof.
  intros Hacp Hv Hl Hx Hx' Hxx Ho. unfold sighash_continue, sighash_inputs.
  rewrite Hacp, Hx, Hx'. cbn [mbind result_bind].
  pose proof (mapM_tmp_output_same _ _ Ho) as Hb.
  destruct (mapM tmp_output tmpOuts) as [b|],
           (mapM tmp_output tmpOuts') as [b'|]; try done; [|now subst].
  cbn [mbind result_bind]. apply sighash_serialize_stripped.
  unfold stripped. cbn [version locktime ins outs fmap list_fmap].
  now rewrite Hv, Hl, Hb, (same_outpoint_script ourScript x x').
Qed.

(** X14. With SIGHASH_ANYONECANPAY the legacy digest covers, of the
    inputs, only the one at [inIndex]: two transactions with the same
    version, locktime and outputs that hold the same outpoint at
    [inIndex] have the same digest, whatever their other inputs. *)
Theorem hashForSignature_anyonecanpay (tx tx' : Transaction) (inIndex : Z)
    (prevOutScript : Buffer) (hashType : Z) (x x' : Input.t) :
  truthy (js_and hashType SIGHASH_ANYONECANPAY) = true ->
  version tx = version tx' -> locktime tx = locktime tx' ->
  0 <= inIndex ->
  ins tx !! Z.to_nat inIndex = Some x ->
  ins tx' !! Z.to_nat inIndex = Some x' ->
  same_outpoint x x' ->
  Forall2 same_payment (outs tx) (outs tx') ->
  hashForSignature garbage hash256 decompile compile tx inIndex
    prevOutScript hashType =
  hashForSignature garbage hash256 decompile compile tx' inIndex
    prevOutScript hashType.
Proof.
  intros Hacp Hv Hl Hi Hx Hx' Hxx Ho. rewrite !hashForSignature_stages.
  rewrite <- (Forall2_length _ _ _ Ho).
  destruct (typeforce _); [|done]. cbn [mbind result_bind].
  pose proof (lookup_lt_Some _ _ _ Hx) as Hlt.
  pose proof (lookup_lt_Some _ _ _ Hx') as Hlt'.
  rewrite (proj2 (Z.leb_gt (Z.of_nat (length (ins tx))) inIndex)),
    (proj2 (Z.leb_gt (Z.of_nat (length (ins tx'))) inIndex)) by lia.
  destruct (decompile prevOutScript) as [chunks|]; [|done].
  cbn [mbind result_bind]. cbv zeta.
  assert (He : element (ins tx) inIndex = Ok x).
  { unfold element. rewrite (proj2 (Z.ltb_ge _ _)) by lia. now rewrite Hx. }
  assert (He' : element (ins tx') inIndex = Ok x').
  { unfold element. rewrite (proj2 (Z.ltb_ge _ _)) by lia. now rewrite Hx'. }
  assert (Hk : Forall2 same_tmp (Kept <$> outs tx) (Kept <$> outs tx')).
  { apply Forall2_fmap. eapply Forall2_impl; [exact Ho|].
    intros o1 o2. apply same_Kept. }
  destruct (_ =? SIGHASH_NONE).
  { eapply sighash_continue_anyonecanpay; try eassumption;
      [now rewrite element_zero_other_sequences..|constructor]. }
  destruct (_ =? SIGHASH_SINGLE).
  { destruct (_ <=? inIndex); [done|].
    eapply sighash_continue_anyonecanpay; try eassumption;
      [now rewrite element_zero_other_sequences..|].
    apply blank_outputs_same. now apply Forall2_take. }
  eapply sighash_continue_anyonecanpay; eassumption.
Qed.

(** X15. With SIGHASH_NONE the legacy digest covers no output, and of the
    inputs other than the one at [inIndex] it does not cover the
    sequence: two transactions with the same version and locktime whose
    inputs agree once the other sequences are put to zero have the same
    digest, whatever their outputs. *)
Theorem hashForSignature_none (tx tx' : Transaction) (inIndex : Z)
    (prevOutScript : Buffer) (hashType : Z) :
  js_and hashType 0x1f = SIGHASH_NONE ->
  version tx = version tx' -> locktime tx = locktime tx' ->
  Forall2 same_outpoint (zero_other_sequences inIndex (ins tx))
    (zero_other_sequences inIndex (ins tx')) ->
  hashForSignature garbage hash256 decompile compile tx inIndex
    prevOutScript hashType =
  hashForSignature garbage hash256 decompile compile tx' inIndex
    prevOutScript hashType.
Proof.
  intros Hnone Hv Hl Hi. rewrite !hashForSignature_stages.
  pose proof (Forall2_length _ _ _ Hi) as Hlen.
  unfold zero_other_sequences in Hlen. rewrite !length_imap in Hlen.
  rewrite Hlen, Hnone.
  destruct (typeforce _); [|done]. cbn [mbind result_bind].
  destruct (_ <=? inIndex); [done|].
  destruct (decompile prevOutScript) as [chunks|]; [|done].
  cbn [mbind result_bind]. cbv zeta.
  change (SIGHASH_NONE =? SIGHASH_NONE) with true. cbv iota.
  apply sighash_continue_same; [done|done|exact Hi|constructor].
Qed.

Lemma sighash_inputs_Err (ourScript : Buffer) (inIndex hashType : Z)
    (l : list Input.t) (e : Error) :
  sighash_inputs ourScript inIndex hashType l = Err e -> e = JsTypeError.
Proof.
  unfold sighash_inputs, element.
  destruct (truthy _), (inIndex <? 0); cbn; try congruence;
    destruct (_ !! _); cbn; congruence.
Qed.

Lemma blank_outputs_head (n i : nat) (l : list TmpOut) :
  (0 < i)%nat ->
  foldl (fun tmpOuts i => <[i := BLANK_OUTPUT]> tmpOuts) l (seq i n) !! 0%nat
  = l !! 0%nat.
Proof.
  revert i l. induction n as [|n IH]; intros i l Hi; [done|].
  cbn [seq foldl]. rewrite IH by lia. apply list_lookup_insert_ne. lia.
Qed.

(** X16. SIGHASH_SINGLE for an input other than the first: the outputs
    before [inIndex] are replaced by [BLANK_OUTPUT], which has no member
    [value], and the size computation throws a type error on it; no
    digest is returned. *)
Theorem hashForSignature_single_blank (tx : Transaction) (inIndex : Z)
    (prevOutScript : Buffer) (hashType : Z) :
  js_and hashType 0x1f = SIGHASH_SINGLE ->
  1 <= inIndex < 2 ^ 32 ->
  inIndex < Z.of_nat (length (ins tx)) ->
  inIndex < Z.of_nat (length (outs tx)) ->
  hashForSignature garbage hash256 decompile compile tx inIndex
    prevOutScript hashType = Err JsTypeError.
Proof.
  intros Hsingle Hidx Hin Hout. rewrite hashForSignature_stages.
  unfold typeforce, isUInt32.
  rewrite (proj2 (Z.leb_le 0 inIndex)), (proj2 (Z.ltb_lt inIndex (2 ^ 32)))
    by lia.
  cbn [andb mbind result_bind].
  rewrite (proj2 (Z.leb_gt (Z.of_nat (length (ins tx))) inIndex)),
    (proj2 (Z.leb_gt (Z.of_nat (length (outs tx))) inIndex)) by lia.
  destruct (decompile prevOutScript) as [chunks|]; [|done].
  cbn [mbind result_bind]. cbv zeta. rewrite Hsingle.
  change (SIGHASH_SINGLE =? SIGHASH_NONE) with false.
  change (SIGHASH_SINGLE =? SIGHASH_SINGLE) with true. cbv iota.
  unfold sighash_continue.
  destruct (sighash_inputs _ _ _ _) as [a|e] eqn:Ha.
  2:{ now rewrite (sighash_inputs_Err _ _ _ _ _ Ha). }
  cbn [mbind result_bind].
  destruct (Z.to_nat inIndex) as [|n] eqn:Hn; [lia|].
  cbn [seq foldl]. set (l := take _ _).
  assert (Hl : (0 < length l)%nat).
  { subst l. rewrite length_take, length_fmap. lia. }
  destruct (foldl _ _ _) as [|o rest] eqn:Hf.
  { apply (f_equal (fun k => k !! 0%nat)) in Hf.
    rewrite blank_outputs_head, list_lookup_insert_eq in Hf by lia.
    discriminate Hf. }
  apply (f_equal (fun k => k !! 0%nat)) in Hf.
  rewrite blank_outputs_head, list_lookup_insert_eq in Hf by lia.
  injection Hf as <-. reflexivity.
Qed.

End LegacySighash.

(** ** The SegWit v0 digest and the taproot digest *)

Lemma bind_Err {A B} (m : result A) (k : A -> result B) :
  (forall a, m = Ok a -> is_Ok (k a) = false) -> is_Ok (m ≫= k) = false.
Proof. destruct m as [a|]; [|done]. intros H. now apply H. Qed.

Lemma element_out_of_range {A} (l : list A) (i : Z) :
  Z.of_nat (length l) <= i -> element l i = Err JsTypeError.
Proof.
  intros Hi. unfold element. destruct (i <? 0); [done|].
  rewrite (proj2 (lookup_ge_None l (Z.to_nat i))); [done|lia].
Qed.

(** X17. [hashForWitnessV0] for an input index that is not below the
    number of inputs returns no digest (it reads a member of
    [this.ins[inIndex]], which is undefined), where [hashForSignature]
    returns the constant [ONE]. *)
Theorem hashForWitnessV0_out_of_range (hash256 : Buffer -> Buffer)
    (tx : Transaction) (inIndex : Z) (prevOutScript value : Buffer)
    (hashType : Z) :
  Z.of_nat (length (ins tx)) <= inIndex ->
  is_Ok (hashForWitnessV0 hash256 tx inIndex prevOutScript value hashType)
  = false.
Proof.
  intros Hi. unfold hashForWitnessV0.
  do 5 (apply bind_Err; intros ? _).
  now rewrite element_out_of_range.
Qed.

Lemma forEach_fmap_same {A St} (f : A -> St -> result St) (g : A -> A)
    (xs : list A) (s : St) :
  (forall x s, f (g x) s = f x s) ->
  forEach f (g <$> xs) s = forEach f xs s.
Proof.
  intros H. rewrite forEach_fmap. now apply forEach_ext.
Qed.

Lemma foldl_fmap_same {A C} (f : C -> A -> C) (g : A -> A) (xs : list A)
    (c : C) :
  (forall c x, f c (g x) = f c x) -> foldl f c (g <$> xs) = foldl f c xs.
Proof. apply foldl_fmap_ext. Qed.

Lemma element_fmap {A B} (g : A -> B) (l : list A) (i : Z) :
  element (g <$> l) i = g <$> element l i.
Proof.
  unfold element. destruct (i <? 0); [done|].
  rewrite list_lookup_fmap. now destruct (l !! Z.to_nat i).
Qed.

Lemma hashForWitnessV0_view (hash256 : Buffer -> Buffer) (tx : Transaction)
    (inIndex : Z) (prevOutScript value : Buffer) (hashType : Z) :
  hashForWitnessV0 hash256
    (mkTransaction (version tx) (locktime tx) 0
       ((fun x => blank_in (Input.set_script [] x)) <$> ins tx)
       (blank_out <$> outs tx))
    inIndex prevOutScript value hashType =
  hashForWitnessV0 hash256 tx inIndex prevOutScript value hashType.
Proof.
  unfold hashForWitnessV0. cbn [version locktime ins outs].
  rewrite !length_fmap.
  rewrite !forEach_fmap_same by (now intros [] ?).
  rewrite !foldl_fmap_same by (now intros ? []).
  rewrite !element_fmap.
  destruct (element (outs tx) inIndex) as [o|];
    destruct (element (ins tx) inIndex) as [x|];
    cbn [fmap result_fmap]; try reflexivity.
  all: try (destruct x; reflexivity).
  all: try (destruct o; reflexivity).
  all: destruct x, o; reflexivity.
Qed.

(** X18. The SegWit v0 digest covers neither the input scripts, nor the
    members of the witness suffix, nor the flag: two transactions with
    the same version and locktime whose inputs and outputs agree up to
    those members have the same digest. *)
Theorem hashForWitnessV0_covers (hash256 : Buffer -> Buffer)
    (tx tx' : Transaction) (inIndex : Z) (prevOutScript value : Buffer)
    (hashType : Z) :
  version tx = version tx' -> locktime tx = locktime tx' ->
  Forall2 same_outpoint (ins tx) (ins tx') ->
  Forall2 same_payment (outs tx) (outs tx') ->
  hashForWitnessV0 hash256 tx inIndex prevOutScript value hashType =
  hashForWitnessV0 hash256 tx' inIndex prevOutScript value hashType.
Proof.
  intros Hv Hl Hi Ho.
  rewrite <- (hashForWitnessV0_view hash256 tx),
          <- (hashForWitnessV0_view hash256 tx').
  apply fmap_eq_Forall2 in Hi, Ho. now rewrite Hv, Hl, Hi, Ho.
Qed.

Section Taproot.

Variable sha256 : Buffer -> Buffer.
Variable taggedHash : String.string -> Buffer -> Buffer.

(** X19. [hashForWitnessV1] on a transaction without inputs returns no
    digest, whatever the arguments: either the length check or the
    [typeforce] check fails, or [getPrevoutScriptsSHA256] reduces an
    empty array without an initial value, or (with ANYONECANPAY) the
    input at [inIndex] is undefined. *)
Theorem hashForWitnessV1_no_inputs (tx : Transaction) (inIndex : Z)
    (prevOutScripts : list Buffer) (prevoutAssetsValues : list AssetValue.t)
    (hashType : Z) (genesisBlockHash : Buffer)
    (leafHash annex : option Buffer) :
  ins tx = [] ->
  is_Ok (hashForWitnessV1 sha256 taggedHash tx inIndex prevOutScripts
           prevoutAssetsValues hashType genesisBlockHash leafHash annex)
  = false.
Proof.
  intros Hins. unfold hashForWitnessV1. rewrite Hins.
  apply bind_Err; intros ? _.
  destruct prevOutScripts as [|s l]; [|done]. cbn [length Nat.eqb negb].
  cbv zeta.
  destruct (js_and hashType SIGHASH_INPUT_MASK =? SIGHASH_ANYONECANPAY).
  - cbn [negb mbind result_bind].
    apply bind_Err; intros a0 _.
    assert (He : element (@nil Buffer) inIndex = Err JsTypeError).
    { unfold element. destruct (inIndex <? 0); [done|].
      now destruct (Z.to_nat _). }
    destruct a0 as [hashOutputs hashOutputsWitnesses].
    apply bind_Err; intros size Hsize. exfalso.
    bind_inv Hsize pav Hpav. rewrite He in Hsize. discriminate Hsize.
  - cbn [negb]. apply bind_Err; intros p Hp. exfalso.
    bind_inv Hp h1 H1. bind_inv Hp h2 H2. bind_inv Hp h3 H3.
    bind_inv Hp h4 H4. discriminate Hp.
Qed.

Lemma hashForWitnessV1_view (tx : Transaction) (inIndex : Z)
    (prevOutScripts : list Buffer) (prevoutAssetsValues : list AssetValue.t)
    (hashType : Z) (genesisBlockHash : Buffer)
    (leafHash annex : option Buffer) :
  hashForWitnessV1 sha256 taggedHash
    (mkTransaction (version tx) (locktime tx) 0 (taproot_view <$> ins tx)
       (outs tx))
    inIndex prevOutScripts prevoutAssetsValues hashType genesisBlockHash
    leafHash annex =
  hashForWitnessV1 sha256 taggedHash tx inIndex prevOutScripts
    prevoutAssetsValues hashType genesisBlockHash leafHash annex.
Proof.
  unfold hashForWitnessV1, getPrevoutsSHA256, getOutpointFlagsSHA256,
    getIssuanceProofsSHA256, getSequenceSHA256, getIssuanceSHA256.
  cbn [version locktime ins outs]. rewrite !length_fmap.
  rewrite !forEach_fmap_same by (now intros [] ?).
  rewrite !foldl_fmap_same by (now intros ? []).
  rewrite !element_fmap.
  destruct (element (ins tx) inIndex) as [x|];
    cbn [fmap result_fmap]; [|reflexivity].
  destruct x; reflexivity.
Qed.

(** X20. The taproot digest covers neither the input scripts, nor the
    two witness stacks of an input, nor the flag: two transactions with
    the same version, locktime and outputs whose inputs agree in
    everything else have the same digest. *)
Theorem hashForWitnessV1_covers (tx tx' : Transaction) (inIndex : Z)
    (prevOutScripts : list Buffer) (prevoutAssetsValues : list AssetValue.t)
    (hashType : Z) (genesisBlockHash : Buffer)
    (leafHash annex : option Buffer) :
  version tx = version tx' -> locktime tx = locktime tx' ->
  taproot_view <$> ins tx = taproot_view <$> ins tx' ->
  outs tx = outs tx' ->
  hashForWitnessV1 sha256 taggedHash tx inIndex prevOutScripts
    prevoutAssetsValues hashType genesisBlockHash leafHash annex =
  hashForWitnessV1 sha256 taggedHash tx' inIndex prevOutScripts
    prevoutAssetsValues hashType genesisBlockHash leafHash annex.
Proof.
  intros Hv Hl Hi Ho.
  rewrite <- (hashForWitnessV1_view tx), <- (hashForWitnessV1_view tx').
  now rewrite Hv, Hl, Hi, Ho.
Qed.

End Taproot.

(** ** Coinbase, the input flag byte, and fresh allocations *)

Lemma Z_of_byte_zero (b : byte) : Z_of_byte b = 0 -> b = x00.
Proof.
  intros H. rewrite <- (byte_of_Z_of_byte b), H. reflexivity.
Qed.

Lemma isCoinbaseHash_true (buffer : Buffer) :
  isCoinbaseHash buffer = Ok true <-> buffer = replicate 32 x00.
Proof.
  split; [|intros ->; reflexivity].
  unfold isCoinbaseHash, typeforce. intros H.
  destruct (Nat.eqb_spec (length buffer) 32) as [Hlen|]; [|discriminate].
  remember (forallb _ _) as r eqn:Hr in H.
  cbn [mbind result_bind] in H. injection H as ->. symmetry in Hr.
  rename Hr into H. rewrite forallb_forall in H.
  apply list_eq. intros i.
  destruct (decide (i < 32)%nat) as [Hi|Hi].
  - rewrite lookup_replicate_2 by done.
    specialize (H i). rewrite in_seq in H. specialize (H ltac:(lia)).
    destruct (buffer !! i) as [b|]; [|discriminate].
    apply Z.eqb_eq in H. now rewrite (Z_of_byte_zero b H).
  - rewrite !(proj2 (lookup_ge_None _ _)); [done|rewrite length_replicate|];
      lia.
Qed.

(** X21. [isCoinbase()] returns true exactly for a transaction with one
    input whose hash is 32 zero bytes. *)
Theorem isCoinbase_true (tx : Transaction) :
  isCoinbase tx = Ok true <->
  exists txIn, ins tx = [txIn] /\ Input.hash txIn = replicate 32 x00.
Proof.
  unfold isCoinbase. split.
  - destruct (ins tx) as [|txIn [|? ?]]; try discriminate.
    intros H. exists txIn. split; [done|]. now apply isCoinbaseHash_true.
  - intros (txIn & -> & Hh). now apply isCoinbaseHash_true.
Qed.

(** X22. The flag byte that the taproot digest takes for an input is
    0x80 for an issuance plus 0x40 for the peg-in mark, and shifted left
    by 24 bits it is what the serializer adds to a logical index below
    2^30 to make the wire index. *)
Theorem getInputFlag_wire (input : Input.t) :
  0 <= Input.index input < 2 ^ 30 ->
  wire_prevIndex input = Input.index input + getInputFlag input * 2 ^ 24 /\
  getInputFlag input =
    (if has_issuance input then 0x80 else 0) +
    (if Input.isPegin input then 0x40 else 0).
Proof.
  intros Hi. destruct (wire_prevIndex_flags input Hi) as (Hw & _).
  cbv zeta in Hw. rewrite Hw. clear Hw. unfold has_issuance.
  assert (Hflag : getInputFlag input =
            (if Input.issuance input is Some _ then 0x80 else 0) +
            (if Input.isPegin input then 0x40 else 0)).
  { unfold getInputFlag.
    destruct (Input.issuance input), (Input.isPegin input); reflexivity. }
  rewrite Hflag.
  destruct (Input.issuance input), (Input.isPegin input); split;
    (reflexivity || lia).
Qed.

Section NoGarbage.

Variable hash256 : Buffer -> Buffer.
Variable decompile : Buffer -> option (list Chunk).
Variable compile : list Chunk -> Buffer.

Lemma sighash_serialize_layout garbage (hashType : Z) (t : Transaction) :
  Forall fixed_sizes (ins t) ->
  sighash_serialize garbage hash256 hashType t =
  if (- 2 ^ 31 <=? hashType) && (hashType <? 2 ^ 31)
  then Ok (hash256 (sig_layout wire_out t ++ le_bytes 4 hashType))
  else Err OutOfRange.
Proof.
  intros Hsz. unfold sighash_serialize. cbv zeta.
  rewrite <- (len_wire t false true true Hsz eq_refl).
  rewrite wire_signature. cbn [andb].
  set (payload := sig_layout wire_out t).
  set (buf := Buffer_allocUnsafe garbage (len payload + 4)).
  assert (Hbuf : length buf = (length payload + 4)%nat).
  { subst buf. rewrite length_allocUnsafe. unfold len. lia. }
  unfold Buffer_writeInt32LE.
  destruct ((- 2 ^ 31 <=? hashType) && (hashType <? 2 ^ 31)); [|done].
  replace (len buf - 4) with (len payload) by (unfold len; lia).
  rewrite (proj2 (Z.leb_le 0 (len payload))),
    (proj2 (Z.leb_le (len payload + 4) (len buf))) by (unfold len; lia).
  cbn [andb mbind result_bind].
  unfold len at 1 2. rewrite Nat2Z.id.
  rewrite (drop_ge buf) by lia. rewrite app_nil_r.
  rewrite __toBuffer_wire by (cbn [default from_option id]; lia).
  rewrite wire_signature. cbn [andb default from_option id]. fold payload.
  rewrite writeSlice_prefix
    by (rewrite length_app, length_take, length_le_bytes; lia).
  cbn [mbind result_bind toBuffer_result BufferWriter.buffer].
  do 2 f_equal. f_equal.
  rewrite drop_app_ge by (rewrite length_take; lia).
  rewrite length_take, Nat.min_l by lia.
  now rewrite Nat.sub_diag.
Qed.

Lemma fixed_sizes_set_sequence (n : Z) (txIn : Input.t) :
  fixed_sizes txIn -> fixed_sizes (Input.set_sequence n txIn).
Proof. now destruct txIn. Qed.

Lemma zero_other_sequences_fixed_sizes (inIndex : Z) (l : list Input.t) :
  Forall fixed_sizes l -> Forall fixed_sizes (zero_other_sequences inIndex l).
Proof.
  intros H. apply Forall_lookup. intros i x Hx.
  unfold zero_other_sequences in Hx. rewrite list_lookup_imap in Hx.
  destruct (l !! i) as [y|] eqn:Hy; [|discriminate].
  pose proof (Forall_lookup_1 _ _ _ _ H Hy) as Hfy.
  cbn in Hx. injection Hx as <-.
  destruct (Z.of_nat i =? inIndex); [done|].
  now apply fixed_sizes_set_sequence.
Qed.

Lemma element_Forall {A} (P : A -> Prop) (l : list A) (i : Z) (x : A) :
  Forall P l -> element l i = Ok x -> P x.
Proof.
  intros H. unfold element. destruct (i <? 0); [discriminate|].
  destruct (l !! Z.to_nat i) as [y|] eqn:Hy; [|discriminate].
  intros [= <-]. exact (Forall_lookup_1 _ _ _ _ H Hy).
Qed.

Lemma sighash_inputs_fixed_sizes (ourScript : Buffer) (inIndex hashType : Z)
    (l a : list Input.t) :
  Forall fixed_sizes l ->
  sighash_inputs ourScript inIndex hashType l = Ok a ->
  Forall fixed_sizes a.
Proof.
  intros H. unfold sighash_inputs. destruct (truthy _).
  - intros Ha. bind_inv Ha x Hx. injection Ha as <-.
    constructor; [|constructor]. apply fixed_sizes_set_script.
    exact (element_Forall _ _ _ _ H Hx).
  - cbv zeta. intros Ha. bind_inv Ha x Hx. injection Ha as <-.
    assert (H' : Forall fixed_sizes (Input.set_script EMPTY_BUFFER <$> l)).
    { apply Forall_fmap. eapply Forall_impl; [exact H|].
      intros y. apply fixed_sizes_set_script. }
    apply Forall_insert; [exact H'|]. apply fixed_sizes_set_script.
    exact (element_Forall _ _ _ _ H' Hx).
Qed.

Lemma sighash_continue_no_garbage (g g' : nat -> byte) (ourScript : Buffer)
    (inIndex hashType : Z) (tx : Transaction) (tmpIns : list Input.t)
    (tmpOuts : list TmpOut) :
  Forall fixed_sizes tmpIns ->
  sighash_continue g hash256 ourScript inIndex hashType tx tmpIns tmpOuts =
  sighash_continue g' hash256 ourScript inIndex hashType tx tmpIns tmpOuts.
Proof.
  intros H. unfold sighash_continue.
  destruct (sighash_inputs _ _ _ _) as [a|] eqn:Ha; [|done].
  cbn [mbind result_bind].
  destruct (mapM tmp_output tmpOuts) as [b|]; [|done].
  cbn [mbind result_bind].
  rewrite !sighash_serialize_layout; [done|..];
    cbn [ins]; eapply sighash_inputs_fixed_sizes; eassumption.
Qed.

(** X23. The legacy digest never covers a byte that [Buffer.allocUnsafe]
    left in the buffer: for a transaction whose inputs have the fixed
    sizes of the data model the result is the same whatever the content
    of the fresh allocation. *)
Theorem hashForSignature_no_garbage (g g' : nat -> byte) (tx : Transaction)
    (inIndex : Z) (prevOutScript : Buffer) (hashType : Z) :
  Forall fixed_sizes (ins tx) ->
  hashForSignature g hash256 decompile compile tx inIndex prevOutScript
    hashType =
  hashForSignature g' hash256 decompile compile tx inIndex prevOutScript
    hashType.
Proof.
  intros H. rewrite !hashForSignature_stages.
  destruct (typeforce _); [|done]. cbn [mbind result_bind].
  destruct (_ <=? inIndex); [done|].
  destruct (decompile prevOutScript) as [chunks|]; [|done].
  cbn [mbind result_bind]. cbv zeta.
  pose proof (zero_other_sequences_fixed_sizes inIndex _ H) as Hz.
  destruct (_ =? SIGHASH_NONE);
    [now apply sighash_continue_no_garbage|].
  destruct (_ =? SIGHASH_SINGLE);
    [|now apply sighash_continue_no_garbage].
  destruct (_ <=? inIndex); [done|].
  now apply sighash_continue_no_garbage.
Qed.

End NoGarbage.

(** ** [setWitness] and the round trip *)

Lemma hasWitnesses_witness (tx : Transaction) (index : nat) (txIn : Input.t) :
  ins tx !! index = Some txIn -> Input.witness txIn <> [] ->
  hasWitnesses tx = true.
Proof.
  intros Hl Hw. unfold hasWitnesses.
  assert (H : existsb (fun x => negb (length (Input.witness x) =? 0)%nat)
                (ins tx) = true).
  { apply existsb_exists. exists txIn. split.
    - eapply list_elem_of_In, list_elem_of_lookup_2, Hl.
    - now destruct (Input.witness txIn). }
  rewrite H. now rewrite orb_true_r.
Qed.

(** X24. [setWitness] with a witness that is not empty, on a transaction of
    the data model: the transaction then has witnesses whatever its flag,
    and [fromBuffer(toBuffer(t))] returns it with the flag 1 and with the
    witness at the input. *)
Theorem setWitness_roundtrip (garbage : nat -> byte) (tx tx' : Transaction)
    (index : nat) (witness : list Buffer) :
  data_model tx -> is_vector witness -> witness <> [] ->
  setWitness tx index witness = Ok tx' ->
  hasWitnesses tx' = true /\
  Input.witness <$> ins tx' !! index = Some witness /\
  toBuffer garbage tx' None None ≫= (fun buffer => fromBuffer buffer false) =
    Ok (set_flag 1 tx').
Proof.
  intros Hdm Hv Hne Hset. unfold setWitness in Hset.
  destruct (ins tx !! index) as [txIn|] eqn:Hl; [|discriminate].
  injection Hset as <-.
  set (txIn' := Input.set_in_fields witness _ _ _ txIn).
  assert (Hl' : ins (set_ins (<[index := txIn']> (ins tx)) tx) !! index =
                Some txIn').
  { cbn [ins set_ins]. apply list_lookup_insert_eq.
    now apply lookup_lt_Some in Hl. }
  assert (Hw : hasWitnesses (set_ins (<[index := txIn']> (ins tx)) tx) = true).
  { now apply (hasWitnesses_witness _ index txIn'). }
  assert (Hdm' : data_model (set_ins (<[index := txIn']> (ins tx)) tx)).
  { destruct Hdm as [H1 H2 H3 H4 H5 H6].
    constructor; cbn [version locktime ins outs set_ins]; try done.
    - now rewrite length_insert.
    - apply Forall_insert; [done|].
      destruct (proj1 (Forall_lookup _ _) H5 _ _ Hl) as (A & B & [C D E F]).
      split; [now destruct txIn, A|]. split.
      { destruct txIn; exact B. }
      now constructor. }
  split; [done|]. split; [now rewrite Hl'|].
  unfold toBuffer.
  rewrite __toBuffer_fresh by (done || now apply data_model_fixed_sizes).
  cbn [fmap result_fmap fst mbind result_bind].
  rewrite <- wire_normalized. unfold normalized. rewrite Hw.
  apply fromBuffer_wire.
  pose proof (wf_normalized _ Hdm') as Hwf. unfold normalized in Hwf.
  now rewrite Hw in Hwf.
Qed.

(** ** [clone] on the store *)

Lemma M_bind_Ok {A B} (m : M A) (k : A -> M B) (h : gmap loc HeapObject)
    (b : B) :
  ((m ≫= k) h).1 = Ok b ->
  exists a h1, m h = (Ok a, h1) /\ (k a h1).1 = Ok b.
Proof.
  unfold mbind, M_bind. destruct (m h) as [[a|e] h1]; [eauto|discriminate].
Qed.

Lemma M_bind_run {A B} (m : M A) (k : A -> M B) (h h1 : gmap loc HeapObject)
    (a : A) :
  m h = (Ok a, h1) -> (m ≫= k) h = k a h1.
Proof. intros H. unfold mbind, M_bind. now rewrite H. Qed.

Lemma reads_run {A} (m : M A) (h : gmap loc HeapObject) (a : A) :
  reads m -> (m h).1 = Ok a -> m h = (Ok a, h).
Proof.
  intros Hm Ha. destruct (Hm h a Ha) as [Hh _].
  destruct (m h) as [r h1]. simpl in *. now subst.
Qed.

Lemma fresh_None (h : gmap loc HeapObject) : h !! fresh (dom h) = None.
Proof. apply not_elem_of_dom, is_fresh. Qed.

Lemma alloc_run (o : HeapObject) (h : gmap loc HeapObject) :
  alloc o h = (Ok (fresh (dom h)), <[fresh (dom h) := o]> h).
Proof. reflexivity. Qed.

Lemma insert_fresh_subseteq (o : HeapObject) (h : gmap loc HeapObject) :
  h ⊆ <[fresh (dom h) := o]> h.
Proof. apply insert_subseteq, fresh_None. Qed.

Lemma load_Input_run (l : loc) (r : RefInput.t) (h : gmap loc HeapObject) :
  h !! l = Some (HInput r) -> load_Input l h = (Ok r, h).
Proof.
  intros H. unfold load_Input, mbind, M_bind, load. now rewrite H.
Qed.

Lemma load_Input_inv (l : loc) (r : RefInput.t) (h h1 : gmap loc HeapObject) :
  load_Input l h = (Ok r, h1) -> h !! l = Some (HInput r).
Proof.
  unfold load_Input, mbind, M_bind, load.
  destruct (h !! l) as [[]|]; try discriminate. now intros [= -> _].
Qed.

Lemma load_Output_run (l : loc) (r : RefOutput.t) (h : gmap loc HeapObject) :
  h !! l = Some (HOutput r) -> load_Output l h = (Ok r, h).
Proof.
  intros H. unfold load_Output, mbind, M_bind, load. now rewrite H.
Qed.

Lemma load_Output_inv (l : loc) (r : RefOutput.t)
    (h h1 : gmap loc HeapObject) :
  load_Output l h = (Ok r, h1) -> h !! l = Some (HOutput r).
Proof.
  unfold load_Output, mbind, M_bind, load.
  destruct (h !! l) as [[]|]; try discriminate. now intros [= -> _].
Qed.

(** The copying loop of [clone]: one new object for each element, with
    the members of the original. *)
Lemma clone_objects (wrap : HeapObject -> Prop) (f : loc -> M loc)
    (ls : list loc) (h0 h : gmap loc HeapObject) :
  (forall l o k, k !! l = Some o -> wrap o ->
     f l k = (Ok (fresh (dom k)), <[fresh (dom k) := o]> k)) ->
  h0 ⊆ h ->
  Forall (fun l => exists o, h0 !! l = Some o /\ wrap o) ls ->
  exists news h',
    h_map f ls h = (Ok news, h') /\ h ⊆ h' /\
    Forall2 (fun l l' => exists o, h0 !! l = Some o /\ h' !! l' = Some o /\
                                   h !! l' = None) ls news.
Proof.
  intros Hf Hsub Hall. revert h Hsub.
  induction Hall as [|l ls (o & Hl & Hw) _ IH]; intros h Hsub.
  - exists [], h. split; [reflexivity|]. split; [done|constructor].
  - cbn [h_map].
    pose proof (lookup_weaken _ _ _ _ Hl Hsub) as Hl'.
    rewrite (M_bind_run _ _ _ _ _ (Hf l o h Hl' Hw)).
    set (l' := fresh (dom h)). set (h1 := <[l' := o]> h).
    assert (Hsub1 : h ⊆ h1) by apply insert_fresh_subseteq.
    destruct (IH h1) as (news & h' & Hrun & Hsub' & Hrel).
    { now trans h. }
    rewrite (M_bind_run _ _ _ _ _ Hrun).
    exists (l' :: news), h'. split; [reflexivity|].
    split; [now trans h1|]. constructor.
    + exists o. split; [done|]. split; [|apply fresh_None].
      apply (lookup_weaken h1); [|done]. apply lookup_insert_eq.
    + eapply Forall2_impl; [exact Hrel|].
      intros a b (o' & A & B & C). exists o'. split; [done|]. split; [done|].
      destruct (h !! b) eqn:E; [|done].
      rewrite (lookup_weaken _ _ _ _ E Hsub1) in C. discriminate.
Qed.

Lemma load_Transaction_run (l : loc) (t : RefTransaction.t)
    (h : gmap loc HeapObject) :
  h !! l = Some (HTransaction t) -> load_Transaction l h = (Ok t, h).
Proof.
  intros H. unfold load_Transaction, mbind, M_bind, load. now rewrite H.
Qed.

Lemma load_Transaction_inv (l : loc) (t : RefTransaction.t)
    (h h1 : gmap loc HeapObject) :
  load_Transaction l h = (Ok t, h1) -> h !! l = Some (HTransaction t).
Proof.
  unfold load_Transaction, mbind, M_bind, load.
  destruct (h !! l) as [[]|]; try discriminate. now intros [= -> _].
Qed.

Lemma load_Inputs_run (l : loc) (e : list loc) (h : gmap loc HeapObject) :
  h !! l = Some (HInputs e) -> load_Inputs l h = (Ok e, h).
Proof.
  intros H. unfold load_Inputs, mbind, M_bind, load. now rewrite H.
Qed.

Lemma load_Inputs_inv (l : loc) (e : list loc) (h h1 : gmap loc HeapObject) :
  load_Inputs l h = (Ok e, h1) -> h !! l = Some (HInputs e).
Proof.
  unfold load_Inputs, mbind, M_bind, load.
  destruct (h !! l) as [[]|]; try discriminate. now intros [= -> _].
Qed.

Lemma load_Outputs_run (l : loc) (e : list loc) (h : gmap loc HeapObject) :
  h !! l = Some (HOutputs e) -> load_Outputs l h = (Ok e, h).
Proof.
  intros H. unfold load_Outputs, mbind, M_bind, load. now rewrite H.
Qed.

Lemma load_Outputs_inv (l : loc) (e : list loc)
    (h h1 : gmap loc HeapObject) :
  load_Outputs l h = (Ok e, h1) -> h !! l = Some (HOutputs e).
Proof.
  unfold load_Outputs, mbind, M_bind, load.
  destruct (h !! l) as [[]|]; try discriminate. now intros [= -> _].
Qed.

Lemma update_Transaction_run (l : loc)
    (f : RefTransaction.t -> RefTransaction.t)
    (t : RefTransaction.t) (h : gmap loc HeapObject) :
  h !! l = Some (HTransaction t) ->
  update_Transaction l f h = (Ok tt, <[l := HTransaction (f t)]> h).
Proof.
  intros H. unfold update_Transaction.
  now rewrite (M_bind_run _ _ _ _ _ (load_Transaction_run l t h H)).
Qed.

(** What a successful deep read tells about the objects. *)
Lemma h_map_reads_inv {A B} (f : A -> M B) (ls : list A) (xs : list B)
    (h : gmap loc HeapObject) :
  (forall l, reads (f l)) ->
  (h_map f ls h).1 = Ok xs -> Forall2 (fun l x => f l h = (Ok x, h)) ls xs.
Proof.
  intros Hf. revert xs. induction ls as [|l ls IH]; intros xs H.
  - injection H as <-. constructor.
  - cbn [h_map] in H. apply M_bind_Ok in H as (x & h1 & Hx & H).
    pose proof (reads_run _ _ _ (Hf l) (f_equal fst Hx)) as Hx'.
    rewrite Hx' in Hx. injection Hx as <-.
    apply M_bind_Ok in H as (xs' & h2 & Hxs & H).
    injection H as <-. constructor; [done|].
    apply IH. now rewrite Hxs.
Qed.

Lemma h_map_run {A B} (f : A -> M B) (ls : list A) (xs : list B)
    (h : gmap loc HeapObject) :
  Forall2 (fun l x => f l h = (Ok x, h)) ls xs ->
  h_map f ls h = (Ok xs, h).
Proof.
  induction 1 as [|l x ls xs Hx _ IH]; [reflexivity|].
  cbn [h_map]. rewrite (M_bind_run _ _ _ _ _ Hx).
  now rewrite (M_bind_run _ _ _ _ _ IH).
Qed.

(** Two input objects with the same members are read alike. *)
Lemma h_get_Input_same (l l' : loc) (r : RefInput.t) (x : Input.t)
    (h h' : gmap loc HeapObject) :
  h ⊆ h' -> h !! l = Some (HInput r) -> h' !! l' = Some (HInput r) ->
  h_get_Input l h = (Ok x, h) -> h_get_Input l' h' = (Ok x, h').
Proof.
  intros Hsub Hl Hl' Hx.
  destruct (reads_h_get_Input l h x (f_equal fst Hx)) as [_ Hmono].
  specialize (Hmono h' Hsub). rewrite <- Hmono.
  unfold h_get_Input.
  rewrite (M_bind_run _ _ _ _ _ (load_Input_run l' r h' Hl')).
  now rewrite (M_bind_run _ _ _ _ _
                 (load_Input_run l r h' (lookup_weaken _ _ _ _ Hl Hsub))).
Qed.

Lemma h_get_Output_same (l l' : loc) (r : RefOutput.t) (x : Output.t)
    (h h' : gmap loc HeapObject) :
  h ⊆ h' -> h !! l = Some (HOutput r) -> h' !! l' = Some (HOutput r) ->
  h_get_Output l h = (Ok x, h) -> h_get_Output l' h' = (Ok x, h').
Proof.
  intros Hsub Hl Hl' Hx.
  destruct (reads_h_get_Output l h x (f_equal fst Hx)) as [_ Hmono].
  specialize (Hmono h' Hsub). rewrite <- Hmono.
  unfold h_get_Output.
  rewrite (M_bind_run _ _ _ _ _ (load_Output_run l' r h' Hl')).
  now rewrite (M_bind_run _ _ _ _ _
                 (load_Output_run l r h' (lookup_weaken _ _ _ _ Hl Hsub))).
Qed.

Lemma h_get_Input_object (l : loc) (x : Input.t) (h : gmap loc HeapObject) :
  h_get_Input l h = (Ok x, h) -> exists r, h !! l = Some (HInput r).
Proof.
  unfold h_get_Input. intros Hx.
  destruct (load_Input l h) as [[r|] hr] eqn:E.
  - exists r. now apply load_Input_inv in E.
  - unfold mbind, M_bind in Hx. rewrite E in Hx. discriminate.
Qed.

Lemma h_get_Output_object (l : loc) (x : Output.t)
    (h : gmap loc HeapObject) :
  h_get_Output l h = (Ok x, h) -> exists r, h !! l = Some (HOutput r).
Proof.
  unfold h_get_Output. intros Hx.
  destruct (load_Output l h) as [[r|] hr] eqn:E.
  - exists r. now apply load_Output_inv in E.
  - unfold mbind, M_bind in Hx. rewrite E in Hx. discriminate.
Qed.

Lemma copied_read {X} (f : loc -> M X) (h h' : gmap loc HeapObject)
    (ls ls' : list loc) (xs : list X) :
  (forall l l' x, copied h h' l l' -> f l h = (Ok x, h) ->
     f l' h' = (Ok x, h')) ->
  Forall2 (fun l x => f l h = (Ok x, h)) ls xs ->
  Forall2 (copied h h') ls ls' ->
  Forall2 (fun l' x => f l' h' = (Ok x, h')) ls' xs.
Proof.
  intros Hf Hxs. revert ls'.
  induction Hxs as [|l x ls xs Hx _ IH]; intros ls' Hc;
    inversion Hc as [|? l' ? ls'' Hl Hls]; subst; constructor.
  - exact (Hf l l' x Hl Hx).
  - now apply IH.
Qed.

Ltac read_inv H lem a Ha :=
  let h1 := fresh "h" in
  apply M_bind_Ok in H as (a & h1 & Ha & H);
  let Ha' := fresh in
  pose proof (reads_run _ _ _ lem (f_equal fst Ha)) as Ha';
  rewrite Ha' in Ha; injection Ha as <-; rename Ha' into Ha.

Lemma copied_weaken (h h1 h' : gmap loc HeapObject) (l l' : loc) :
  h ⊆ h1 -> h1 ⊆ h' ->
  (exists o, h !! l = Some o /\ h1 !! l' = Some o /\ h !! l' = None) ->
  copied h h' l l'.
Proof.
  intros _ H1 (o & A & B & C). split; [done|]. exists o.
  split; [done|]. exact (lookup_weaken _ _ _ _ B H1).
Qed.

(** X25. [clone()] on the store: when the receiver reads as a
    transaction, the call returns a new transaction object that reads as
    the same transaction; every object of the old store is still there
    unchanged; the two arrays of the clone and each of its input and
    output objects are new, and each has the members of the original at
    the same position, that is, the same references to the buffers. *)
Theorem h_clone_copy (this : loc) (h : gmap loc HeapObject)
    (tx : Transaction) :
  (h_get_Transaction this h).1 = Ok tx ->
  exists newTx h',
    h_clone this h = (Ok newTx, h') /\ h ⊆ h' /\ h !! newTx = None /\
    (h_get_Transaction newTx h').1 = Ok tx /\
    exists t t' insL insL' outsL outsL',
      h !! this = Some (HTransaction t) /\
      h' !! newTx = Some (HTransaction t') /\
      h !! RefTransaction.ins t = Some (HInputs insL) /\
      h' !! RefTransaction.ins t' = Some (HInputs insL') /\
      h !! RefTransaction.ins t' = None /\
      Forall2 (copied h h') insL insL' /\
      h !! RefTransaction.outs t = Some (HOutputs outsL) /\
      h' !! RefTransaction.outs t' = Some (HOutputs outsL') /\
      h !! RefTransaction.outs t' = None /\
      Forall2 (copied h h') outsL outsL'.
Proof.
  intros Hget. unfold h_get_Transaction in Hget.
  read_inv Hget (reads_load_Transaction this) t Ht.
  read_inv Hget (reads_load_Inputs (RefTransaction.ins t)) insL HinsL.
  read_inv Hget (reads_h_map _ insL reads_h_get_Input) txIns HtxIns.
  read_inv Hget (reads_load_Outputs (RefTransaction.outs t)) outsL HoutsL.
  read_inv Hget (reads_h_map _ outsL reads_h_get_Output) txOuts HtxOuts.
  injection Hget as Htx.
  apply load_Transaction_inv in Ht. apply load_Inputs_inv in HinsL.
  apply load_Outputs_inv in HoutsL.
  apply (f_equal fst), h_map_reads_inv in HtxIns;
    [|exact reads_h_get_Input].
  apply (f_equal fst), h_map_reads_inv in HtxOuts;
    [|exact reads_h_get_Output].
  (* the new transaction and its two empty arrays *)
  set (a1 := fresh (dom h)). set (h1 := <[a1 := HInputs []]> h).
  set (a2 := fresh (dom h1)). set (h2 := <[a2 := HOutputs []]> h1).
  set (nt := fresh (dom h2)).
  set (h3 := <[nt := HTransaction (RefTransaction.mk 1 0 0 a1 a2)]> h2).
  assert (Hnew : h_new_Transaction h = (Ok nt, h3)) by reflexivity.
  assert (S1 : h ⊆ h1) by apply insert_fresh_subseteq.
  assert (S2 : h1 ⊆ h2) by apply insert_fresh_subseteq.
  assert (S3 : h2 ⊆ h3) by apply insert_fresh_subseteq.
  assert (S03 : h ⊆ h3) by (trans h1; [done|now trans h2]).
  assert (Hnt : h !! nt = None).
  { destruct (h !! nt) eqn:E; [|done].
    pose proof (lookup_weaken _ _ _ _ E (transitivity S1 S2)) as E'.
    pose proof (fresh_None h2 : h2 !! nt = None) as F. congruence. }
  unfold h_clone. rewrite (M_bind_run _ _ _ _ _ Hnew).
  rewrite (M_bind_run _ _ _ _ _
             (load_Transaction_run this t h3 (lookup_weaken _ _ _ _ Ht S03))).
  rewrite (M_bind_run _ _ _ _ _
             (update_Transaction_run nt _ _ h3 (lookup_insert_eq _ _ _))).
  rewrite (M_bind_run _ _ _ _ _
             (update_Transaction_run nt _ _ _ (lookup_insert_eq _ _ _))).
  rewrite (M_bind_run _ _ _ _ _
             (update_Transaction_run nt _ _ _ (lookup_insert_eq _ _ _))).
  unfold h3. rewrite !insert_insert_eq.
  cbn [RefTransaction.set_version RefTransaction.set_locktime
       RefTransaction.set_flag RefTransaction.version
       RefTransaction.locktime RefTransaction.flag RefTransaction.ins
       RefTransaction.outs].
  set (t4 := RefTransaction.mk (RefTransaction.version t)
               (RefTransaction.locktime t) (RefTransaction.flag t) a1 a2).
  set (h4 := <[nt := HTransaction t4]> h2).
  assert (S04 : h ⊆ h4).
  { apply insert_subseteq_r; [done|now trans h1]. }
  rewrite (M_bind_run _ _ _ _ _
             (load_Inputs_run _ insL h4 (lookup_weaken _ _ _ _ HinsL S04))).
  (* the copies of the inputs *)
  destruct (clone_objects (fun o => exists r, o = HInput r)
              (fun l => txIn ← load_Input l; alloc (HInput txIn))
              insL h h4) as (insL' & h5 & Hrun5 & S45 & Hc5).
  { intros l o k Hl (r & ->).
    now rewrite (M_bind_run _ _ _ _ _ (load_Input_run l r k Hl)). }
  { exact S04. }
  { clear -HtxIns. induction HtxIns as [|l x ls xs Hx _ IH]; constructor;
      [|exact IH].
    destruct (h_get_Input_object l x h Hx) as (r & Hr). eauto. }
  rewrite (M_bind_run _ _ _ _ _ Hrun5).
  rewrite (M_bind_run _ _ _ _ _ (alloc_run _ h5)).
  set (ai := fresh (dom h5)). set (h6 := <[ai := HInputs insL']> h5).
  assert (S56 : h5 ⊆ h6) by apply insert_fresh_subseteq.
  assert (Hnt6 : h6 !! nt = Some (HTransaction t4)).
  { apply (lookup_weaken h4); [apply lookup_insert_eq|now trans h5]. }
  rewrite (M_bind_run _ _ _ _ _ (update_Transaction_run nt _ _ h6 Hnt6)).
  cbn [RefTransaction.set_ins RefTransaction.version RefTransaction.locktime
       RefTransaction.flag RefTransaction.outs].
  set (t7 := RefTransaction.mk (RefTransaction.version t)
               (RefTransaction.locktime t) (RefTransaction.flag t) ai a2).
  set (h7 := <[nt := HTransaction t7]> h6).
  assert (S07 : h ⊆ h7).
  { apply insert_subseteq_r; [done|]. trans h4; [done|now trans h5]. }
  rewrite (M_bind_run _ _ _ _ _
             (load_Outputs_run _ outsL h7 (lookup_weaken _ _ _ _ HoutsL S07))).
  (* the copies of the outputs *)
  destruct (clone_objects (fun o => exists r, o = HOutput r)
              (fun l => txOut ← load_Output l; alloc (HOutput txOut))
              outsL h h7) as (outsL' & h8 & Hrun8 & S78 & Hc8).
  { intros l o k Hl (r & ->).
    now rewrite (M_bind_run _ _ _ _ _ (load_Output_run l r k Hl)). }
  { exact S07. }
  { clear -HtxOuts. induction HtxOuts as [|l x ls xs Hx _ IH]; constructor;
      [|exact IH].
    destruct (h_get_Output_object l x h Hx) as (r & Hr). eauto. }
  rewrite (M_bind_run _ _ _ _ _ Hrun8).
  rewrite (M_bind_run _ _ _ _ _ (alloc_run _ h8)).
  set (ao := fresh (dom h8)). set (h9 := <[ao := HOutputs outsL']> h8).
  assert (S89 : h8 ⊆ h9) by apply insert_fresh_subseteq.
  assert (Hnt9 : h9 !! nt = Some (HTransaction t7)).
  { apply (lookup_weaken h7); [apply lookup_insert_eq|now trans h8]. }
  rewrite (M_bind_run _ _ _ _ _ (update_Transaction_run nt _ _ h9 Hnt9)).
  cbn [RefTransaction.set_outs RefTransaction.version RefTransaction.locktime
       RefTransaction.flag RefTransaction.ins].
  set (t' := RefTransaction.mk (RefTransaction.version t)
               (RefTransaction.locktime t) (RefTransaction.flag t) ai ao).
  set (h' := <[nt := HTransaction t']> h9).
  exists nt, h'. split; [reflexivity|].
  assert (S0' : h ⊆ h').
  { apply insert_subseteq_r; [done|]. trans h7; [done|now trans h8]. }
  split; [exact S0'|]. split; [exact Hnt|].
  (* what the final store holds *)
  assert (Hnt4 : h4 !! nt = Some (HTransaction t4)) by apply lookup_insert_eq.
  assert (Hnt5 : h5 !! nt = Some (HTransaction t4))
    by exact (lookup_weaken _ _ _ _ Hnt4 S45).
  assert (Hnt7 : h7 !! nt = Some (HTransaction t7)) by apply lookup_insert_eq.
  assert (Hnt8 : h8 !! nt = Some (HTransaction t7))
    by exact (lookup_weaken _ _ _ _ Hnt7 S78).
  assert (Hai : ai <> nt).
  { intros E. pose proof (fresh_None h5 : h5 !! ai = None) as F.
    rewrite E in F. congruence. }
  assert (Hao : ao <> nt).
  { intros E. pose proof (fresh_None h8 : h8 !! ao = None) as F.
    rewrite E in F. congruence. }
  assert (L6 : forall l o, h6 !! l = Some o -> l <> nt -> h' !! l = Some o).
  { intros l o Hl Hne. unfold h'. rewrite lookup_insert_ne by done.
    apply (lookup_weaken h7); [|now trans h8].
    unfold h7. now rewrite lookup_insert_ne by done. }
  assert (L9 : forall l o, h9 !! l = Some o -> l <> nt -> h' !! l = Some o).
  { intros l o Hl Hne. unfold h'. now rewrite lookup_insert_ne by done. }
  assert (Hai' : h' !! ai = Some (HInputs insL')).
  { apply L6; [apply lookup_insert_eq|done]. }
  assert (Hao' : h' !! ao = Some (HOutputs outsL')).
  { apply L9; [apply lookup_insert_eq|done]. }
  assert (Below : forall k l, h ⊆ k -> k !! l = None -> h !! l = None).
  { intros k l Hk Hl. destruct (h !! l) eqn:E; [|done].
    rewrite (lookup_weaken _ _ _ _ E Hk) in Hl. discriminate. }
  assert (Cin : Forall2 (copied h h') insL insL').
  { eapply Forall2_impl; [exact Hc5|]. intros l l' (o & A & B & C).
    split; [exact (Below h4 l' S04 C)|]. exists o. split; [done|].
    apply L6; [exact (lookup_weaken _ _ _ _ B S56)|].
    intros ->. congruence. }
  assert (Cout : Forall2 (copied h h') outsL outsL').
  { eapply Forall2_impl; [exact Hc8|]. intros l l' (o & A & B & C).
    split; [exact (Below h7 l' S07 C)|]. exists o. split; [done|].
    apply L9; [exact (lookup_weaken _ _ _ _ B S89)|].
    intros ->. congruence. }
  split.
  - unfold h_get_Transaction.
    rewrite (M_bind_run _ _ _ _ _
               (load_Transaction_run nt t' h' (lookup_insert_eq _ _ _))).
    cbn [RefTransaction.ins RefTransaction.outs RefTransaction.version
         RefTransaction.locktime RefTransaction.flag t'].
    rewrite (M_bind_run _ _ _ _ _ (load_Inputs_run ai insL' h' Hai')).
    assert (Rin : h_map h_get_Input insL' h' = (Ok txIns, h')).
    { apply h_map_run. apply (copied_read _ h h' insL); [|done..].
      intros l l' x (_ & o & A & B) Hx.
      destruct (h_get_Input_object l x h Hx) as (r & Hr).
      rewrite A in Hr. injection Hr as ->.
      exact (h_get_Input_same l l' r x h h' S0' A B Hx). }
    rewrite (M_bind_run _ _ _ _ _ Rin).
    rewrite (M_bind_run _ _ _ _ _ (load_Outputs_run ao outsL' h' Hao')).
    assert (Rout : h_map h_get_Output outsL' h' = (Ok txOuts, h')).
    { apply h_map_run. apply (copied_read _ h h' outsL); [|done..].
      intros l l' x (_ & o & A & B) Hx.
      destruct (h_get_Output_object l x h Hx) as (r & Hr).
      rewrite A in Hr. injection Hr as ->.
      exact (h_get_Output_same l l' r x h h' S0' A B Hx). }
    rewrite (M_bind_run _ _ _ _ _ Rout). simpl. now f_equal.
  - exists t, t', insL, insL', outsL, outsL'.
    split_and!; try done.
    + apply lookup_insert_eq.
    + apply (Below h5); [now trans h4|apply fresh_None].
    + apply (Below h8); [now trans h7|apply fresh_None].
Qed.

(** ** The further theorems at sample values *)

Lemma serialization_layout_witness :
  fst <$> __toBuffer garbage0 example_tx None None true false false =
    Ok (wire example_tx true false false) /\
  len (wire example_tx true false false) = __byteLength example_tx true false.
Proof.
  exact (serialization_layout garbage0 example_tx true false false
           fixed_sizes_example_tx eq_refl).
Defined.

Lemma serialization_in_place_witness :
  __toBuffer garbage0 example_tx (Some (replicate 200 xee)) (Some 3%nat) true
    false false =
  Ok (wire example_tx true false false,
      replicate 3 xee ++ wire example_tx true false false ++
      replicate 15 xee).
Proof.
  pose proof (serialization_in_place garbage0 example_tx (replicate 200 xee)
                (Some 3%nat) true false false) as H.
  cbv zeta in H. rewrite H.
  - reflexivity.
  - apply Nat.leb_le. vm_compute. reflexivity.
Defined.

Lemma virtualSize_bounds_witness :
  weight two_input_tx = 4 * __byteLength two_input_tx false false /\
  virtualSize two_input_tx = __byteLength two_input_tx false false.
Proof.
  destruct (virtualSize_bounds two_input_tx) as (Hw & _ & _ & Hv).
  split; [|exact (Hv eq_refl)].
  rewrite Hw. reflexivity.
Defined.

Lemma txid_ignores_witnesses_witness :
  getHash garbage0 (fun b => b) example_tx false =
  getHash garbage0 (fun b => b) example_tx_rewitnessed false.
Proof.
  exact (txid_ignores_witnesses garbage0 (fun b => b) example_tx
           example_tx_rewitnessed eq_refl eq_refl eq_refl eq_refl).
Defined.

Lemma wtxid_without_witnesses_witness :
  getHash garbage0 (fun b => b) two_input_tx true =
  getHash garbage0 (fun b => b) two_input_tx false.
Proof.
  exact (wtxid_without_witnesses garbage0 (fun b => b) two_input_tx eq_refl
           eq_refl).
Defined.

Lemma data_model_flag_unset_tx : data_model flag_unset_tx.
Proof.
  constructor; simpl; try lia.
  - repeat constructor; simpl; unfold DEFAULT_SEQUENCE; try lia;
      try reflexivity; try (unfold is_varslice; simpl; lia).
    intros (H & _). discriminate H.
  - constructor.
Defined.

Lemma roundtrip_normalizes_witness :
  toBuffer garbage0 flag_unset_tx None None ≫=
    (fun buffer => fromBuffer buffer false) = Ok (set_flag 1 flag_unset_tx).
Proof.
  exact (proj1 (roundtrip_normalizes garbage0 flag_unset_tx
                  data_model_flag_unset_tx)).
Defined.

Lemma fromBuffer_trailing_bytes_witness :
  (toBuffer garbage0 example_tx None None ≫=
     fun buffer => fromBuffer (buffer ++ [x00]) false) = Err TrailingBytes /\
  (toBuffer garbage0 example_tx None None ≫=
     fun buffer => fromBuffer (buffer ++ [x00]) true) = Ok example_tx.
Proof.
  apply (fromBuffer_trailing_bytes garbage0 example_tx [x00] wf_example_tx).
  discriminate.
Defined.

Lemma example_tx_parsed :
  fromBuffer (wire example_tx true false false) false = Ok example_tx.
Proof. vm_compute. reflexivity. Defined.

Lemma fromBuffer_data_model_witness :
  data_model example_tx /\ 0 <= flag example_tx < 256.
Proof.
  destruct (fromBuffer_data_model _ _ _ example_tx_parsed) as (H & Hf & _).
  exact (conj H Hf).
Defined.

Lemma fromBuffer_reparse_witness :
  toBuffer garbage0 example_tx None None ≫= (fun b => fromBuffer b false) =
  Ok example_tx.
Proof.
  apply (fromBuffer_reparse garbage0 _ _ _ example_tx_parsed).
  right. reflexivity.
Defined.

Lemma addInput_raw_index_witness :
  exists txIn,
    addInput new_Transaction (replicate 32 x11) (5 + 2 ^ 30) None None None =
      Ok (set_ins [txIn] new_Transaction, 0) /\
    Input.index txIn = 5 /\ Input.isPegin txIn = true /\
    wire_prevIndex txIn = 5 + 2 ^ 30.
Proof.
  destruct (addInput_raw_index new_Transaction
              (set_ins [Input.mk (replicate 32 x11) 5 [] DEFAULT_SEQUENCE []
                          true None [] [] []] new_Transaction)
              (replicate 32 x11) (5 + 2 ^ 30) None None None 0 eq_refl)
    as (txIn & Htx & _ & _ & _ & Hidx & Hwire).
  - intros H. now destruct H.
  - injection Htx as <-. eexists. split; [reflexivity|].
    split; [reflexivity|]. split; [reflexivity|]. exact Hwire.
Defined.

Lemma addInput_missing_issuance_witness :
  addInput new_Transaction (replicate 32 x11) (2 ^ 31) None None None =
  Err MissingIssuance.
Proof.
  apply addInput_missing_issuance; [reflexivity|lia|reflexivity].
Defined.

Lemma hashForSignature_covers_witness :
  hashForSignature garbage0 (fun b => b) sample_decompile sample_compile
    two_input_tx 0 [x51] SIGHASH_ALL =
  hashForSignature garbage0 (fun b => b) sample_decompile sample_compile
    two_input_tx_signed 0 [x51] SIGHASH_ALL.
Proof.
  apply hashForSignature_covers; [reflexivity|reflexivity|..];
    repeat constructor.
Defined.

Lemma hashForSignature_anyonecanpay_witness :
  hashForSignature garbage0 (fun b => b) sample_decompile sample_compile
    two_input_tx 0 [x51] 0x81 =
  hashForSignature garbage0 (fun b => b) sample_decompile sample_compile
    two_input_tx_other 0 [x51] 0x81.
Proof.
  eapply hashForSignature_anyonecanpay;
    [reflexivity|reflexivity|reflexivity|lia|reflexivity|reflexivity|
     reflexivity|repeat constructor].
Defined.

Lemma hashForSignature_none_witness :
  hashForSignature garbage0 (fun b => b) sample_decompile sample_compile
    two_input_tx 0 [x51] SIGHASH_NONE =
  hashForSignature garbage0 (fun b => b) sample_decompile sample_compile
    two_input_tx_no_outputs 0 [x51] SIGHASH_NONE.
Proof.
  apply hashForSignature_none; [reflexivity|reflexivity|reflexivity|].
  repeat constructor.
Defined.

Lemma hashForSignature_single_blank_witness :
  hashForSignature garbage0 (fun b => b) sample_decompile sample_compile
    two_by_two_tx 1 [x51] SIGHASH_SINGLE = Err JsTypeError.
Proof.
  apply hashForSignature_single_blank; [reflexivity|lia|simpl; lia..].
Defined.

Lemma hashForWitnessV0_out_of_range_witness :
  is_Ok (hashForWitnessV0 (fun b => b) example_tx 1 [x51]
           (x01 :: replicate 8 x05) SIGHASH_ALL) = false.
Proof. apply hashForWitnessV0_out_of_range. simpl. lia. Defined.

Lemma hashForWitnessV0_covers_witness :
  hashForWitnessV0 (fun b => b) two_input_tx 0 [x51]
    (x01 :: replicate 8 x05) SIGHASH_ALL =
  hashForWitnessV0 (fun b => b) two_input_tx_signed 0 [x51]
    (x01 :: replicate 8 x05) SIGHASH_ALL.
Proof.
  apply hashForWitnessV0_covers; [reflexivity|reflexivity|..];
    repeat constructor.
Defined.

Lemma hashForWitnessV1_no_inputs_witness :
  is_Ok (hashForWitnessV1 (fun b => b) (fun _ b => b) new_Transaction 0 []
           [] SIGHASH_DEFAULT (replicate 32 x00) None None) = false.
Proof. now apply hashForWitnessV1_no_inputs. Defined.

Lemma hashForWitnessV1_covers_witness :
  hashForWitnessV1 (fun b => b) (fun _ b => b) two_input_tx 0 [[x51]; [x52]]
    [] SIGHASH_DEFAULT (replicate 32 x00) None None =
  hashForWitnessV1 (fun b => b) (fun _ b => b)
    (set_outs (outs two_input_tx) two_input_tx_signed) 0 [[x51]; [x52]]
    [] SIGHASH_DEFAULT (replicate 32 x00) None None.
Proof. now apply hashForWitnessV1_covers. Defined.

Lemma isCoinbase_true_witness : isCoinbase coinbase_tx = Ok true.
Proof.
  apply isCoinbase_true. eexists. split; reflexivity.
Defined.

Lemma getInputFlag_wire_witness :
  wire_prevIndex example_input = 5 + 0xc0 * 2 ^ 24 /\
  getInputFlag example_input = 0xc0.
Proof.
  apply (getInputFlag_wire example_input). simpl. lia.
Defined.

Lemma hashForSignature_no_garbage_witness :
  hashForSignature garbage0 (fun b => b) sample_decompile sample_compile
    example_tx 0 [x51] SIGHASH_ALL =
  hashForSignature (fun _ => x00) (fun b => b) sample_decompile
    sample_compile example_tx 0 [x51] SIGHASH_ALL.
Proof.
  apply hashForSignature_no_garbage. exact fixed_sizes_example_tx.
Defined.

Lemma hashForSignature_preimage_witness :
  hashForSignature garbage0 (fun b => b) sample_decompile sample_compile
    two_input_tx 1 [x51; xab; x01; x07] SIGHASH_ALL =
  Ok (sig_layout wire_out
        (signed_view
           (sample_compile
              (filter (fun x => not_codeseparator x = true)
                 [Op 0x51; Op 0xab; Push [x07]]))
           (Z.to_nat 1) two_input_tx) ++
      le_bytes 4 SIGHASH_ALL).
Proof.
  apply (hashForSignature_preimage garbage0 (fun b => b) sample_decompile
           sample_compile two_input_tx 1 [x51; xab; x01; x07]
           [Op 0x51; Op 0xab; Push [x07]] SIGHASH_ALL).
  - reflexivity.
  - repeat constructor.
  - simpl. lia.
  - lia.
  - unfold SIGHASH_ALL. lia.
  - vm_compute. discriminate.
  - vm_compute. discriminate.
  - reflexivity.
Defined.

Lemma h_clone_copy_witness :
  exists newTx h',
    h_clone sample_this sample_store.2 = (Ok newTx, h') /\
    sample_store.2 ⊆ h' /\ sample_store.2 !! newTx = None /\
    (h_get_Transaction newTx h').1 = Ok two_input_tx /\
    exists t t' insL insL' outsL outsL',
      sample_store.2 !! sample_this = Some (HTransaction t) /\
      h' !! newTx = Some (HTransaction t') /\
      sample_store.2 !! RefTransaction.ins t = Some (HInputs insL) /\
      h' !! RefTransaction.ins t' = Some (HInputs insL') /\
      sample_store.2 !! RefTransaction.ins t' = None /\
      Forall2 (copied sample_store.2 h') insL insL' /\
      sample_store.2 !! RefTransaction.outs t = Some (HOutputs outsL) /\
      h' !! RefTransaction.outs t' = Some (HOutputs outsL') /\
      sample_store.2 !! RefTransaction.outs t' = None /\
      Forall2 (copied sample_store.2 h') outsL outsL'.
Proof.
  apply (h_clone_copy sample_this sample_store.2 two_input_tx).
  vm_compute. reflexivity.
Defined.

Lemma setWitness_roundtrip_witness :
  hasWitnesses flag_unset_tx = true /\
  Input.witness <$> ins flag_unset_tx !! 0%nat = Some [[x01]] /\
  toBuffer garbage0 flag_unset_tx None None ≫=
    (fun buffer => fromBuffer buffer false) = Ok (set_flag 1 flag_unset_tx).
Proof.
  apply (setWitness_roundtrip garbage0
           (set_ins [Input.mk (replicate 32 x11) 0 [] DEFAULT_SEQUENCE []
                       false None [] [] []] flag_unset_tx)
           flag_unset_tx 0 [[x01]]).
  - constructor; simpl; try lia.
    + repeat constructor; simpl; unfold DEFAULT_SEQUENCE; try lia;
        try reflexivity; try (unfold is_varslice; simpl; lia).
      intros (H & _). discriminate H.
    + constructor.
  - split; [simpl; lia|]. repeat constructor.
  - discriminate.
  - reflexivity.
Defined.
